(** * AnalyticsSDK: the event queue, its durable slot and the client

    A shallow embedding of [src/queue.ts] (class [EventQueue]),
    [src/utils/storage.ts] (class [Storage]), [src/utils/validator.ts]
    and the client of [src/index.ts] (class [AnalyticsClient]).

    JavaScript values are a small tree type; exceptions are explicit
    completions; the mutable queue object and the host environment
    (localStorage, console, interval timers, the injected sender and the
    promises of [flush]) are the fields of one [World] record that every
    method threads through a state-and-exception monad.  What the source
    leaves to the host is a parameter: the JSON built-ins ([JSON]) and the
    engine's limit on the arguments of one call ([Engine]).

    [flush] is an [async] method: its body runs synchronously up to the
    single [await] on the sender's promise, and resumes (catch / finally)
    when the host settles that promise.  The two halves are [flush] and
    [flush_resume]; the event loop is the labelled step function [step]. *)

From stdpp Require Import gmap strings list pretty.
From Stdlib Require Import ZArith Lia.

Local Open Scope string_scope.
Local Open Scope list_scope.
Local Open Scope Z_scope.

(** ** Values, errors, completions *)

#[local] Unset Elimination Schemes.
Inductive JsValue :=
| JUndefined
| JNull
| JBool (b : bool)
| JNum (n : Z)
| JStr (s : string)
| JArr (xs : list JsValue)
| JObj (fields : list (string * JsValue)).
#[local] Set Elimination Schemes.

(** [interface Event { name; properties?; timestamp? }] is a plain object;
    the queue never looks inside it. *)
Abbreviation Event := JsValue (only parsing).

Definition mkEvent (name : string) (timestamp : Z) : Event :=
  JObj [("name", JStr name); ("timestamp", JNum timestamp)].

(** A thrown value: the message of the error object. *)
Definition Error := string.

Inductive Completion (A : Type) :=
| Normal (a : A)
| Throw (e : Error).
Arguments Normal {A} a.
Arguments Throw {A} e.

(** The host's JSON built-ins.  [JSON.stringify] throws on cyclic values,
    [JSON.parse] on malformed text. *)
Class JSON := {
  JSON_stringify : JsValue → Completion string;
  JSON_parse : string → Completion JsValue
}.

(** The engine's limit on the arguments of one call.  A call that spreads
    an array, [f(...xs)], passes one argument per element; above the limit
    (some tens or hundreds of thousands, by engine) the call throws a
    [RangeError] before [f] runs. *)
Class Engine := {
  max_arguments : Z;
  too_many_arguments : Error
}.

(** ** The host's localStorage *)

Inductive LSCall :=
| GetItem (k : string)
| SetItem (k v : string)
| RemoveItem (k : string)
| Keys.

(** [items] is the stored data; [faults] says which calls throw in which
    state (access denied, quota exceeded, ...). *)
Record LocalStorage := {
  items : gmap string string;
  faults : gmap string string → LSCall → option Error
}.

(** ** The queue object and its environment *)

Record Config := { batchSize : Z; flushInterval : Z }.

(** Who called [flush()]: [add] on reaching the batch size, the interval
    timer, or the application (through the facade's [flush]). *)
Inductive Caller := FromAdd | FromTimer | Explicit.

Inductive PromiseState :=
| Fulfilled
| Rejected (e : Error).

(** An activation of [flush] suspended at [await this.onFlush(eventsToSend)]. *)
Record Suspended := { caller : Caller; eventsToSend : list Event }.

Record World := {
  (* fields of the EventQueue instance *)
  config : Config;
  events : list Event;
  timer : option Z;
  isProcessing : bool;
  (* host environment *)
  localStorage : LocalStorage;
  console : list (string * Error);
  intervals : list Z;
  unload_listener : bool;
  beacons : list string;
  (* the injected sender and the promises of flush() *)
  onFlush_calls : list (list Event);
  awaiting : list Suspended;
  settled : list (Caller * PromiseState)
}.

Definition with_events (es : list Event) (w : World) : World :=
  {| config := config w; events := es; timer := timer w;
     isProcessing := isProcessing w; localStorage := localStorage w;
     console := console w; intervals := intervals w;
     unload_listener := unload_listener w; beacons := beacons w;
     onFlush_calls := onFlush_calls w; awaiting := awaiting w;
     settled := settled w |}.

Definition with_timer (t : option Z) (w : World) : World :=
  {| config := config w; events := events w; timer := t;
     isProcessing := isProcessing w; localStorage := localStorage w;
     console := console w; intervals := intervals w;
     unload_listener := unload_listener w; beacons := beacons w;
     onFlush_calls := onFlush_calls w; awaiting := awaiting w;
     settled := settled w |}.

Definition with_isProcessing (b : bool) (w : World) : World :=
  {| config := config w; events := events w; timer := timer w;
     isProcessing := b; localStorage := localStorage w;
     console := console w; intervals := intervals w;
     unload_listener := unload_listener w; beacons := beacons w;
     onFlush_calls := onFlush_calls w; awaiting := awaiting w;
     settled := settled w |}.

Definition with_items (m : gmap string string) (w : World) : World :=
  {| config := config w; events := events w; timer := timer w;
     isProcessing := isProcessing w;
     localStorage := {| items := m; faults := faults (localStorage w) |};
     console := console w; intervals := intervals w;
     unload_listener := unload_listener w; beacons := beacons w;
     onFlush_calls := onFlush_calls w; awaiting := awaiting w;
     settled := settled w |}.

Definition with_console (c : list (string * Error)) (w : World) : World :=
  {| config := config w; events := events w; timer := timer w;
     isProcessing := isProcessing w; localStorage := localStorage w;
     console := c; intervals := intervals w;
     unload_listener := unload_listener w; beacons := beacons w;
     onFlush_calls := onFlush_calls w; awaiting := awaiting w;
     settled := settled w |}.

Definition with_intervals (l : list Z) (w : World) : World :=
  {| config := config w; events := events w; timer := timer w;
     isProcessing := isProcessing w; localStorage := localStorage w;
     console := console w; intervals := l;
     unload_listener := unload_listener w; beacons := beacons w;
     onFlush_calls := onFlush_calls w; awaiting := awaiting w;
     settled := settled w |}.

Definition with_unload_listener (b : bool) (w : World) : World :=
  {| config := config w; events := events w; timer := timer w;
     isProcessing := isProcessing w; localStorage := localStorage w;
     console := console w; intervals := intervals w;
     unload_listener := b; beacons := beacons w;
     onFlush_calls := onFlush_calls w; awaiting := awaiting w;
     settled := settled w |}.

Definition with_beacons (l : list string) (w : World) : World :=
  {| config := config w; events := events w; timer := timer w;
     isProcessing := isProcessing w; localStorage := localStorage w;
     console := console w; intervals := intervals w;
     unload_listener := unload_listener w; beacons := l;
     onFlush_calls := onFlush_calls w; awaiting := awaiting w;
     settled := settled w |}.

Definition with_onFlush_calls (l : list (list Event)) (w : World) : World :=
  {| config := config w; events := events w; timer := timer w;
     isProcessing := isProcessing w; localStorage := localStorage w;
     console := console w; intervals := intervals w;
     unload_listener := unload_listener w; beacons := beacons w;
     onFlush_calls := l; awaiting := awaiting w;
     settled := settled w |}.

Definition with_awaiting (l : list Suspended) (w : World) : World :=
  {| config := config w; events := events w; timer := timer w;
     isProcessing := isProcessing w; localStorage := localStorage w;
     console := console w; intervals := intervals w;
     unload_listener := unload_listener w; beacons := beacons w;
     onFlush_calls := onFlush_calls w; awaiting := l;
     settled := settled w |}.

Definition with_settled (l : list (Caller * PromiseState)) (w : World) : World :=
  {| config := config w; events := events w; timer := timer w;
     isProcessing := isProcessing w; localStorage := localStorage w;
     console := console w; intervals := intervals w;
     unload_listener := unload_listener w; beacons := beacons w;
     onFlush_calls := onFlush_calls w; awaiting := awaiting w;
     settled := l |}.

(** ** State and exceptions *)

Definition M (A : Type) : Type := World → Completion A * World.

Definition ret {A} (a : A) : M A := fun w => (Normal a, w).

Definition bind {A B} (m : M A) (k : A → M B) : M B := fun w =>
  match m w with
  | (Normal a, w') => k a w'
  | (Throw e, w') => (Throw e, w')
  end.

Definition throw {A} (e : Error) : M A := fun w => (Throw e, w).

Definition lift {A} (c : Completion A) : M A := fun w => (c, w).

(** [try { m } catch (error) { h error }] *)
Definition try_catch {A} (m : M A) (h : Error → M A) : M A := fun w =>
  match m w with
  | (Normal a, w') => (Normal a, w')
  | (Throw e, w') => h e w'
  end.

(** [try { m } finally { f }]: [f] runs on both exits; the completion of
    [m] is kept unless [f] itself throws. *)
Definition try_finally {A} (m : M A) (f : M unit) : M A := fun w =>
  match m w with
  | (c, w') =>
      match f w' with
      | (Normal _, w'') => (c, w'')
      | (Throw e, w'') => (Throw e, w'')
      end
  end.

Definition get_world : M World := fun w => (Normal w, w).
Definition modify (f : World → World) : M unit := fun w => (Normal tt, f w).

Notation "'let*' x ':=' m 'in' k" := (bind m (fun x => k))
  (at level 10, x name, m at level 100, k at level 200, only parsing).
Notation "m >> k" := (bind m (fun _ => k))
  (at level 95, right associativity, only parsing).

(** [Array.prototype.forEach] over a callback with effects. *)
Fixpoint forEach {A} (f : A → M unit) (xs : list A) : M unit :=
  match xs with
  | [] => ret tt
  | x :: xs' => f x >> forEach f xs'
  end.

(** ** Host primitives *)

Definition console_error (msg : string) (error : Error) : M unit :=
  modify (fun w => with_console (console w ++ [(msg, error)]) w).

Definition localStorage_call {A} (c : LSCall)
    (run : gmap string string → A * gmap string string) : M A := fun w =>
  let m := items (localStorage w) in
  match faults (localStorage w) m c with
  | Some e => (Throw e, w)
  | None => let '(a, m') := run m in (Normal a, with_items m' w)
  end.

Definition localStorage_getItem (k : string) : M (option string) :=
  localStorage_call (GetItem k) (fun m => (m !! k, m)).

Definition localStorage_setItem (k v : string) : M unit :=
  localStorage_call (SetItem k v) (fun m => (tt, <[k:=v]> m)).

Definition localStorage_removeItem (k : string) : M unit :=
  localStorage_call (RemoveItem k) (fun m => (tt, delete k m)).

(** The members that the storage object inherits from [Storage.prototype]
    and [Object.prototype].  The storage object's named properties do not
    override them: an item stored under one of these names is reached by
    [getItem], [setItem] and [removeItem], but it is not an own property
    of the object. *)
Definition Storage_prototype_names : list string :=
  ["length"; "key"; "getItem"; "setItem"; "removeItem"; "clear";
   "constructor"; "hasOwnProperty"; "isPrototypeOf"; "propertyIsEnumerable";
   "toLocaleString"; "toString"; "valueOf"; "__defineGetter__";
   "__defineSetter__"; "__lookupGetter__"; "__lookupSetter__"; "__proto__"].

(** The own property names of the storage object: the stored keys that no
    inherited member shadows. *)
Definition own_keys (m : gmap string string) : list string :=
  filter (fun key => key ∉ Storage_prototype_names) (map_to_list m).*1.

(** [Object.keys(localStorage)] *)
Definition Object_keys_localStorage : M (list string) :=
  localStorage_call Keys (fun m => (own_keys m, m)).

(** A fresh timer handle: positive, hence truthy. *)
Definition fresh_handle (l : list Z) : Z := Z.succ (foldr Z.max 0 l).

Definition window_setInterval : M Z := fun w =>
  let h := fresh_handle (intervals w) in
  (Normal h, with_intervals (h :: intervals w) w).

Definition clearInterval (h : Z) : M unit :=
  modify (fun w => with_intervals (filter (fun x => x ≠ h) (intervals w)) w).

(** ** storage.ts: [class Storage], a prefix over localStorage *)

Module Storage.
Section Methods.
Context `{JSON}.

(** The [try] block of [get]; a string is truthy unless empty. *)
Definition get_try (prefix key : string) : M JsValue :=
  let* item := localStorage_getItem (prefix +:+ key) in
  match item with
  | Some (String c s) => lift (JSON_parse (String c s))
  | Some EmptyString | None => ret JNull
  end.

Definition get (prefix key : string) : M JsValue :=
  try_catch (get_try prefix key)
    (fun error => console_error "Storage get error:" error >> ret JNull).

Definition set_try (prefix key : string) (value : JsValue) : M bool :=
  let* s := lift (JSON_stringify value) in
  localStorage_setItem (prefix +:+ key) s >>
  ret true.

Definition set (prefix key : string) (value : JsValue) : M bool :=
  try_catch (set_try prefix key value)
    (fun error => console_error "Storage set error:" error >> ret false).

Definition remove_try (prefix key : string) : M bool :=
  localStorage_removeItem (prefix +:+ key) >>
  ret true.

Definition remove (prefix key : string) : M bool :=
  try_catch (remove_try prefix key)
    (fun error => console_error "Storage remove error:" error >> ret false).

Definition clear_each (prefix : string) (key : string) : M unit :=
  if String.prefix prefix key then localStorage_removeItem key else ret tt.

Definition clear_try (prefix : string) : M bool :=
  let* keys := Object_keys_localStorage in
  forEach (clear_each prefix) keys >>
  ret true.

Definition clear (prefix : string) : M bool :=
  try_catch (clear_try prefix)
    (fun error => console_error "Storage clear error:" error >> ret false).

End Methods.
End Storage.

(** ** queue.ts: [class EventQueue] *)

(** Where the synchronous part of an [async] body stops. *)
Inductive FlushPoint :=
| Returned
| Awaits (batch : list Event).

Module EventQueue.
Section Methods.
Context `{JSON} `{Engine}.

(** [this.storage = new Storage('analytics_queue_')] *)
Definition storage : string := "analytics_queue_".

Definition persistEvents : M unit :=
  let* w := get_world in
  Storage.set storage "events" (JArr (events w)) >>
  ret tt.

(** [persisted && Array.isArray(persisted)]: every array is truthy. *)
Definition loadPersistedEvents : M unit :=
  let* persisted := Storage.get storage "events" in
  match persisted with
  | JArr xs => modify (with_events xs)
  | _ => ret tt
  end.

(** The call [this.onFlush(eventsToSend)]: the sender is an async function,
    so the call itself returns a pending promise and cannot throw. *)
Definition onFlush (batch : list Event) : M unit :=
  modify (fun w => with_onFlush_calls (onFlush_calls w ++ [batch]) w).

(** The body of [flush] up to and including the call of the sender. *)
Definition flush_enter : M FlushPoint :=
  let* w := get_world in
  if (length (events w) =? 0)%nat || isProcessing w then ret Returned
  else
    modify (with_isProcessing true) >>
    let eventsToSend := events w in
    modify (with_events []) >>
    persistEvents >>
    onFlush eventsToSend >>
    ret (Awaits eventsToSend).

(** Calling the async method: the caller gets a promise at once.  It is
    already fulfilled when the body returned, rejected when the body threw,
    and pending when the body is suspended at the [await]. *)
Definition flush (c : Caller) : M unit := fun w =>
  match flush_enter w with
  | (Normal Returned, w') =>
      (Normal tt, with_settled (settled w' ++ [(c, Fulfilled)]) w')
  | (Normal (Awaits b), w') =>
      (Normal tt,
       with_awaiting (awaiting w' ++ [{| caller := c; eventsToSend := b |}]) w')
  | (Throw e, w') =>
      (Normal tt, with_settled (settled w' ++ [(c, Rejected e)]) w')
  end.

(** [this.events.unshift(...eventsToSend)]: a call with one argument per
    event of the batch.  Above the engine's limit the call throws and the
    array is left as it was. *)
Definition events_unshift (eventsToSend : list Event) : M unit :=
  if max_arguments <? Z.of_nat (length eventsToSend)
  then throw too_many_arguments
  else modify (fun w => with_events (eventsToSend ++ events w) w).

(** The rest of the body, run when the sender's promise settles with
    [outcome]: the [await] completes or throws, then catch and finally.
    An exception thrown inside the catch block leaves the body through
    [finally]. *)
Definition flush_resume (eventsToSend : list Event)
    (outcome : Completion unit) : M unit :=
  try_finally
    (try_catch (lift outcome)
       (fun error =>
          console_error "Failed to flush events:" error >>
          events_unshift eventsToSend >>
          persistEvents))
    (modify (with_isProcessing false)).

(** Settling of the sender's promise awaited by the [i]-th suspended
    activation; the completion of the resumed body settles the promise
    that [flush] returned to its caller. *)
Definition settle (k : Suspended) (outcome : Completion unit) : M unit :=
  fun w =>
  match flush_resume (eventsToSend k) outcome w with
  | (Normal _, w') =>
      (Normal tt, with_settled (settled w' ++ [(caller k, Fulfilled)]) w')
  | (Throw e, w') =>
      (Normal tt, with_settled (settled w' ++ [(caller k, Rejected e)]) w')
  end.

Definition add (event : Event) : M unit :=
  modify (fun w => with_events (events w ++ [event]) w) >>
  persistEvents >>
  let* w := get_world in
  if batchSize (config w) <=? Z.of_nat (length (events w))
  then flush FromAdd
  else ret tt.

Definition size (w : World) : nat := length (events w).

Definition clear : M unit :=
  modify (with_events []) >>
  Storage.clear storage >>
  ret tt.

(** [if (this.timer)]: a handle is truthy unless it is 0. *)
Definition destroy : M unit :=
  let* w := get_world in
  match timer w with
  | Some h => if h =? 0 then ret tt else clearInterval h
  | None => ret tt
  end.

(** The callback given to [setInterval]. *)
Definition timer_callback : M unit :=
  let* w := get_world in
  if (0 <? length (events w))%nat then flush FromTimer else ret tt.

Definition startTimer : M unit :=
  let* h := window_setInterval in
  modify (with_timer (Some h)).

(** The [beforeunload] listener. *)
Definition beforeunload_listener : M unit :=
  let* w := get_world in
  if (0 <? length (events w))%nat then
    let* blob := lift (JSON_stringify (JObj [("events", JArr (events w))])) in
    modify (fun w => with_beacons (beacons w ++ [blob]) w)
  else ret tt.

(** [window.addEventListener('beforeunload', ...)] *)
Definition setupBeforeUnload : M unit :=
  modify (with_unload_listener true).

(** Field initialisers over the host's storage, console and timers, then
    the constructor body. *)
Definition init (config : Config) (host : World) : World :=
  {| config := config; events := []; timer := None; isProcessing := false;
     localStorage := localStorage host; console := console host;
     intervals := intervals host; unload_listener := false;
     beacons := beacons host;
     onFlush_calls := []; awaiting := []; settled := [] |}.

Definition constructor : M unit :=
  loadPersistedEvents >>
  startTimer >>
  setupBeforeUnload.

Definition new (config : Config) (host : World) : World :=
  (constructor (init config host)).2.

End Methods.
End EventQueue.

(** ** The event loop *)

(** What the host can make happen next: a method call by the application,
    a tick of the interval timer, the sender's promise settling, or the
    page going away. *)
Inductive Label :=
| Add (event : Event)
| Flush
| Clear
| Destroy
| Tick
| Settle (i : nat) (outcome : Completion unit)
| BeforeUnload.

Section Loop.
Context `{JSON} `{Engine}.

Definition timer_armed (w : World) : bool :=
  match timer w with
  | Some h => bool_decide (h ∈ intervals w)
  | None => false
  end.

(** [None] when the step cannot happen: a tick of a cleared timer, the
    settling of a promise nobody awaits, or an unload nobody listens to. *)
Definition dispatch (l : Label) (w : World) : option (Completion unit * World) :=
  match l with
  | Add event => Some (EventQueue.add event w)
  | Flush => Some (EventQueue.flush Explicit w)
  | Clear => Some (EventQueue.clear w)
  | Destroy => Some (EventQueue.destroy w)
  | Tick =>
      if timer_armed w then Some (EventQueue.timer_callback w) else None
  | Settle i outcome =>
      match awaiting w !! i with
      | Some k =>
          Some (EventQueue.settle k outcome (with_awaiting (delete i (awaiting w)) w))
      | None => None
      end
  | BeforeUnload =>
      if unload_listener w then Some (EventQueue.beforeunload_listener w)
      else None
  end.

Definition step (l : Label) (w : World) : option World :=
  snd <$> dispatch l w.

Fixpoint run (ls : list Label) (w : World) : option World :=
  match ls with
  | [] => Some w
  | l :: ls' =>
      match step l w with
      | Some w' => run ls' w'
      | None => None
      end
  end.

(** The states a queue can be in: those some trace leads to from a
    freshly constructed queue. *)
Definition reachable (w : World) : Prop :=
  ∃ cfg host ls, run ls (EventQueue.new cfg host) = Some w.

End Loop.

(** ** Observations *)

(** The caller's in-memory queue state. *)
Definition memory (w : World) : Config * list Event * option Z * bool :=
  (config w, events w, timer w, isProcessing w).

(** The item the queue keeps in localStorage. *)
Definition persisted (w : World) : option string :=
  items (localStorage w) !! (EventQueue.storage +:+ "events").

(** A computation that returns normally and changes nothing but the stored
    items and the console. *)
Definition slot_only {A} (m : M A) : Prop :=
  ∀ w, ∃ a its c, m w = (Normal a, with_console c (with_items its w)).

(** The steps that can happen while one delivery is in flight without
    discarding pending events or ending the attempt. *)
Definition is_quiet (l : Label) : bool :=
  match l with
  | Clear | Settle _ _ => false
  | _ => true
  end.

Definition is_settle (l : Label) : bool :=
  match l with
  | Settle _ _ => true
  | _ => false
  end.

(** The events handed to [add] along a trace. *)
Fixpoint added (ls : list Label) : list Event :=
  match ls with
  | [] => []
  | Add event :: ls' => event :: added ls'
  | _ :: ls' => added ls'
  end.

(** The guard of [flush]. *)
Definition busy_or_empty (w : World) : bool :=
  (length (events w) =? 0)%nat || isProcessing w.

(** The flag is set exactly while one activation of [flush] is suspended,
    and a suspended activation holds a non-empty batch. *)
Definition consistent (w : World) : Prop :=
  if isProcessing w
  then ∃ k, awaiting w = [k] ∧ eventsToSend k ≠ []
  else awaiting w = [].

(** What does not change while the processing flag is set. *)
Definition same_flight (w w' : World) : Prop :=
  isProcessing w' = isProcessing w ∧ awaiting w' = awaiting w ∧
  onFlush_calls w' = onFlush_calls w ∧ config w' = config w.

(** Events still pending after a trace taken in flight: [clear] drops
    what was added before it. *)
Fixpoint pending_after (ls : list Label) (es : list Event) : list Event :=
  match ls with
  | [] => es
  | Add event :: ls' => pending_after ls' (es ++ [event])
  | Clear :: ls' => pending_after ls' []
  | _ :: ls' => pending_after ls' es
  end.

(** Every call of [flush] hands one promise to its caller; it is either
    still pending or already settled. *)
Definition flush_promises (w : World) : nat :=
  (length (awaiting w) + length (settled w))%nat.

(** The underlying storage lets keys be listed and removed. *)
Definition erasable (ls : LocalStorage) : Prop :=
  ∀ m, faults ls m Keys = None ∧ ∀ k, faults ls m (RemoveItem k) = None.

(** What the loop of [Storage.clear] leaves when nothing throws. *)
Definition erase (prefix : string) (keys : list string)
    (m : gmap string string) : gmap string string :=
  foldl (fun m key => if String.prefix prefix key then delete key m else m) m keys.

(** A toy host for closed examples: arrays print as a bracketed list of
    names, and only the empty array and null parse back. *)
Definition demo_name (v : JsValue) : string :=
  match v with
  | JObj (("name", JStr s) :: _) => s
  | _ => "?"
  end.

Definition demo_stringify (v : JsValue) : Completion string :=
  match v with
  | JArr xs => Normal ("[" +:+ String.concat "," (map demo_name xs) +:+ "]")
  | JNull => Normal "null"
  | JUndefined => Throw "TypeError"
  | _ => Normal "{}"
  end.

Definition demo_parse (s : string) : Completion JsValue :=
  if String.eqb s "[]" then Normal (JArr [])
  else if String.eqb s "null" then Normal JNull
  else Throw "SyntaxError".

Definition demo_json : JSON :=
  {| JSON_stringify := demo_stringify; JSON_parse := demo_parse |}.

(** An engine that takes up to 65536 arguments per call, as
    JavaScriptCore does; the limits of V8 and SpiderMonkey are a few
    hundred thousand. *)
Definition demo_engine : Engine :=
  {| max_arguments := 65536;
     too_many_arguments := "RangeError: Maximum call stack size exceeded" |}.

Definition no_faults : gmap string string → LSCall → option Error :=
  fun _ _ => None.

(** A browser whose storage is full: every [setItem] throws. *)
Definition quota_exceeded : gmap string string → LSCall → option Error :=
  fun _ c => match c with SetItem _ _ => Some "QuotaExceededError" | _ => None end.

Definition demo_host (data : gmap string string)
    (f : gmap string string → LSCall → option Error) : World :=
  {| config := {| batchSize := 0; flushInterval := 0 |};
     events := []; timer := None; isProcessing := false;
     localStorage := {| items := data; faults := f |};
     console := []; intervals := []; unload_listener := false; beacons := [];
     onFlush_calls := []; awaiting := []; settled := [] |}.

Definition e1 : Event := mkEvent "e1" 1.
Definition e2 : Event := mkEvent "e2" 2.
Definition e3 : Event := mkEvent "e3" 3.

Definition demo_cfg (batch : Z) : Config :=
  {| batchSize := batch; flushInterval := 10000 |}.

Definition demo_queue (batch : Z) : World :=
  @EventQueue.new demo_json (demo_cfg batch) (demo_host ∅ no_faults).

(** One event added with [batchSize = 1]: a delivery is in flight. *)
Definition demo_in_flight : World :=
  (@EventQueue.add demo_json e1 (demo_queue 1)).2.

(** One event pending with [batchSize = 10]. *)
Definition demo_pending : World :=
  (@EventQueue.add demo_json e1 (demo_queue 10)).2.

(** ** Further observations *)

(** The events held by the suspended activations of [flush]. *)
Definition in_flight (w : World) : list Event :=
  concat (eventsToSend <$> awaiting w).

Definition is_clear (l : Label) : bool :=
  match l with
  | Clear => true
  | _ => false
  end.

(** An underlying storage that never throws. *)
Definition healthy (ls : LocalStorage) : Prop :=
  ∀ m c, faults ls m c = None.

Section Ghost.
Context `{JSON} `{Engine}.

(** The events of the batches whose sender resolved along a trace, in the
    order in which the batches settled. *)
Fixpoint delivered (ls : list Label) (w : World) : list Event :=
  match ls with
  | [] => []
  | l :: ls' =>
      match step l w with
      | Some w' =>
          match l with
          | Settle i (Normal _) =>
              match awaiting w !! i with
              | Some k => eventsToSend k
              | None => []
              end
          | _ => []
          end ++ delivered ls' w'
      | None => []
      end
  end.

(** The slot mirrors the pending sequence: nothing is stored and nothing
    is pending, or the stored item is the serialised pending sequence. *)
Definition synced (w : World) : Prop :=
  (events w = [] ∧ persisted w = None) ∨
  (∃ s, JSON_stringify (JArr (events w)) = Normal s ∧ persisted w = Some s).

(** [JSON.stringify] does not throw on arrays of events. *)
Definition arrays_serialise : Prop :=
  ∀ es, ∃ s, JSON_stringify (JArr es) = Normal s.

End Ghost.

(** A second toy host whose printer can be read back: an array prints as
    an opening bracket and its names, each closed by a semicolon. *)
Definition named (name : string) : Event := JObj [("name", JStr name)].

Fixpoint names_of (s : string) (cur : string) : list string :=
  match s with
  | EmptyString => []
  | String c s' =>
      if String.eqb (String c EmptyString) ";" then cur :: names_of s' EmptyString
      else names_of s' (cur +:+ String c EmptyString)
  end.

Definition name_stringify (v : JsValue) : Completion string :=
  match v with
  | JArr xs =>
      Normal ("[" +:+ String.concat "" (map (fun x => demo_name x +:+ ";") xs))
  | JUndefined => Throw "TypeError"
  | _ => Normal "{}"
  end.

Definition name_parse (s : string) : Completion JsValue :=
  match s with
  | String c rest =>
      if String.eqb (String c EmptyString) "[" then Normal (JArr (named <$> names_of rest EmptyString))
      else Throw "SyntaxError"
  | EmptyString => Throw "SyntaxError"
  end.

Definition name_json : JSON :=
  {| JSON_stringify := name_stringify; JSON_parse := name_parse |}.

Definition n1 : Event := named "n1".
Definition n2 : Event := named "n2".
Definition n3 : Event := named "n3".

Definition name_queue (batch : Z) : World :=
  @EventQueue.new name_json (demo_cfg batch) (demo_host ∅ no_faults).

(** ** utils/validator.ts *)

(** [typeof v] *)
Definition typeof (v : JsValue) : string :=
  match v with
  | JUndefined => "undefined"
  | JNull | JArr _ | JObj _ => "object"
  | JBool _ => "boolean"
  | JNum _ => "number"
  | JStr _ => "string"
  end.

(** [!!v] *)
Definition truthy (v : JsValue) : bool :=
  match v with
  | JUndefined | JNull => false
  | JBool b => b
  | JNum n => negb (n =? 0)
  | JStr s => negb (String.eqb s EmptyString)
  | JArr _ | JObj _ => true
  end.

Definition nullish (v : JsValue) : bool :=
  match v with
  | JUndefined | JNull => true
  | _ => false
  end.

(** The fields of an object are its own enumerable properties in
    enumeration order; reading a property that is not there gives
    undefined.  What an object inherits (the members of [Object.prototype],
    or of a prototype set through [__proto__]) is not represented. *)
Fixpoint get_field (name : string) (fields : list (string * JsValue)) : JsValue :=
  match fields with
  | [] => JUndefined
  | (k, v) :: fields' => if String.eqb k name then v else get_field name fields'
  end.

(** [v.name], for a [v] that passed the [typeof v === 'object'] test and a
    name that no array has ([name], [properties], [id], [email]). *)
Definition prop (v : JsValue) (name : string) : JsValue :=
  match v with
  | JObj fields => get_field name fields
  | _ => JUndefined
  end.

(** An array index: the canonical decimal numeral of an integer from 0 to
    2^32 - 2.  [decimal] reads digits; the numeral is canonical when
    printing the number gives the key back. *)
Fixpoint decimal (s : string) (acc : N) : N :=
  match s with
  | EmptyString => acc
  | String c s' => decimal s' (10 * acc + (Ascii.N_of_ascii c - 48))%N
  end.

Definition array_index (key : string) : option N :=
  let n := decimal key 0 in
  if String.eqb (pretty n) key && (n <? 4294967295)%N then Some n else None.

(** The enumeration order of own properties: array indices in ascending
    order, then the other names in the order of their creation. *)
Definition enumerates_before (k1 k2 : string) : Prop :=
  match array_index k1, array_index k2 with
  | Some a, Some b => (a < b)%N
  | None, Some _ => False
  | _, _ => True
  end.

Fixpoint enumerated (keys : list string) : Prop :=
  match keys with
  | [] => True
  | k :: keys' => Forall (enumerates_before k) keys' ∧ enumerated keys'
  end.

Fixpoint replace_field (key : string) (value : JsValue)
    (fields : list (string * JsValue)) : list (string * JsValue) :=
  match fields with
  | [] => []
  | (k, v) :: fields' =>
      if String.eqb k key then (k, value) :: fields'
      else (k, v) :: replace_field key value fields'
  end.

Fixpoint insert_index (n : N) (key : string) (value : JsValue)
    (fields : list (string * JsValue)) : list (string * JsValue) :=
  match fields with
  | [] => [(key, value)]
  | (k, v) :: fields' =>
      match array_index k with
      | Some m =>
          if (m <? n)%N then (k, v) :: insert_index n key value fields'
          else (key, value) :: fields
      | None => (key, value) :: fields
      end
  end.

(** Creating or updating the own data property [key] of an ordinary
    object: an existing property keeps its place; a new array index goes
    among the indices, a new name to the end. *)
Definition set_field (key : string) (value : JsValue)
    (fields : list (string * JsValue)) : list (string * JsValue) :=
  if bool_decide (key ∈ fields.*1) then replace_field key value fields
  else
    match array_index key with
    | Some n => insert_index n key value fields
    | None => fields ++ [(key, value)]
    end.

(** The assignment [obj[key] = value] on an object created by [{}].  For
    the key [__proto__] it runs the setter inherited from
    [Object.prototype], which creates no own property (it replaces the
    prototype when the value is an object and does nothing otherwise). *)
Definition assign_field (key : string) (value : JsValue)
    (fields : list (string * JsValue)) : list (string * JsValue) :=
  if String.eqb key "__proto__" then fields else set_field key value fields.

(** A string is a sequence of code units below 256; among these the white
    space that [trim] strips is TAB, LF, VT, FF, CR, space and NBSP. *)
Definition is_white_space (c : Ascii.ascii) : bool :=
  bool_decide (Ascii.nat_of_ascii c ∈ [9; 10; 11; 12; 13; 32; 160]%nat).

Fixpoint trimStart (s : string) : string :=
  match s with
  | EmptyString => EmptyString
  | String c s' => if is_white_space c then trimStart s' else s
  end.

Fixpoint trimEnd (s : string) : string :=
  match s with
  | EmptyString => EmptyString
  | String c s' =>
      match trimEnd s' with
      | EmptyString => if is_white_space c then EmptyString else String c EmptyString
      | t => String c t
      end
  end.

(** [s.trim()] *)
Definition trim (s : string) : string := trimEnd (trimStart s).

(** [!v || typeof v !== 'string' || v.trim() === ''] *)
Definition blank (v : JsValue) : bool :=
  negb (truthy v) || negb (String.eqb (typeof v) "string") ||
  match v with
  | JStr s => String.eqb (trim s) EmptyString
  | _ => false
  end.

(** [v && typeof v !== t] *)
Definition present_but_not (t : string) (v : JsValue) : bool :=
  truthy v && negb (String.eqb (typeof v) t).

(** [console.error(msg)] with a single argument: the second component of
    the console entry is empty. *)
Definition console_error1 (msg : string) : M unit :=
  console_error msg EmptyString.

Definition validateEvent (event : JsValue) : M bool :=
  if negb (truthy event) || negb (String.eqb (typeof event) "object") then
    ret false
  else if blank (prop event "name") then
    console_error1 "Event name is required and must be a non-empty string" >>
    ret false
  else if present_but_not "object" (prop event "properties") then
    console_error1 "Event properties must be an object" >>
    ret false
  else ret true.

Definition validateUser (user : JsValue) : M bool :=
  if negb (truthy user) || negb (String.eqb (typeof user) "object") then
    ret false
  else if blank (prop user "id") then
    console_error1 "User ID is required and must be a non-empty string" >>
    ret false
  else if present_but_not "string" (prop user "email") then
    console_error1 "User email must be a string" >>
    ret false
  else if present_but_not "object" (prop user "properties") then
    console_error1 "User properties must be an object" >>
    ret false
  else ret true.

(** [Object.entries(v)] for a truthy [v]: the fields of an object, the
    indexed elements of an array, the indexed characters of a string,
    nothing for a number or a boolean. *)
Definition Object_entries (v : JsValue) : list (string * JsValue) :=
  match v with
  | JObj fields => fields
  | JArr xs => imap (fun i x => (pretty i, x)) xs
  | JStr s =>
      imap (fun i c => (pretty i, JStr (String c EmptyString)))
        (String.list_ascii_of_string s)
  | _ => []
  end.

Definition sanitizeProperties (properties : JsValue) : JsValue :=
  if negb (truthy properties) then JObj []
  else
    JObj (foldl (fun sanitized '(key, value) =>
                   if nullish value then sanitized
                   else assign_field key value sanitized)
            [] (Object_entries properties)).

(** Some character of the string is not white space. *)
Definition visible (s : string) : Prop :=
  ∃ c, c ∈ String.list_ascii_of_string s ∧ is_white_space c = false.

(** ** client.ts: [class AnalyticsClient] *)

(** [interface SDKConfig]: every field but the key is optional. *)
Record SDKConfig := {
  cfg_apiKey : option string;
  cfg_endpoint : option string;
  cfg_debug : option bool;
  cfg_batchSize : option Z;
  cfg_flushInterval : option Z;
  cfg_autoTrack : option bool
}.

(** [Required<SDKConfig>] *)
Record RequiredConfig := {
  apiKey : string;
  endpoint : string;
  debug : bool;
  requiredBatchSize : Z;
  requiredFlushInterval : Z;
  autoTrack : bool
}.

(** [interface APIResponse] *)
Record APIResponse := {
  success : bool;
  message : option string;
  errors : option (list string)
}.

(** What [fetch] resolves with, as far as [sendBatch] looks at it. *)
Record Response := {
  ok : bool;
  status : Z;
  text : Completion string;
  json : Completion APIResponse
}.

Inductive FetchOutcome :=
| NetworkError (e : Error)
| Responded (response : Response).

Record Request := {
  url : string;
  method : string;
  headers : list (string * string);
  body : string
}.

(** What the page and the clock say when a method runs. *)
Record Env := {
  href : string;
  referrer : string;
  userAgent : string;
  title : string;
  readyState_complete : bool;
  now : Z;
  random36 : string
}.

(** The client: its own fields, the queue it owns together with the host
    ([queue]), what [log] printed and what was handed to [fetch]. *)
Record Sdk := {
  sdk_config : RequiredConfig;
  user : JsValue;
  sessionId : string;
  queue : World;
  console_log : list (list JsValue);
  requests : list Request
}.

Definition with_user (u : JsValue) (s : Sdk) : Sdk :=
  {| sdk_config := sdk_config s; user := u; sessionId := sessionId s;
     queue := queue s; console_log := console_log s; requests := requests s |}.

Definition with_sessionId (i : string) (s : Sdk) : Sdk :=
  {| sdk_config := sdk_config s; user := user s; sessionId := i;
     queue := queue s; console_log := console_log s; requests := requests s |}.

Definition with_queue (w : World) (s : Sdk) : Sdk :=
  {| sdk_config := sdk_config s; user := user s; sessionId := sessionId s;
     queue := w; console_log := console_log s; requests := requests s |}.

Definition with_console_log (l : list (list JsValue)) (s : Sdk) : Sdk :=
  {| sdk_config := sdk_config s; user := user s; sessionId := sessionId s;
     queue := queue s; console_log := l; requests := requests s |}.

Definition with_requests (l : list Request) (s : Sdk) : Sdk :=
  {| sdk_config := sdk_config s; user := user s; sessionId := sessionId s;
     queue := queue s; console_log := console_log s; requests := l |}.

(** State and exceptions over the client. *)
Definition SM (A : Type) : Type := Sdk → Completion A * Sdk.

Definition sret {A} (a : A) : SM A := fun s => (Normal a, s).

Definition sbind {A B} (m : SM A) (k : A → SM B) : SM B := fun s =>
  match m s with
  | (Normal a, s') => k a s'
  | (Throw e, s') => (Throw e, s')
  end.

Definition sthrow {A} (e : Error) : SM A := fun s => (Throw e, s).

Definition sget : SM Sdk := fun s => (Normal s, s).

Definition smodify (f : Sdk → Sdk) : SM unit := fun s => (Normal tt, f s).

(** A method of the queue, of the storage or of the validator, run on the
    client's world. *)
Definition on_queue {A} (m : M A) : SM A := fun s =>
  match m (queue s) with
  | (c, w') => (c, with_queue w' s)
  end.

Definition stry_catch {A} (m : SM A) (h : Error → SM A) : SM A := fun s =>
  match m s with
  | (Normal a, s') => (Normal a, s')
  | (Throw e, s') => h e s'
  end.

Notation "'let+' x ':=' m 'in' k" := (sbind m (fun x => k))
  (at level 10, x name, m at level 100, k at level 200, only parsing).
Notation "m >>> k" := (sbind m (fun _ => k))
  (at level 95, right associativity, only parsing).

(** [{ ...v }] into an object under construction: the own enumerable
    properties of [v], none for null, undefined, numbers and booleans. *)
Definition spread (v : JsValue) (target : list (string * JsValue))
    : list (string * JsValue) :=
  foldl (fun acc '(key, value) => set_field key value acc) target
    (Object_entries v).

Module AnalyticsClient.
Section Methods.
Context `{JSON} `{Engine}.

(** [this.storage = new Storage('analytics_')] *)
Definition storage : string := "analytics_".

(** [config.x || d] and [config.autoTrack !== false] on optional fields. *)
Definition or_string (o : option string) (d : string) : string :=
  match o with
  | Some (String c s) => String c s
  | _ => d
  end.

Definition or_number (o : option Z) (d : Z) : Z :=
  match o with
  | Some n => if n =? 0 then d else n
  | None => d
  end.

Definition required (config : SDKConfig) : RequiredConfig :=
  {| apiKey := or_string (cfg_apiKey config) EmptyString;
     endpoint := or_string (cfg_endpoint config)
                   "https://api.analytics.example.com/events";
     debug := default false (cfg_debug config);
     requiredBatchSize := or_number (cfg_batchSize config) 10;
     requiredFlushInterval := or_number (cfg_flushInterval config) 5000;
     autoTrack := default true (cfg_autoTrack config) |}.

(** [RequiredConfig] as the object that [log] prints. *)
Definition config_object (c : RequiredConfig) : JsValue :=
  JObj [("apiKey", JStr (apiKey c)); ("endpoint", JStr (endpoint c));
        ("debug", JBool (debug c)); ("batchSize", JNum (requiredBatchSize c));
        ("flushInterval", JNum (requiredFlushInterval c));
        ("autoTrack", JBool (autoTrack c))].

Definition log (args : list JsValue) : SM unit := fun s =>
  if debug (sdk_config s)
  then (Normal tt,
        with_console_log (console_log s ++ [JStr "[Analytics SDK]" :: args]) s)
  else (Normal tt, s).

(** [`${Date.now()}_${Math.random().toString(36).substring(2, 9)}`] *)
Definition generateSessionId (env : Env) : string :=
  pretty (now env) +:+ "_" +:+ String.substring 2 7 (random36 env).

(** [this.user?.id] *)
Definition user_id (s : Sdk) : JsValue :=
  match user s with
  | JUndefined | JNull => JUndefined
  | u => prop u "id"
  end.

Definition track (env : Env) (eventName : string) (properties : JsValue)
    : SM unit :=
  let+ s := sget in
  let event :=
    JObj [("name", JStr eventName);
          ("properties",
           JObj (set_field "userAgent" (JStr (userAgent env))
                  (set_field "referrer" (JStr (referrer env))
                    (set_field "url" (JStr (href env))
                      (set_field "sessionId" (JStr (sessionId s))
                        (set_field "userId" (user_id s)
                          (spread (sanitizeProperties properties) [])))))));
          ("timestamp", JNum (now env))] in
  let+ valid := on_queue (validateEvent event) in
  if negb valid then sthrow "Invalid event data"
  else
    on_queue (EventQueue.add event) >>>
    log [JStr "Event tracked:"; event].

Definition identify (env : Env) (u : JsValue) : SM unit :=
  let+ valid := on_queue (validateUser u) in
  if negb valid then sthrow "Invalid user data"
  else
    smodify (with_user u) >>>
    on_queue (Storage.set storage "user" u) >>>
    log [JStr "User identified:"; u] >>>
    track env "user_identified"
      (JObj [("userId", prop u "id"); ("email", prop u "email");
             ("name", prop u "name")]).

(** [name || document.title], then the caller's properties on top. *)
Definition page (env : Env) (name : option string) (properties : JsValue)
    : SM unit :=
  track env "page_view"
    (JObj (spread properties [("pageName", JStr (or_string name (title env)))])).

Definition getUser (s : Sdk) : JsValue := user s.


(** [await this.queue.flush()] *)
Definition flush : SM unit := on_queue (EventQueue.flush Explicit).

Definition reset (env : Env) : SM unit :=
  smodify (with_user JUndefined) >>>
  smodify (with_sessionId (generateSessionId env)) >>>
  on_queue (Storage.clear storage) >>>
  on_queue EventQueue.clear >>>
  log [JStr "SDK reset"].

Definition destroy : SM unit :=
  on_queue EventQueue.destroy >>>
  log [JStr "SDK destroyed"].

Definition lift_completion {A} (c : Completion A) : SM A := fun s => (c, s).

(** The body of [sendBatch], from the call of [fetch] to the end, given
    what [fetch] settles with; a normal completion is the promise
    resolving, a throw is it rejecting. *)
Definition sendBatch (env : Env) (events : list Event) (outcome : FetchOutcome)
    : SM unit :=
  stry_catch
    (let+ s := sget in
     let+ payload :=
       lift_completion
         (JSON_stringify (JObj [("events", JArr events);
                                ("timestamp", JNum (now env))])) in
     smodify (with_requests
                (requests s ++
                 [{| url := endpoint (sdk_config s); method := "POST";
                     headers := [("Content-Type", "application/json");
                                 ("X-API-Key", apiKey (sdk_config s))];
                     body := payload |}])) >>>
     match outcome with
     | NetworkError e => sthrow e
     | Responded response =>
         if negb (ok response) then
           let+ errorText := lift_completion (text response) in
           sthrow ("HTTP " +:+ pretty (status response) +:+ ": " +:+ errorText)
         else
           let+ result := lift_completion (json response) in
           if negb (success result) then
             sthrow (or_string (message result) "Failed to send events")
           else
             log [JStr "Batch sent successfully:";
                  JNum (Z.of_nat (length events)); JStr "events"]
     end)
    (fun error =>
       on_queue (console_error "Failed to send events:" error) >>>
       sthrow error).

Definition loadUser : SM unit :=
  let+ storedUser := on_queue (Storage.get storage "user") in
  if truthy storedUser then
    smodify (with_user storedUser) >>>
    log [JStr "User loaded from storage:"; storedUser]
  else sret tt.

(** The part of [setupAutoTracking] that runs in the constructor: the
    first page view when the document is already loaded.  The [load] and
    [click] listeners it registers are [on_load] and [on_click]. *)
Definition setupAutoTracking (env : Env) : SM unit :=
  if readyState_complete env then page env None JUndefined else sret tt.

Definition on_load (env : Env) : SM unit := page env None JUndefined.

(** [target.innerText?.substring(0, 100)] and [target.href] of the element
    clicked. *)
Definition on_click (env : Env) (tagName : string) (innerText : option string)
    (target_href : JsValue) : SM unit :=
  if String.eqb tagName "A" || String.eqb tagName "BUTTON" then
    track env "click"
      (JObj [("elementType", JStr tagName);
             ("text", match innerText with
                      | Some t => JStr (String.substring 0 100 t)
                      | None => JUndefined
                      end);
             ("href", target_href)])
  else sret tt.

(** [new AnalyticsClient(config)] on a host. *)
Definition constructor (env : Env) (config : SDKConfig) (host : World)
    : Completion unit * option Sdk :=
  match cfg_apiKey config with
  | Some (String _ _) =>
      let c := required config in
      let s0 :=
        {| sdk_config := c; user := JUndefined;
           sessionId := generateSessionId env;
           queue := EventQueue.new
                      {| batchSize := requiredBatchSize c;
                         flushInterval := requiredFlushInterval c |} host;
           console_log := []; requests := [] |} in
      match (loadUser >>>
             log [JStr "SDK initialized with config:"; config_object c] >>>
             if autoTrack c then setupAutoTracking env else sret tt) s0 with
      | (r, s) => (r, Some s)
      end
  | _ => (Throw "API key is required", None)
  end.

(** The sender's promise awaited by the [i]-th suspended [flush] settles
    with what [sendBatch] makes of the outcome of [fetch].  The request is
    built when [sendBatch] is called: [env] is what the clock said then. *)
Definition deliver (env : Env) (i : nat) (outcome : FetchOutcome) (s : Sdk)
    : option Sdk :=
  match awaiting (queue s) !! i with
  | Some k =>
      match sendBatch env (eventsToSend k) outcome s with
      | (r, s1) =>
          Some (with_queue
                  (EventQueue.settle k r
                     (with_awaiting (delete i (awaiting (queue s1))) (queue s1))).2
                  s1)
      end
  | None => None
  end.

End Methods.
End AnalyticsClient.

(** The response is an acknowledgement: status ok and a body that parses
    to [success: true]. *)
Definition acknowledged (outcome : FetchOutcome) : bool :=
  match outcome with
  | Responded response =>
      ok response &&
      match json response with
      | Normal result => success result
      | Throw _ => false
      end
  | NetworkError _ => false
  end.

(** A third toy host: arrays as in the second one, an object as an opening
    brace followed by its [id]. *)
Definition id_stringify (v : JsValue) : Completion string :=
  match v with
  | JObj fields =>
      match get_field "id" fields with
      | JStr i => Normal ("{" +:+ i)
      | _ => Normal "{"
      end
  | _ => name_stringify v
  end.

Definition id_parse (s : string) : Completion JsValue :=
  match s with
  | String c rest =>
      if String.eqb (String c EmptyString) "{"
      then Normal (JObj [("id", JStr rest)])
      else name_parse s
  | EmptyString => Throw "SyntaxError"
  end.

Definition id_json : JSON :=
  {| JSON_stringify := id_stringify; JSON_parse := id_parse |}.

Definition demo_env : Env :=
  {| href := "https://shop.example/cart"; referrer := "https://shop.example/";
     userAgent := "Mozilla/5.0"; title := "Cart"; readyState_complete := false;
     now := 1700000000000; random36 := "0.4fzyo82mvyr" |}.

Definition demo_sdk_config (batch : Z) : SDKConfig :=
  {| cfg_apiKey := Some "test-key"; cfg_endpoint := None; cfg_debug := None;
     cfg_batchSize := Some batch; cfg_flushInterval := None;
     cfg_autoTrack := Some false |}.

Definition empty_sdk : Sdk :=
  {| sdk_config := AnalyticsClient.required (demo_sdk_config 1);
     user := JUndefined; sessionId := EmptyString;
     queue := demo_host ∅ no_faults; console_log := []; requests := [] |}.

(** A client on the third toy host, freshly constructed. *)
Definition demo_sdk (batch : Z) : Sdk :=
  default empty_sdk
    (@AnalyticsClient.constructor id_json demo_env (demo_sdk_config batch)
       (demo_host ∅ no_faults)).2.

(** The same client after [track('signup')] with batch size 1: the event
    is in flight. *)
Definition demo_sdk_in_flight : Sdk :=
  (@AnalyticsClient.track id_json demo_env "signup" JUndefined (demo_sdk 1)).2.

Definition demo_user : JsValue := JObj [("id", JStr "user-123")].

Definition bad_request : FetchOutcome :=
  Responded {| ok := false; status := 400; text := Normal "Bad Request";
               json := Throw "SyntaxError" |}.

(** A method that prints nothing through [log] and leaves the
    configuration alone when [debug] is off. *)
Definition silent {A} (m : SM A) : Prop :=
  ∀ s, debug (sdk_config s) = false →
       console_log (m s).2 = console_log s ∧ sdk_config (m s).2 = sdk_config s.

(** A host whose storage holds a long queue: whatever is stored parses to
    an array of 200000 events. *)
Definition bulk_json : JSON :=
  {| JSON_stringify := fun _ => Normal "[...]";
     JSON_parse := fun _ => Normal (JArr (replicate (Z.to_nat 200000) n1)) |}.

Definition bulk_queue : World :=
  @EventQueue.new bulk_json (demo_cfg 10)
    (demo_host {["analytics_queue_events" := "[...]"]} no_faults).

(** * Properties *)

(** ** The durable slot *)

Section StorageFacts.
Context `{JSON}.

(** [get], [set] and [remove] with the monad unfolded. *)
Lemma get_eq prefix key w :
  Storage.get prefix key w =
  match faults (localStorage w) (items (localStorage w)) (GetItem (prefix +:+ key)) with
  | Some e => (Normal JNull, with_console (console w ++ [("Storage get error:", e)]) w)
  | None =>
      match items (localStorage w) !! (prefix +:+ key) with
      | Some (String c s) =>
          match JSON_parse (String c s) with
          | Normal v => (Normal v, with_items (items (localStorage w)) w)
          | Throw e =>
              (Normal JNull,
               with_console (console w ++ [("Storage get error:", e)])
                 (with_items (items (localStorage w)) w))
          end
      | _ => (Normal JNull, with_items (items (localStorage w)) w)
      end
  end.
Proof.
  cbv [Storage.get Storage.get_try try_catch bind localStorage_getItem
       localStorage_call lift ret console_error modify].
  destruct (faults _ _ _); [done|].
  by destruct (_ !! _) as [[|c s]|].
Qed.

Lemma set_eq prefix key value w :
  Storage.set prefix key value w =
  match JSON_stringify value with
  | Throw e => (Normal false, with_console (console w ++ [("Storage set error:", e)]) w)
  | Normal s =>
      match faults (localStorage w) (items (localStorage w)) (SetItem (prefix +:+ key) s) with
      | Some e =>
          (Normal false, with_console (console w ++ [("Storage set error:", e)]) w)
      | None =>
          (Normal true, with_items (<[prefix +:+ key := s]> (items (localStorage w))) w)
      end
  end.
Proof.
  cbv [Storage.set Storage.set_try try_catch bind localStorage_setItem
       localStorage_call lift ret console_error modify].
  destruct (JSON_stringify _); [|done].
  by destruct (faults _ _ _).
Qed.

Lemma remove_eq prefix key w :
  Storage.remove prefix key w =
  match faults (localStorage w) (items (localStorage w)) (RemoveItem (prefix +:+ key)) with
  | Some e =>
      (Normal false, with_console (console w ++ [("Storage remove error:", e)]) w)
  | None =>
      (Normal true, with_items (delete (prefix +:+ key) (items (localStorage w))) w)
  end.
Proof.
  cbv [Storage.remove Storage.remove_try try_catch bind localStorage_removeItem
       localStorage_call lift ret console_error modify].
  by destruct (faults _ _ _).
Qed.

(** The loop of [clear] only ever changes the stored items. *)
Lemma forEach_clear_each prefix keys w its0 :
  ∃ r its, forEach (Storage.clear_each prefix) keys (with_items its0 w)
           = (r, with_items its w).
Proof.
  revert its0. induction keys as [|key keys IH]; intros its0; simpl.
  - by eauto.
  - unfold bind at 1. unfold Storage.clear_each at 1.
    destruct (String.prefix prefix key).
    + cbv [localStorage_removeItem localStorage_call]. simpl.
      destruct (faults _ _ _); [by eauto|]. simpl. apply IH.
    + simpl. apply IH.
Qed.

Lemma clear_try_shape prefix w :
  ∃ r its, Storage.clear_try prefix w = (r, with_items its w).
Proof.
  unfold Storage.clear_try, bind at 1.
  cbv [Object_keys_localStorage localStorage_call].
  destruct (faults _ _ _); [|simpl].
  - exists (Throw e), (items (localStorage w)). by destruct w as [? ? ? ? []].
  - unfold bind.
    destruct (forEach_clear_each prefix
                (own_keys (items (localStorage w))) w
                (items (localStorage w))) as (r & its & ->).
    destruct r; eauto.
Qed.

Lemma get_slot_only prefix key : slot_only (Storage.get prefix key).
Proof.
  intros w. rewrite get_eq.
  destruct (faults _ _ _).
  - eexists _, (items (localStorage w)), _. by destruct w as [? ? ? ? []].
  - destruct (_ !! _) as [[|c s]|]; [by eauto| |by eauto].
    destruct (JSON_parse _); by eauto.
Qed.

Lemma set_slot_only prefix key value : slot_only (Storage.set prefix key value).
Proof.
  intros w. rewrite set_eq.
  destruct (JSON_stringify _).
  - destruct (faults _ _ _).
    + eexists _, (items (localStorage w)), _. by destruct w as [? ? ? ? []].
    + exists true, (<[prefix +:+ key:=a]> (items (localStorage w))), (console w).
      by destruct w.
  - eexists _, (items (localStorage w)), _. by destruct w as [? ? ? ? []].
Qed.

Lemma remove_slot_only prefix key : slot_only (Storage.remove prefix key).
Proof.
  intros w. rewrite remove_eq.
  destruct (faults _ _ _).
  - eexists _, (items (localStorage w)), _. by destruct w as [? ? ? ? []].
  - exists true, (delete (prefix +:+ key) (items (localStorage w))), (console w).
    by destruct w.
Qed.

Lemma clear_slot_only prefix : slot_only (Storage.clear prefix).
Proof.
  intros w. unfold Storage.clear, try_catch.
  destruct (clear_try_shape prefix w) as (r & its & ->).
  destruct r as [b|e].
  - exists b, its, (console w). by destruct w.
  - cbv [bind console_error modify ret]. by eauto.
Qed.

End StorageFacts.

Section StorageClaims.
Context `{JSON}.

Lemma clear_try_true prefix w b w' :
  Storage.clear_try prefix w = (Normal b, w') → b = true.
Proof.
  unfold Storage.clear_try, bind.
  destruct (Object_keys_localStorage w) as [[keys|?] w1]; [|done].
  destruct (forEach _ _ _) as [[[]|?] w2]; [|done].
  unfold ret. congruence.
Qed.

(** C8. Whatever the underlying storage does, [get], [set], [remove] and
    [clear] complete normally; when the guarded block throws, [get] returns
    null and the others return false (and otherwise they return the parsed
    value, respectively true); the queue's in-memory state is untouched. *)
Theorem storage_never_throws (prefix key : string) (value : JsValue) (w : World) :
  (∃ v w', Storage.get prefix key w = (Normal v, w') ∧ memory w' = memory w ∧
     match (Storage.get_try prefix key w).1 with
     | Throw _ => v = JNull
     | Normal x => v = x
     end) ∧
  (∃ ok w', Storage.set prefix key value w = (Normal ok, w') ∧
     memory w' = memory w ∧
     match (Storage.set_try prefix key value w).1 with
     | Throw _ => ok = false
     | Normal _ => ok = true
     end) ∧
  (∃ ok w', Storage.remove prefix key w = (Normal ok, w') ∧
     memory w' = memory w ∧
     match (Storage.remove_try prefix key w).1 with
     | Throw _ => ok = false
     | Normal _ => ok = true
     end) ∧
  (∃ ok w', Storage.clear prefix w = (Normal ok, w') ∧
     memory w' = memory w ∧
     match (Storage.clear_try prefix w).1 with
     | Throw _ => ok = false
     | Normal _ => ok = true
     end).
Proof.
  split; [|split; [|split]].
  - destruct (get_slot_only prefix key w) as (v & its & c & E).
    eexists v, _. split; [exact E|]. split; [reflexivity|].
    revert E. unfold Storage.get, try_catch.
    destruct (Storage.get_try prefix key w) as [[x|e] w1]; simpl.
    + congruence.
    + cbv [bind console_error modify ret]. congruence.
  - destruct (set_slot_only prefix key value w) as (ok & its & c & E).
    eexists ok, _. split; [exact E|]. split; [reflexivity|].
    revert E. rewrite set_eq.
    cbv [Storage.set_try bind lift localStorage_setItem localStorage_call ret].
    destruct (JSON_stringify value); simpl; [|congruence].
    destruct (faults _ _ _); simpl; congruence.
  - destruct (remove_slot_only prefix key w) as (ok & its & c & E).
    eexists ok, _. split; [exact E|]. split; [reflexivity|].
    revert E. rewrite remove_eq.
    cbv [Storage.remove_try bind localStorage_removeItem localStorage_call ret].
    destruct (faults _ _ _); simpl; congruence.
  - destruct (clear_slot_only prefix w) as (ok & its & c & E).
    eexists ok, _. split; [exact E|]. split; [reflexivity|].
    revert E. unfold Storage.clear, try_catch.
    destruct (Storage.clear_try prefix w) as [[b|e] w1] eqn:T; simpl.
    + apply clear_try_true in T. congruence.
    + cbv [bind console_error modify ret]. congruence.
Qed.

End StorageClaims.

(** ** The queue: what each method does to the world *)

Section QueueFacts.
Context `{JSON} `{Engine}.

Lemma persistEvents_eq w :
  EventQueue.persistEvents w =
  (Normal tt, (Storage.set EventQueue.storage "events" (JArr (events w)) w).2).
Proof.
  unfold EventQueue.persistEvents, bind, get_world.
  destruct (set_slot_only EventQueue.storage "events" (JArr (events w)) w)
    as (ok & its & c & ->).
  reflexivity.
Qed.

Lemma persistEvents_shape w :
  ∃ its c, EventQueue.persistEvents w
           = (Normal tt, with_console c (with_items its w)).
Proof.
  rewrite persistEvents_eq.
  destruct (set_slot_only EventQueue.storage "events" (JArr (events w)) w)
    as (ok & its & c & ->).
  by eauto.
Qed.

Lemma flush_noop c w :
  busy_or_empty w = true →
  EventQueue.flush c w
  = (Normal tt, with_settled (settled w ++ [(c, Fulfilled)]) w).
Proof.
  intros G. unfold EventQueue.flush, EventQueue.flush_enter, bind, get_world.
  unfold busy_or_empty in G. rewrite G. reflexivity.
Qed.

Lemma flush_starts c w :
  busy_or_empty w = false →
  ∃ its con,
    EventQueue.flush c w
    = (Normal tt,
       with_awaiting (awaiting w ++ [{| caller := c; eventsToSend := events w |}])
         (with_onFlush_calls (onFlush_calls w ++ [events w])
            (with_console con
               (with_items its (with_events [] (with_isProcessing true w)))))) ∧
    (EventQueue.persistEvents (with_events [] (with_isProcessing true w))).2
    = with_console con (with_items its (with_events [] (with_isProcessing true w))).
Proof.
  intros G. unfold EventQueue.flush, EventQueue.flush_enter, bind at 1, get_world.
  unfold busy_or_empty in G. rewrite G.
  cbv [bind modify].
  destruct (persistEvents_shape (with_events [] (with_isProcessing true w)))
    as (its & con & E).
  exists its, con. simpl in *. rewrite E. split; reflexivity.
Qed.

Lemma settle_ok k w :
  EventQueue.settle k (Normal tt) w
  = (Normal tt,
     with_settled (settled w ++ [(caller k, Fulfilled)])
       (with_isProcessing false w)).
Proof. reflexivity. Qed.

(** The sender failed and the batch fits in one call: it is put back. *)
Lemma settle_failed k err w :
  Z.of_nat (length (eventsToSend k)) ≤ max_arguments →
  ∃ its con,
    EventQueue.settle k (Throw err) w
    = (Normal tt,
       with_settled (settled w ++ [(caller k, Fulfilled)])
         (with_isProcessing false
            (with_console con
               (with_items its (with_events (eventsToSend k ++ events w) w))))) ∧
    (EventQueue.persistEvents
       (with_events (eventsToSend k ++ events w)
          (with_console (console w ++ [("Failed to flush events:", err)]) w))).2
    = with_console con
        (with_items its (with_events (eventsToSend k ++ events w) w)).
Proof.
  intros Fit.
  unfold EventQueue.settle, EventQueue.flush_resume, try_finally, try_catch, lift.
  unfold EventQueue.events_unshift.
  destruct (Z.ltb_spec max_arguments (Z.of_nat (length (eventsToSend k))));
    [lia|].
  cbv [bind console_error modify].
  destruct (persistEvents_shape
              (with_events (eventsToSend k ++ events w)
                 (with_console (console w ++ [("Failed to flush events:", err)]) w)))
    as (its & con & E).
  exists its, con. simpl in *. rewrite E. split; reflexivity.
Qed.

(** The sender failed and the batch does not fit in one call: the catch
    block throws, nothing is put back or stored, and the promise of
    [flush] is rejected. *)
Lemma settle_overflow k err w :
  max_arguments < Z.of_nat (length (eventsToSend k)) →
  EventQueue.settle k (Throw err) w
  = (Normal tt,
     with_settled (settled w ++ [(caller k, Rejected too_many_arguments)])
       (with_isProcessing false
          (with_console (console w ++ [("Failed to flush events:", err)]) w))).
Proof.
  intros Over.
  unfold EventQueue.settle, EventQueue.flush_resume, try_finally, try_catch, lift.
  unfold EventQueue.events_unshift.
  destruct (Z.ltb_spec max_arguments (Z.of_nat (length (eventsToSend k))));
    [|lia].
  reflexivity.
Qed.

(** Either way the flag is cleared and one promise is settled. *)
Lemma settle_failed_shape k err w :
  ∃ its con es st,
    EventQueue.settle k (Throw err) w
    = (Normal tt,
       with_settled (settled w ++ [(caller k, st)])
         (with_isProcessing false
            (with_console con (with_items its (with_events es w))))) ∧
    ((es = eventsToSend k ++ events w ∧ st = Fulfilled ∧
      Z.of_nat (length (eventsToSend k)) ≤ max_arguments) ∨
     (es = events w ∧ st = Rejected too_many_arguments ∧
      max_arguments < Z.of_nat (length (eventsToSend k)))) ∧
    ("Failed to flush events:", err) ∈ con.
Proof.
  destruct (Z.ltb_spec max_arguments (Z.of_nat (length (eventsToSend k))))
    as [Over|Fit].
  - rewrite settle_overflow by done.
    exists (items (localStorage w)),
      (console w ++ [("Failed to flush events:", err)]), (events w),
      (Rejected too_many_arguments).
    split; [by destruct w as [? ? ? ? []]|]. split; [by right|].
    apply elem_of_app. right. by apply list_elem_of_singleton.
  - destruct (settle_failed k err w Fit) as (its & con & -> & E).
    exists its, con, (eventsToSend k ++ events w), Fulfilled.
    split; [done|]. split; [by left|].
    rewrite persistEvents_eq in E. simpl in E.
    rewrite set_eq in E.
    destruct (JSON_stringify _); [destruct (faults _ _ _)|]; simpl in E;
      apply (f_equal console) in E; simpl in E; rewrite <- E;
      repeat (apply elem_of_app; try (right; by apply list_elem_of_singleton); left).
Qed.

Lemma add_eq event w :
  EventQueue.add event w =
  let w1 := (EventQueue.persistEvents (with_events (events w ++ [event]) w)).2 in
  if batchSize (config w1) <=? Z.of_nat (length (events w1))
  then EventQueue.flush FromAdd w1
  else (Normal tt, w1).
Proof.
  unfold EventQueue.add. cbv [bind modify get_world].
  destruct (persistEvents_shape (with_events (events w ++ [event]) w))
    as (its & con & E).
  rewrite E. simpl. by destruct (_ <=? _).
Qed.

Lemma clear_shape w :
  ∃ its con,
    EventQueue.clear w = (Normal tt, with_console con (with_items its (with_events [] w))) ∧
    (Storage.clear EventQueue.storage (with_events [] w)).2
    = with_console con (with_items its (with_events [] w)).
Proof.
  unfold EventQueue.clear, bind, modify.
  destruct (clear_slot_only EventQueue.storage (with_events [] w))
    as (ok & its & con & E).
  exists its, con. rewrite E. split; reflexivity.
Qed.

End QueueFacts.

(** ** The processing flag and the suspended activations *)

Section LoopFacts.
Context `{JSON} `{Engine}.

Lemma new_fields cfg host :
  let w := EventQueue.new cfg host in
  config w = cfg ∧ isProcessing w = false ∧ awaiting w = [] ∧
  onFlush_calls w = [] ∧ settled w = [].
Proof.
  unfold EventQueue.new, EventQueue.constructor, EventQueue.loadPersistedEvents.
  cbv [bind].
  destruct (get_slot_only EventQueue.storage "events" (EventQueue.init cfg host))
    as (v & its & con & ->).
  by destruct v.
Qed.

Lemma busy_when_processing w : isProcessing w = true → busy_or_empty w = true.
Proof. unfold busy_or_empty. intros ->. apply orb_true_r. Qed.

Lemma busy_or_empty_false w :
  busy_or_empty w = false ↔ events w ≠ [] ∧ isProcessing w = false.
Proof.
  unfold busy_or_empty.
  destruct (events w), (isProcessing w); simpl; split; try done; by intros [].
Qed.

Lemma step_add event w :
  step (Add event) w = Some (EventQueue.add event w).2.
Proof. reflexivity. Qed.

Lemma step_settle k outcome w :
  awaiting w = [k] →
  step (Settle 0 outcome) w
  = Some (EventQueue.settle k outcome (with_awaiting [] w)).2.
Proof. intros A. unfold step, dispatch. by rewrite A. Qed.

(** A step other than the settling of the sender's promise, taken while
    the flag is set, starts no delivery. *)
Lemma step_in_flight l w w' :
  isProcessing w = true → is_settle l = false → step l w = Some w' →
  same_flight w w' ∧
  events w' = match l with
              | Clear => []
              | Add event => events w ++ [event]
              | _ => events w
              end.
Proof.
  intros P NS. unfold step, dispatch, same_flight.
  destruct l as [event| | | | |i o|]; try discriminate NS; simpl.
  - rewrite add_eq.
    destruct (persistEvents_shape (with_events (events w ++ [event]) w))
      as (its & con & ->). simpl.
    destruct (_ <=? _); [|by intros [= <-]].
    rewrite flush_noop by (by apply busy_when_processing).
    by intros [= <-].
  - rewrite flush_noop by (by apply busy_when_processing). by intros [= <-].
  - destruct (clear_shape w) as (its & con & -> & _). by intros [= <-].
  - unfold EventQueue.destroy, bind, get_world.
    destruct (timer w) as [h|]; [destruct (h =? 0)|]; by intros [= <-].
  - destruct (timer_armed w); [|done]. simpl.
    unfold EventQueue.timer_callback, bind, get_world.
    destruct (0 <? _)%nat; [|by intros [= <-]].
    rewrite flush_noop by (by apply busy_when_processing). by intros [= <-].
  - destruct (unload_listener w); [|done]. simpl.
    unfold EventQueue.beforeunload_listener, bind, get_world, lift.
    destruct (0 <? _)%nat; [|by intros [= <-]].
    destruct (JSON_stringify _); by intros [= <-].
Qed.

Lemma run_app ls1 ls2 w :
  run (ls1 ++ ls2) w = run ls1 w ≫= run ls2.
Proof.
  revert w. induction ls1 as [|l ls1 IH]; intros w; simpl; [done|].
  destruct (step l w); [apply IH|done].
Qed.

Lemma pending_after_quiet ls es :
  forallb is_quiet ls = true → pending_after ls es = es ++ added ls.
Proof.
  revert es. induction ls as [|l ls IH]; intros es Q; simpl.
  - by rewrite app_nil_r.
  - simpl in Q. apply andb_true_iff in Q as [Ql Q].
    destruct l; try discriminate Ql; rewrite IH by done; try done.
    by rewrite <- app_assoc.
Qed.

Lemma run_in_flight ls w w' :
  isProcessing w = true → existsb is_settle ls = false → run ls w = Some w' →
  same_flight w w' ∧ events w' = pending_after ls (events w).
Proof.
  revert w. induction ls as [|l ls IH]; intros w P NS R; simpl in *.
  - injection R as <-. by unfold same_flight.
  - apply orb_false_iff in NS as [NSl NS].
    destruct (step l w) as [w1|] eqn:S; [|done].
    destruct (step_in_flight _ _ _ P NSl S) as [(P1 & A1 & C1 & G1) E1].
    destruct (IH w1) as [(P2 & A2 & C2 & G2) E2]; [congruence|done|done|].
    split; [unfold same_flight; repeat split; congruence|].
    rewrite E2, E1. by destruct l.
Qed.

(** The invariant. *)
Lemma new_consistent cfg host : consistent (EventQueue.new cfg host).
Proof.
  destruct (new_fields cfg host) as (_ & P & A & _).
  unfold consistent. by rewrite P.
Qed.

Lemma flush_consistent c w :
  consistent w → consistent (EventQueue.flush c w).2.
Proof.
  intros I. destruct (busy_or_empty w) eqn:G.
  - by rewrite flush_noop.
  - destruct (flush_starts c w G) as (its & con & -> & _).
    apply busy_or_empty_false in G as [NE P].
    unfold consistent in *. rewrite P in I. simpl. rewrite I.
    by eexists.
Qed.

Lemma step_consistent l w w' :
  consistent w → step l w = Some w' → consistent w'.
Proof.
  intros I. unfold step, dispatch.
  destruct l as [event| | | | |i o|]; simpl.
  - intros [= <-]. rewrite add_eq.
    destruct (persistEvents_shape (with_events (events w ++ [event]) w))
      as (its & con & ->). simpl.
    destruct (_ <=? _); [|done]. by apply flush_consistent.
  - intros [= <-]. by apply flush_consistent.
  - destruct (clear_shape w) as (its & con & -> & _). by intros [= <-].
  - unfold EventQueue.destroy, bind, get_world.
    destruct (timer w) as [h|]; [destruct (h =? 0)|]; by intros [= <-].
  - destruct (timer_armed w); [|done]. simpl.
    unfold EventQueue.timer_callback, bind, get_world.
    destruct (0 <? _)%nat; [|by intros [= <-]].
    intros [= <-]. by apply flush_consistent.
  - destruct (awaiting w !! i) as [k|] eqn:L; [|done]. simpl.
    unfold consistent in I. destruct (isProcessing w) eqn:P.
    + destruct I as (k' & A & NE). rewrite A in L.
      destruct i as [|i]; [|done]. injection L as ->.
      rewrite A. simpl. destruct o as [[]|err].
      * rewrite settle_ok. by intros [= <-].
      * destruct (settle_failed_shape k err (with_awaiting [] w))
          as (its & con & es & st & -> & _). by intros [= <-].
    + by rewrite I in L.
  - destruct (unload_listener w); [|done]. simpl.
    unfold EventQueue.beforeunload_listener, bind, get_world, lift.
    destruct (0 <? _)%nat; [|by intros [= <-]].
    destruct (JSON_stringify _); by intros [= <-].
Qed.

Lemma run_consistent ls w w' :
  consistent w → run ls w = Some w' → consistent w'.
Proof.
  revert w. induction ls as [|l ls IH]; intros w I R; simpl in R.
  - by injection R as <-.
  - destruct (step l w) as [w1|] eqn:S; [|done].
    eauto using step_consistent.
Qed.

Lemma reachable_consistent w : reachable w → consistent w.
Proof.
  intros (cfg & host & ls & R).
  eauto using run_consistent, new_consistent.
Qed.

End LoopFacts.

(** ** Claims about [add] and [flush] *)

Section QueueClaims.
Context `{JSON} `{Engine}.

Lemma flush_normal c w : (EventQueue.flush c w).1 = Normal tt.
Proof.
  destruct (busy_or_empty w) eqn:G.
  - by rewrite flush_noop.
  - by destruct (flush_starts c w G) as (its & con & -> & _).
Qed.

Lemma flush_promises_flush c w :
  flush_promises (EventQueue.flush c w).2 = S (flush_promises w).
Proof.
  unfold flush_promises. destruct (busy_or_empty w) eqn:G.
  - rewrite flush_noop by done. simpl. rewrite length_app. simpl. lia.
  - destruct (flush_starts c w G) as (its & con & -> & _).
    simpl. rewrite length_app. simpl. lia.
Qed.

Lemma persisted_set es w s :
  JSON_stringify (JArr es) = Normal s →
  faults (localStorage w) (items (localStorage w))
    (SetItem (EventQueue.storage +:+ "events") s) = None →
  persisted (Storage.set EventQueue.storage "events" (JArr es) w).2 = Some s.
Proof.
  intros S F. rewrite set_eq, S, F. unfold persisted. simpl.
  apply lookup_insert_eq.
Qed.

(** C4. [flush()] on an empty pending sequence, or while the processing
    flag is set, returns an already fulfilled promise and changes nothing
    else: no sender call, no suspended activation, same pending sequence,
    same localStorage. *)
Theorem flush_noop_when_empty_or_busy (c : Caller) (w : World) :
  events w = [] ∨ isProcessing w = true →
  ∃ w', EventQueue.flush c w = (Normal tt, w') ∧
        settled w' = settled w ++ [(c, Fulfilled)] ∧
        awaiting w' = awaiting w ∧
        onFlush_calls w' = onFlush_calls w ∧
        events w' = events w ∧
        isProcessing w' = isProcessing w ∧
        localStorage w' = localStorage w ∧
        console w' = console w.
Proof.
  intros G. eexists. split.
  - apply flush_noop. unfold busy_or_empty.
    destruct G as [-> | ->]; [done|apply orb_true_r].
  - by repeat split.
Qed.

(** C2. [add(event)] returns normally at once.  It appends the event at
    the tail, hands the full pending sequence to the slot's [set] under
    the key [events] (so that, when serialisation and the underlying write
    succeed, the stored item is the serialised full sequence), and then
    calls [flush] exactly when the new length is at least [batchSize]. *)
Theorem add_appends_persists_triggers (event : Event) (w : World) :
  let es := events w ++ [event] in
  let w1 := (Storage.set EventQueue.storage "events" (JArr es)
               (with_events es w)).2 in
  let full := batchSize (config w) <=? Z.of_nat (length es) in
  events w1 = es ∧ memory w1 = memory (with_events es w) ∧
  onFlush_calls w1 = onFlush_calls w ∧ awaiting w1 = awaiting w ∧
  settled w1 = settled w ∧
  (∀ s, JSON_stringify (JArr es) = Normal s →
        faults (localStorage w) (items (localStorage w))
          (SetItem (EventQueue.storage +:+ "events") s) = None →
        persisted w1 = Some s) ∧
  EventQueue.add event w
  = (Normal tt, if full then (EventQueue.flush FromAdd w1).2 else w1) ∧
  flush_promises (EventQueue.add event w).2
  = (flush_promises w + if full then 1 else 0)%nat.
Proof.
  intros es w1 full.
  assert (E : EventQueue.add event w
              = (Normal tt, if full then (EventQueue.flush FromAdd w1).2 else w1)).
  { rewrite add_eq, persistEvents_eq. simpl. fold es. fold w1.
    subst w1 full.
    destruct (set_slot_only EventQueue.storage "events" (JArr es) (with_events es w))
      as (ok & its & con & ->). simpl.
    destruct (_ <=? _); [|done].
    pose proof (flush_normal FromAdd (with_console con (with_items its (with_events es w)))).
    by destruct (EventQueue.flush _ _) as [? ?]; simpl in *; subst. }
  rewrite E. simpl.
  assert (F : if full
              then flush_promises (EventQueue.flush FromAdd w1).2 = S (flush_promises w1)
              else True).
  { destruct full; [apply flush_promises_flush|done]. }
  subst w1.
  split_and!; try (destruct (set_slot_only EventQueue.storage "events" (JArr es)
                                (with_events es w)) as (ok & its & con & ->); done).
  - intros s S Fs. by apply persisted_set.
  - revert F.
    destruct (set_slot_only EventQueue.storage "events" (JArr es) (with_events es w))
      as (ok & its & con & ->). simpl.
    destruct full; unfold flush_promises; simpl; lia.
Qed.

(** Adding below the batch size only lengthens the pending sequence. *)
Lemma adds_below (es : list Event) (w : World) :
  Z.of_nat (length (events w) + length es) < batchSize (config w) →
  ∃ w', run (map Add es) w = Some w' ∧
        events w' = events w ++ es ∧
        isProcessing w' = isProcessing w ∧ awaiting w' = awaiting w ∧
        onFlush_calls w' = onFlush_calls w ∧ settled w' = settled w ∧
        config w' = config w.
Proof.
  revert w. induction es as [|event es IH]; intros w B; cbn [map run].
  - exists w. by rewrite app_nil_r.
  - rewrite step_add, add_eq.
    destruct (persistEvents_shape (with_events (events w ++ [event]) w))
      as (its & con & ->). simpl in *.
    rewrite length_app. simpl.
    destruct (Z.leb_spec (batchSize (config w))
                (Z.of_nat (length (events w) + 1))); [lia|]. simpl.
    destruct (IH (with_console con (with_items its (with_events (events w ++ [event]) w))))
      as (w' & R & E & P & A & C & S & G).
    { simpl. rewrite length_app. simpl. lia. }
    exists w'. simpl in *. by rewrite <- app_assoc in E.
Qed.

(** C3. From an idle queue, adds that bring the pending count exactly to
    [batchSize] cause one call of the sender, with the previously pending
    events followed by the added ones in order; right after the last add,
    with the sender's promise still pending, the queue is empty. *)
Theorem batch_size_triggers_one_send (es : list Event) (w : World) :
  isProcessing w = false → awaiting w = [] →
  es ≠ [] →
  Z.of_nat (length (events w) + length es) = batchSize (config w) →
  ∃ w', run (map Add es) w = Some w' ∧
        onFlush_calls w' = onFlush_calls w ++ [events w ++ es] ∧
        EventQueue.size w' = 0%nat ∧
        isProcessing w' = true ∧
        awaiting w' = [{| caller := FromAdd; eventsToSend := events w ++ es |}] ∧
        settled w' = settled w.
Proof.
  intros P A NE B.
  destruct (exists_last NE) as (es0 & event & ->). clear NE.
  rewrite length_app in B. simpl in B.
  destruct (adds_below es0 w) as (w0 & R & E0 & P0 & A0 & C0 & S0 & G0); [lia|].
  rewrite map_app, run_app, R. cbn [map run mbind option_bind].
  rewrite step_add, add_eq.
  destruct (persistEvents_shape (with_events (events w0 ++ [event]) w0))
    as (its & con & ->). simpl.
  rewrite G0, E0, !length_app. simpl.
  destruct (Z.leb_spec (batchSize (config w))
              (Z.of_nat (length (events w) + length es0 + 1))); [|lia].
  set (w1 := with_console con (with_items its (with_events _ w0))).
  destruct (flush_starts FromAdd w1) as (its' & con' & -> & _).
  { apply busy_or_empty_false. subst w1. simpl. split; [|congruence].
    by destruct es0, (events w). }
  eexists. split; [reflexivity|]. subst w1. simpl.
  rewrite C0, A0, A, S0, app_assoc. done.
Qed.

(** C5. In every reachable state at most one activation of [flush] is
    suspended on the sender.  While one is, a further [flush()] (from the
    timer, the application or [add]) calls the sender zero times and its
    promise is fulfilled at once; hence two [flush()] calls in a row from
    an idle, non-empty queue make exactly one sender call, with the whole
    pending sequence. *)
Theorem at_most_one_in_flight (w : World) :
  reachable w →
  (length (awaiting w) ≤ 1)%nat ∧
  (awaiting w ≠ [] →
   ∀ c, ∃ w', EventQueue.flush c w = (Normal tt, w') ∧
              onFlush_calls w' = onFlush_calls w ∧
              awaiting w' = awaiting w ∧
              settled w' = settled w ++ [(c, Fulfilled)] ∧
              events w' = events w) ∧
  (awaiting w = [] → events w ≠ [] →
   ∀ c1 c2, ∃ w1 w2,
     EventQueue.flush c1 w = (Normal tt, w1) ∧
     EventQueue.flush c2 w1 = (Normal tt, w2) ∧
     onFlush_calls w2 = onFlush_calls w ++ [events w] ∧
     awaiting w2 = [{| caller := c1; eventsToSend := events w |}] ∧
     settled w2 = settled w ++ [(c2, Fulfilled)]).
Proof.
  intros I%reachable_consistent. unfold consistent in I.
  destruct (isProcessing w) eqn:P.
  - destruct I as (k & A & NE). rewrite A. split_and!; [simpl; lia| |done].
    intros _ c. rewrite flush_noop by (by apply busy_when_processing).
    eexists. split; [reflexivity|]. simpl. by rewrite A.
  - rewrite I. split_and!; [simpl; lia|done|].
    intros _ NE c1 c2.
    destruct (flush_starts c1 w) as (its & con & -> & _);
      [by apply busy_or_empty_false|].
    eexists _, _. split; [reflexivity|].
    rewrite flush_noop by (by apply busy_when_processing).
    split; [reflexivity|]. simpl. by rewrite I.
Qed.

(** C1, as the code has it.  Take any reachable idle state with a
    non-empty pending sequence that fits in one call, and start a flush.
    Whatever adds, [clear], further flush calls, timer ticks, [destroy] or
    unload happen while the sender is pending, when the sender then fails
    the batch is back at the head, in its order, ahead of the events added
    meanwhile and not removed by a [clear] since; [size()] is the batch
    size plus the number of those; and the next flush hands the sender
    exactly that sequence, after whose success nothing is pending.
    Without a [clear] in between, the events behind the batch are all the
    events added meanwhile. *)
Theorem failed_flush_requeues (c c' : Caller) (during : list Label)
    (err : Error) (w w2 : World) :
  reachable w → isProcessing w = false → events w ≠ [] →
  Z.of_nat (length (events w)) ≤ max_arguments →
  existsb is_settle during = false →
  run during (EventQueue.flush c w).2 = Some w2 →
  ∃ w3, step (Settle 0 (Throw err)) w2 = Some w3 ∧
        events w3 = events w ++ pending_after during [] ∧
        EventQueue.size w3
        = (length (events w) + length (pending_after during []))%nat ∧
        (existsb is_clear during = false →
         pending_after during [] = added during) ∧
        isProcessing w3 = false ∧ awaiting w3 = [] ∧
        onFlush_calls w3 = onFlush_calls w ++ [events w] ∧
        ∃ w4 w5,
          EventQueue.flush c' w3 = (Normal tt, w4) ∧
          onFlush_calls w4
          = onFlush_calls w3 ++ [events w ++ pending_after during []] ∧
          step (Settle 0 (Normal tt)) w4 = Some w5 ∧
          events w5 = [] ∧ isProcessing w5 = false ∧ awaiting w5 = [].
Proof.
  intros I%reachable_consistent P NE Fit NS R.
  unfold consistent in I. rewrite P in I.
  destruct (flush_starts c w) as (its & con & E & _);
    [by apply busy_or_empty_false|].
  rewrite E in R. simpl in R.
  apply run_in_flight in R as [(P2 & A2 & C2 & G2) E2]; [|done|done].
  simpl in *. rewrite I in A2. simpl in A2.
  rewrite (step_settle _ _ _ A2).
  destruct (settle_failed {| caller := c; eventsToSend := events w |} err
              (with_awaiting [] w2) Fit) as (its3 & con3 & -> & _).
  eexists. split; [reflexivity|]. unfold EventQueue.size. simpl.
  rewrite E2, C2. split_and!; try done.
  { by rewrite length_app. }
  { intros NC. apply (pending_after_quiet during []).
    clear -NS NC. induction during as [|l ls IH]; [done|].
    simpl in *. apply orb_false_iff in NS as [NSl NS].
    apply orb_false_iff in NC as [NCl NC].
    rewrite IH by done. by destruct l. }
  set (w3 := with_settled _ _).
  destruct (flush_starts c' w3) as (its4 & con4 & -> & _).
  { apply busy_or_empty_false. subst w3. simpl. split; [|done].
    by destruct (events w). }
  eexists _, _. split; [reflexivity|]. split.
  { subst w3. simpl. by rewrite C2. }
  erewrite step_settle by reflexivity.
  rewrite settle_ok. done.
Qed.

End QueueClaims.

(** ** Claims about failure, [clear] and adds in flight *)

Section FailureClaims.
Context `{JSON} `{Engine}.

Lemma set_console p k v w :
  ∃ extra, console (Storage.set p k v w).2 = console w ++ extra.
Proof.
  rewrite set_eq. destruct (JSON_stringify v); [destruct (faults _ _ _)|];
    simpl; eauto. exists []. by rewrite app_nil_r.
Qed.

Lemma timer_callback_normal w : (EventQueue.timer_callback w).1 = Normal tt.
Proof.
  unfold EventQueue.timer_callback, bind, get_world.
  destruct (0 <? _)%nat; [apply flush_normal|done].
Qed.

(** C6, as the code has it.  When the sender fails, the resumed [flush]
    logs the error and clears the flag, and the timer callback itself
    always returns normally.  When the batch fits in one call, it is put
    back and the promise that [flush] had returned is fulfilled, whoever
    the caller was: nothing is rejected or thrown, to the timer, to [add]
    or to an explicit caller. *)
Theorem sender_failure_is_logged_not_thrown (k : Suspended) (err : Error)
    (w : World) :
  ∃ w', EventQueue.settle k (Throw err) w = (Normal tt, w') ∧
        ("Failed to flush events:", err) ∈ console w' ∧
        isProcessing w' = false ∧
        (EventQueue.timer_callback w').1 = Normal tt ∧
        (Z.of_nat (length (eventsToSend k)) ≤ max_arguments →
         settled w' = settled w ++ [(caller k, Fulfilled)] ∧
         events w' = eventsToSend k ++ events w).
Proof.
  destruct (settle_failed_shape k err w)
    as (its & con & es & st & E & Cases & Logged).
  rewrite E. eexists. split; [reflexivity|]. split_and!; try done.
  - apply timer_callback_normal.
  - intros Fit. by destruct Cases as [(-> & -> & _)|(_ & _ & Over)]; [|lia].
Qed.

(** C9, as the code has it.  While a delivery is in flight, an add that
    reaches the batch size calls [flush], which is a no-op; the sender is
    not called, by this add or by anything else, until the in-flight
    promise settles; once it has, the event is still pending and the next
    [flush] -- from the timer, the application or a later [add] -- hands
    it to the sender. *)
Theorem in_flight_add_is_deferred (event : Event) (w : World) :
  reachable w → isProcessing w = true →
  batchSize (config w) ≤ Z.of_nat (length (events w) + 1) →
  ∃ w1, step (Add event) w = Some w1 ∧
        onFlush_calls w1 = onFlush_calls w ∧
        awaiting w1 = awaiting w ∧
        settled w1 = settled w ++ [(FromAdd, Fulfilled)] ∧
        events w1 = events w ++ [event] ∧
        (∀ ls w2, existsb is_settle ls = false → run ls w1 = Some w2 →
                  onFlush_calls w2 = onFlush_calls w ∧ isProcessing w2 = true) ∧
        (∀ outcome c, ∃ w3,
            step (Settle 0 outcome) w1 = Some w3 ∧
            event ∈ events w3 ∧
            onFlush_calls (EventQueue.flush c w3).2
            = onFlush_calls w3 ++ [events w3]).
Proof.
  intros I%reachable_consistent P B.
  unfold consistent in I. rewrite P in I. destruct I as (k & A & NE).
  rewrite step_add, add_eq.
  destruct (persistEvents_shape (with_events (events w ++ [event]) w))
    as (its & con & ->). simpl. rewrite length_app. simpl.
  destruct (Z.leb_spec (batchSize (config w))
              (Z.of_nat (length (events w) + 1))); [|lia].
  rewrite flush_noop by (by apply busy_when_processing).
  eexists. split; [reflexivity|]. simpl. split_and!; try done.
  - intros ls w2 NS R.
    apply run_in_flight in R as [(P2 & A2 & C2 & G2) E2]; [|done|done].
    simpl in *. by rewrite P2, C2.
  - intros outcome c.
    erewrite step_settle by (simpl; apply A).
    destruct outcome as [[]|err].
    + rewrite settle_ok. eexists. split; [reflexivity|]. simpl.
      split; [apply elem_of_app; right; by apply list_elem_of_singleton|].
      set (w3 := with_settled _ _).
      destruct (flush_starts c w3) as (its' & con' & -> & _); [|done].
      apply busy_or_empty_false. subst w3. simpl. split; [|done].
      by destruct (events w).
    + set (w1 := with_awaiting [] _).
      destruct (settle_failed_shape k err w1)
        as (its' & con' & es & st & -> & Cases & _).
      eexists. split; [reflexivity|]. subst w1. simpl in *.
      assert (In : event ∈ es).
      { destruct Cases as [(-> & _)|(-> & _)];
          repeat (apply elem_of_app; right); by apply list_elem_of_singleton. }
      split; [exact In|].
      set (w3 := with_settled _ _).
      destruct (flush_starts c w3) as (its'' & con'' & -> & _); [|done].
      apply busy_or_empty_false. subst w3. simpl. split; [|done].
      intros ->. by apply elem_of_nil in In.
Qed.

(** C10, on the code.  With a delivery in flight, [clear()] empties the
    pending sequence but not the suspended batch.  When the sender then
    fails and the batch fits in one call, the batch is put back into the
    emptied sequence and handed to the slot again, so [size()] is the
    batch length, which is not 0.  A batch that does not fit is lost: the
    requeue throws, [size()] stays 0, the slot is not written again and
    the promise of that [flush] is rejected. *)
Theorem clear_does_not_cancel_failed_flush (err : Error) (w : World) :
  reachable w → isProcessing w = true →
  ∃ k wc w',
    awaiting w = [k] ∧ eventsToSend k ≠ [] ∧
    step Clear w = Some wc ∧ events wc = [] ∧
    step (Settle 0 (Throw err)) wc = Some w' ∧
    isProcessing w' = false ∧
    onFlush_calls w' = onFlush_calls w ∧
    (Z.of_nat (length (eventsToSend k)) ≤ max_arguments →
     events w' = eventsToSend k ∧
     EventQueue.size w' = length (eventsToSend k) ∧
     EventQueue.size w' ≠ 0%nat ∧
     settled w' = settled wc ++ [(caller k, Fulfilled)] ∧
     (∀ s, JSON_stringify (JArr (eventsToSend k)) = Normal s →
           (∀ m, faults (localStorage w) m
                   (SetItem (EventQueue.storage +:+ "events") s) = None) →
           persisted w' = Some s)) ∧
    (max_arguments < Z.of_nat (length (eventsToSend k)) →
     events w' = [] ∧ EventQueue.size w' = 0%nat ∧
     localStorage w' = localStorage wc ∧
     settled w' = settled wc ++ [(caller k, Rejected too_many_arguments)]).
Proof.
  intros I%reachable_consistent P.
  unfold consistent in I. rewrite P in I. destruct I as (k & A & NE).
  destruct (clear_shape w) as (its & con & EC & _).
  set (wc := with_console con (with_items its (with_events [] w))) in *.
  destruct (Z.ltb_spec max_arguments (Z.of_nat (length (eventsToSend k))))
    as [Over|Fit].
  - pose proof (settle_overflow k err (with_awaiting [] wc) Over) as ES.
    exists k, wc. eexists.
    split; [exact A|]. split; [exact NE|].
    split; [unfold step, dispatch; by rewrite EC|].
    split; [reflexivity|].
    split; [rewrite (step_settle k _ wc A), ES; reflexivity|].
    split; [done|]. split; [done|]. split; [intros Fit; lia|].
    intros _. unfold EventQueue.size. subst wc. simpl.
    split_and!; try done. 
  - destruct (settle_failed k err (with_awaiting [] wc) Fit)
      as (its' & con' & ES & E).
    exists k, wc. eexists.
    split; [exact A|]. split; [exact NE|].
    split; [unfold step, dispatch; by rewrite EC|].
    split; [reflexivity|].
    split; [rewrite (step_settle k _ wc A), ES; reflexivity|].
    split; [done|]. split; [done|]. split; [|intros Over; lia].
    intros _. unfold EventQueue.size. subst wc. simpl. rewrite app_nil_r.
    split_and!; try done.
    + by destruct (eventsToSend k).
    + intros s S F. rewrite persistEvents_eq in E. simpl in E.
      rewrite app_nil_r in E.
      apply (f_equal persisted) in E.
      rewrite (persisted_set _ _ s) in E; [|done|apply F].
      by rewrite E.
Qed.

Lemma prefix_trans p q k :
  String.prefix p q = true → String.prefix q k = true →
  String.prefix p k = true.
Proof.
  revert q k. induction p as [|a p IH]; intros q k Pq Qk; [by destruct k|].
  destruct q as [|b q]; [done|]. destruct k as [|c k]; [done|].
  simpl in *.
  destruct (Ascii.ascii_dec a b) as [->|]; [|done].
  destruct (Ascii.ascii_dec b c) as [->|]; [|done].
  by apply (IH q).
Qed.

(** No inherited member of the storage object has a name that starts
    with [analytics_]: the keys of the queue and of the client are all own
    properties. *)
Lemma prototype_names_unprefixed prefix key :
  String.prefix "analytics_" prefix = true →
  String.prefix prefix key = true → key ∉ Storage_prototype_names.
Proof.
  intros Pp Pk In.
  pose proof (prefix_trans _ _ _ Pp Pk) as P. revert P.
  unfold Storage_prototype_names in In.
  repeat (apply elem_of_cons in In as [->|In]; [done|]).
  by apply elem_of_nil in In.
Qed.

Lemma own_keys_elem (m : gmap string string) key :
  key ∈ own_keys m ↔ (key ∉ Storage_prototype_names) ∧ is_Some (m !! key).
Proof.
  unfold own_keys. rewrite list_elem_of_filter. split.
  - intros [N ([k v] & -> & In)%list_elem_of_fmap]. split; [done|].
    apply elem_of_map_to_list in In. by exists v.
  - intros [N [v L]]. split; [done|].
    apply list_elem_of_fmap. exists (key, v). split; [done|].
    by apply elem_of_map_to_list.
Qed.

Lemma erase_absent prefix keys (m : gmap string string) key :
  m !! key = None → erase prefix keys m !! key = None.
Proof.
  revert m. induction keys as [|k keys IH]; intros m N; simpl; [done|].
  apply IH. destruct (String.prefix prefix k); [|done].
  rewrite lookup_delete. by case_decide.
Qed.

Lemma erase_prefixed prefix keys (m : gmap string string) key :
  String.prefix prefix key = true → key ∈ keys →
  erase prefix keys m !! key = None.
Proof.
  intros Pk. revert m. induction keys as [|k keys IH]; intros m In; simpl.
  - by apply elem_of_nil in In.
  - apply elem_of_cons in In as [<- | In]; [|by apply IH].
    rewrite Pk. apply erase_absent, lookup_delete_eq.
Qed.

Lemma erase_other prefix keys (m : gmap string string) key :
  String.prefix prefix key = false → erase prefix keys m !! key = m !! key.
Proof.
  intros Pk. revert m. induction keys as [|k keys IH]; intros m; simpl; [done|].
  rewrite IH. destruct (String.prefix prefix k) eqn:Pk'; [|done].
  apply lookup_delete_ne. congruence.
Qed.

Lemma erase_unlisted prefix keys (m : gmap string string) key :
  key ∉ keys → erase prefix keys m !! key = m !! key.
Proof.
  revert m. induction keys as [|k keys IH]; intros m N; simpl; [done|].
  apply not_elem_of_cons in N as [NE N].
  rewrite IH by done. destruct (String.prefix prefix k); [|done].
  by apply lookup_delete_ne.
Qed.

Lemma forEach_clear_each_ok prefix keys w its0 :
  erasable (localStorage w) →
  forEach (Storage.clear_each prefix) keys (with_items its0 w)
  = (Normal tt, with_items (erase prefix keys its0) w).
Proof.
  intros Er. revert its0. induction keys as [|k keys IH]; intros its0; simpl.
  - done.
  - unfold bind at 1. unfold Storage.clear_each at 1.
    destruct (String.prefix prefix k).
    + cbv [localStorage_removeItem localStorage_call]. simpl.
      destruct (Er its0) as [_ ->]. simpl. apply IH.
    + simpl. apply IH.
Qed.

Lemma clear_ok prefix w :
  erasable (localStorage w) →
  Storage.clear prefix w
  = (Normal true,
     with_items (erase prefix (own_keys (items (localStorage w)))
                   (items (localStorage w))) w).
Proof.
  intros Er. unfold Storage.clear, try_catch, Storage.clear_try, bind at 1.
  cbv [Object_keys_localStorage localStorage_call].
  destruct (Er (items (localStorage w))) as [-> _]. simpl.
  unfold bind.
  by rewrite (forEach_clear_each_ok prefix _ w (items (localStorage w)) Er).
Qed.

Lemma new_without_persisted cfg host :
  persisted host = None → events (EventQueue.new cfg host) = [].
Proof.
  unfold persisted. intros N.
  unfold EventQueue.new, EventQueue.constructor, EventQueue.loadPersistedEvents.
  cbv [bind]. rewrite get_eq. simpl.
  destruct (faults _ _ _); [done|]. by rewrite N.
Qed.

(** C7. [clear()] returns normally, empties the pending sequence and
    calls neither the sender nor [flush].  When the underlying storage
    lets keys be listed and removed, no key that starts with the queue's
    prefix is left (other keys are untouched), and a queue constructed
    next over that storage starts empty. *)
Theorem clear_empties_memory_and_slot (cfg : Config) (w : World) :
  ∃ w', EventQueue.clear w = (Normal tt, w') ∧
        events w' = [] ∧ EventQueue.size w' = 0%nat ∧
        onFlush_calls w' = onFlush_calls w ∧
        awaiting w' = awaiting w ∧ settled w' = settled w ∧
        (erasable (localStorage w) →
         (∀ key, String.prefix EventQueue.storage key = true →
                 items (localStorage w') !! key = None) ∧
         (∀ key, String.prefix EventQueue.storage key = false →
                 items (localStorage w') !! key = items (localStorage w) !! key) ∧
         EventQueue.size (EventQueue.new cfg w') = 0%nat).
Proof.
  destruct (clear_shape w) as (its & con & -> & E).
  eexists. split; [reflexivity|]. split_and!; try done.
  intros Er. rewrite clear_ok in E by done. simpl in E.
  assert (Its : its = erase EventQueue.storage
                        (own_keys (items (localStorage w)))
                        (items (localStorage w))).
  { apply (f_equal (fun x => items (localStorage x))) in E. simpl in E. done. }
  assert (Gone : ∀ key, String.prefix EventQueue.storage key = true →
                        its !! key = None).
  { intros key Pk. rewrite Its.
    destruct (items (localStorage w) !! key) as [v|] eqn:L.
    - apply erase_prefixed; [done|].
      apply own_keys_elem. split; [|by exists v].
      by apply (prototype_names_unprefixed EventQueue.storage).
    - by apply erase_absent. }
  simpl. split_and!.
  - exact Gone.
  - intros key Pk. rewrite Its. by apply erase_other.
  - unfold EventQueue.size. rewrite new_without_persisted; [done|].
    unfold persisted. simpl. by apply Gone.
Qed.

End FailureClaims.

(** ** Further properties of the queue *)

Section QueueExtras.
Context `{JSON} `{Engine}.

Lemma flush_frame c w :
  let w' := (EventQueue.flush c w).2 in
  timer w' = timer w ∧ config w' = config w ∧
  faults (localStorage w') = faults (localStorage w) ∧
  unload_listener w' = unload_listener w ∧ intervals w' = intervals w.
Proof.
  destruct (busy_or_empty w) eqn:G.
  - by rewrite flush_noop.
  - by destruct (flush_starts c w G) as (its & con & -> & _).
Qed.

(** No step re-arms the timer, replaces the configuration or changes the
    way the underlying storage fails. *)
Lemma step_frame l w w' :
  step l w = Some w' →
  timer w' = timer w ∧ config w' = config w ∧
  faults (localStorage w') = faults (localStorage w) ∧
  unload_listener w' = unload_listener w ∧
  (∀ x, x ∈ intervals w' → x ∈ intervals w).
Proof.
  unfold step, dispatch.
  destruct l as [event| | | | |i o|]; simpl.
  - intros [= <-]. rewrite add_eq.
    destruct (persistEvents_shape (with_events (events w ++ [event]) w))
      as (its & con & ->). simpl.
    destruct (_ <=? _); [|done].
    destruct (flush_frame FromAdd
                (with_console con (with_items its (with_events (events w ++ [event]) w))))
      as (T & C & F & U & I).
    simpl in *. split_and!; try done. intros x. by rewrite I.
  - intros [= <-]. destruct (flush_frame Explicit w) as (T & C & F & U & I).
    split_and!; try done. intros x. by rewrite I.
  - destruct (clear_shape w) as (its & con & -> & _). by intros [= <-].
  - unfold EventQueue.destroy, bind, get_world.
    destruct (timer w) as [h|] eqn:T; [destruct (h =? 0)|];
      intros [= <-]; simpl; rewrite ?T; split_and!; try done.
    by intros x [_ In]%list_elem_of_filter.
  - destruct (timer_armed w); [|done]. simpl.
    unfold EventQueue.timer_callback, bind, get_world.
    destruct (0 <? _)%nat; [|by intros [= <-]].
    intros [= <-]. destruct (flush_frame FromTimer w) as (T & C & F & U & I).
    split_and!; try done. intros x. by rewrite I.
  - destruct (awaiting w !! i) as [k|]; [|done]. simpl.
    destruct o as [[]|err].
    + rewrite settle_ok. by intros [= <-].
    + destruct (settle_failed_shape k err (with_awaiting (delete i (awaiting w)) w))
        as (its & con & es & st & -> & _). by intros [= <-].
  - destruct (unload_listener w) eqn:U; [|done]. simpl.
    unfold EventQueue.beforeunload_listener, bind, get_world, lift.
    destruct (0 <? _)%nat; [|by intros [= <-]].
    destruct (JSON_stringify _); by intros [= <-].
Qed.

Lemma fresh_handle_pos l : 0 < fresh_handle l.
Proof.
  unfold fresh_handle. assert (0 ≤ foldr Z.max 0 l); [|lia].
  induction l as [|x l IH]; simpl; lia.
Qed.

Lemma new_timer cfg host :
  ∃ h, timer (EventQueue.new cfg host) = Some h ∧ h ≠ 0 ∧
       h ∈ intervals (EventQueue.new cfg host) ∧
       unload_listener (EventQueue.new cfg host) = true.
Proof.
  unfold EventQueue.new, EventQueue.constructor, EventQueue.loadPersistedEvents.
  cbv [bind].
  destruct (get_slot_only EventQueue.storage "events" (EventQueue.init cfg host))
    as (v & its & con & ->).
  exists (fresh_handle (intervals host)).
  pose proof (fresh_handle_pos (intervals host)).
  destruct v; simpl; (split_and!; [done|lia|apply elem_of_cons; by left|done]).
Qed.

Lemma run_frame ls w w' :
  run ls w = Some w' →
  timer w' = timer w ∧ config w' = config w ∧
  faults (localStorage w') = faults (localStorage w) ∧
  unload_listener w' = unload_listener w ∧
  (∀ x, x ∈ intervals w' → x ∈ intervals w).
Proof.
  revert w. induction ls as [|l ls IH]; intros w R; simpl in R.
  - by injection R as <-.
  - destruct (step l w) as [w1|] eqn:S; [|done].
    destruct (step_frame _ _ _ S) as (T1 & C1 & F1 & U1 & I1).
    destruct (IH _ R) as (T2 & C2 & F2 & U2 & I2).
    split_and!; try congruence. auto.
Qed.

Lemma reachable_timer w :
  reachable w → ∃ h, timer w = Some h ∧ h ≠ 0.
Proof.
  intros (cfg & host & ls & R).
  destruct (new_timer cfg host) as (h & T & NZ & _).
  destruct (run_frame _ _ _ R) as (T' & _).
  exists h. by rewrite T'.
Qed.

(** X1. Adds that keep the pending count below [batchSize] only lengthen
    the pending sequence: [size()] grows by the number of adds, the sender
    is not called, no [flush] is started and no promise is created. *)
Theorem adds_below_batch_size (es : list Event) (w : World) :
  Z.of_nat (length (events w) + length es) < batchSize (config w) →
  ∃ w', run (map Add es) w = Some w' ∧
        events w' = events w ++ es ∧
        EventQueue.size w' = (EventQueue.size w + length es)%nat ∧
        onFlush_calls w' = onFlush_calls w ∧
        awaiting w' = awaiting w ∧ settled w' = settled w ∧
        isProcessing w' = isProcessing w.
Proof.
  intros B. destruct (adds_below es w B) as (w' & R & E & P & A & C & S & G).
  exists w'. unfold EventQueue.size. rewrite E, length_app. by split_and!.
Qed.

(** X2. When the sender resolves, the batch is gone for good: from an
    idle non-empty queue, [flush], any steps while the sender is pending,
    then success leave exactly the events added meanwhile (after the last
    [clear], if any); the flag is cleared, the caller's promise is
    fulfilled, and neither the console nor the storage is touched by the
    settling. *)
Theorem successful_flush_discards_batch (c : Caller) (during : list Label)
    (w w2 : World) :
  reachable w → isProcessing w = false → events w ≠ [] →
  existsb is_settle during = false →
  run during (EventQueue.flush c w).2 = Some w2 →
  ∃ w3, step (Settle 0 (Normal tt)) w2 = Some w3 ∧
        events w3 = pending_after during [] ∧
        isProcessing w3 = false ∧ awaiting w3 = [] ∧
        onFlush_calls w3 = onFlush_calls w ++ [events w] ∧
        settled w3 = settled w2 ++ [(c, Fulfilled)] ∧
        console w3 = console w2 ∧ localStorage w3 = localStorage w2.
Proof.
  intros I%reachable_consistent P NE NS R.
  unfold consistent in I. rewrite P in I.
  destruct (flush_starts c w) as (its & con & E & _);
    [by apply busy_or_empty_false|].
  rewrite E in R. simpl in R.
  apply run_in_flight in R as [(P2 & A2 & C2 & G2) E2]; [|done|done].
  simpl in *. rewrite I in A2. simpl in A2.
  rewrite (step_settle _ _ _ A2), settle_ok.
  eexists. split; [reflexivity|]. simpl. by rewrite E2, C2.
Qed.

(** X3. After [destroy()] the interval timer never fires again, whatever
    happens next; [destroy] itself changes nothing of the queue: pending
    events stay pending and unsent, a delivery in flight stays in flight,
    and the storage is untouched. *)
Theorem destroy_stops_timer_for_good (w : World) :
  reachable w →
  ∃ wd, step Destroy w = Some wd ∧
        memory wd = memory w ∧ awaiting wd = awaiting w ∧
        onFlush_calls wd = onFlush_calls w ∧ settled wd = settled w ∧
        localStorage wd = localStorage w ∧
        timer_armed wd = false ∧
        ∀ ls w', run ls wd = Some w' → (Tick ∉ ls) ∧ timer_armed w' = false.
Proof.
  intros (h & T & NZ)%reachable_timer.
  unfold step at 1, dispatch, EventQueue.destroy, bind, get_world.
  rewrite T. destruct (Z.eqb_spec h 0) as [|_]; [done|]. simpl.
  eexists. split; [reflexivity|].
  set (wd := with_intervals _ w).
  assert (D : timer_armed wd = false).
  { unfold timer_armed. subst wd. simpl. rewrite T.
    apply bool_decide_eq_false. intros [N _]%list_elem_of_filter. done. }
  split_and!; try done.
  assert (Off : ∀ ls v v', timer_armed v = false → run ls v = Some v' →
                           (Tick ∉ ls) ∧ timer_armed v' = false).
  { induction ls as [|l ls IH]; intros v v' A R; simpl in R.
    - injection R as <-. split; [apply not_elem_of_nil|done].
    - destruct (step l v) as [v1|] eqn:S; [|done].
      assert (l ≠ Tick).
      { intros ->. unfold step, dispatch in S. by rewrite A in S. }
      assert (A1 : timer_armed v1 = false).
      { destruct (step_frame _ _ _ S) as (T1 & _ & _ & _ & I1).
        unfold timer_armed in *. rewrite T1.
        destruct (timer v) as [x|]; [|done].
        apply bool_decide_eq_false. apply bool_decide_eq_false in A. auto. }
      destruct (IH _ _ A1 R) as [NT A'].
      split; [|done]. intros [<-|In]%elem_of_cons; done. }
  intros ls w'. by apply Off.
Qed.

(** X4. Events below the batch size go out with the next timer tick: on an
    idle queue with a live timer and a non-empty pending sequence, a tick
    calls the sender once with the whole pending sequence and empties the
    queue; on an empty queue a tick does nothing at all, not even a call
    of [flush]. *)
Theorem tick_flushes_pending (w : World) :
  isProcessing w = false → awaiting w = [] → timer_armed w = true →
  ∃ w', step Tick w = Some w' ∧
        (events w = [] → w' = w) ∧
        (events w ≠ [] →
         onFlush_calls w' = onFlush_calls w ++ [events w] ∧
         events w' = [] ∧ isProcessing w' = true ∧
         awaiting w' = [{| caller := FromTimer; eventsToSend := events w |}]).
Proof.
  intros P A T. unfold step, dispatch. rewrite T. simpl.
  unfold EventQueue.timer_callback, bind, get_world.
  destruct (events w) as [|e es] eqn:E; simpl.
  - exists w. by split_and!.
  - destruct (flush_starts FromTimer w) as (its & con & -> & _).
    { apply busy_or_empty_false. by rewrite E. }
    eexists. split; [reflexivity|]. split; [done|]. intros _. simpl.
    by rewrite A, E.
Qed.

Lemma added_cons l ls : added (l :: ls) = added [l] ++ added ls.
Proof. by destruct l. Qed.

Lemma step_conserves l w w' :
  consistent w → is_clear l = false →
  (∀ k, k ∈ awaiting w → Z.of_nat (length (eventsToSend k)) ≤ max_arguments) →
  step l w = Some w' →
  match l with
  | Settle i (Normal _) =>
      match awaiting w !! i with
      | Some k => eventsToSend k
      | None => []
      end
  | _ => []
  end ++ in_flight w' ++ events w'
  = in_flight w ++ events w ++ added [l].
Proof.
  intros I NC Fit. unfold step, dispatch.
  assert (F : ∀ c v, consistent v →
              in_flight (EventQueue.flush c v).2 ++ events (EventQueue.flush c v).2
              = in_flight v ++ events v).
  { intros c v Iv. destruct (busy_or_empty v) eqn:G.
    - by rewrite flush_noop.
    - destruct (flush_starts c v G) as (its & con & -> & _).
      apply busy_or_empty_false in G as [_ P].
      unfold consistent in Iv. rewrite P in Iv.
      unfold in_flight. simpl. rewrite Iv. simpl. by rewrite !app_nil_r. }
  destruct l as [event| | | | |i o|]; try discriminate NC; simpl.
  - intros [= <-]. rewrite add_eq.
    destruct (persistEvents_shape (with_events (events w ++ [event]) w))
      as (its & con & ->). simpl.
    destruct (_ <=? _).
    + rewrite F by done. unfold in_flight. simpl. by rewrite app_assoc.
    + unfold in_flight. simpl. by rewrite app_assoc.
  - intros [= <-]. rewrite F by done. by rewrite app_nil_r.
  - unfold EventQueue.destroy, bind, get_world.
    destruct (timer w) as [h|]; [destruct (h =? 0)|]; intros [= <-];
      by rewrite app_nil_r.
  - destruct (timer_armed w); [|done]. simpl.
    unfold EventQueue.timer_callback, bind, get_world.
    destruct (0 <? _)%nat; intros [= <-]; [|by rewrite app_nil_r].
    rewrite F by done. by rewrite app_nil_r.
  - destruct (awaiting w !! i) as [k|] eqn:L; [|done]. simpl.
    unfold consistent in I. destruct (isProcessing w) eqn:P.
    + destruct I as (k' & A & NE). rewrite A in L.
      destruct i as [|i]; [|done]. injection L as ->.
      rewrite A. simpl. destruct o as [[]|err].
      * rewrite settle_ok. intros [= <-]. unfold in_flight. simpl.
        rewrite A. simpl. by rewrite !app_nil_r.
      * destruct (settle_failed k err (with_awaiting [] w))
          as (its & con & -> & _).
        { apply Fit. rewrite A. by apply list_elem_of_singleton. }
        intros [= <-]. unfold in_flight. simpl.
        rewrite A. simpl. by rewrite !app_nil_r.
    + by rewrite I in L.
  - destruct (unload_listener w); [|done]. simpl.
    unfold EventQueue.beforeunload_listener, bind, get_world, lift.
    destruct (0 <? _)%nat; [|intros [= <-]; by rewrite app_nil_r].
    destruct (JSON_stringify _); intros [= <-]; by rewrite app_nil_r.
Qed.

(** The record of the sender's calls only grows, and it holds every
    batch that is awaited. *)
Lemma flush_calls c v :
  (∀ b, b ∈ onFlush_calls v → b ∈ onFlush_calls (EventQueue.flush c v).2) ∧
  ((∀ k, k ∈ awaiting v → eventsToSend k ∈ onFlush_calls v) →
   ∀ k, k ∈ awaiting (EventQueue.flush c v).2 →
        eventsToSend k ∈ onFlush_calls (EventQueue.flush c v).2).
Proof.
  destruct (busy_or_empty v) eqn:G.
  - by rewrite flush_noop.
  - destruct (flush_starts c v G) as (its & con & -> & _). simpl. split.
    + intros b In. apply elem_of_app. by left.
    + intros Rec k [In| ->%list_elem_of_singleton]%elem_of_app;
        apply elem_of_app; [left; by apply Rec|right].
      by apply list_elem_of_singleton.
Qed.

Lemma step_calls l v v' :
  consistent v → step l v = Some v' →
  (∀ b, b ∈ onFlush_calls v → b ∈ onFlush_calls v') ∧
  ((∀ k, k ∈ awaiting v → eventsToSend k ∈ onFlush_calls v) →
   ∀ k, k ∈ awaiting v' → eventsToSend k ∈ onFlush_calls v').
Proof.
  intros I. unfold step, dispatch.
  destruct l as [event| | | | |i o|]; simpl.
  - intros [= <-]. rewrite add_eq.
    destruct (persistEvents_shape (with_events (events v ++ [event]) v))
      as (its & con & ->). simpl.
    destruct (_ <=? _); [|done].
    apply (flush_calls FromAdd
             (with_console con (with_items its (with_events (events v ++ [event]) v)))).
  - intros [= <-]. apply flush_calls.
  - destruct (clear_shape v) as (its & con & -> & _). by intros [= <-].
  - unfold EventQueue.destroy, bind, get_world.
    destruct (timer v) as [h|]; [destruct (h =? 0)|]; by intros [= <-].
  - destruct (timer_armed v); [|done]. simpl.
    unfold EventQueue.timer_callback, bind, get_world.
    destruct (0 <? _)%nat; [|by intros [= <-]].
    intros [= <-]. apply flush_calls.
  - destruct (awaiting v !! i) as [k|] eqn:L; [|done]. simpl.
    unfold consistent in I. destruct (isProcessing v) eqn:P.
    + destruct I as (k' & A & NE). rewrite A in L.
      destruct i as [|i]; [|done]. injection L as ->.
      rewrite A. simpl. destruct o as [[]|err].
      * rewrite settle_ok. intros [= <-]. simpl. split; [done|].
        by intros _ k' ?%elem_of_nil.
      * destruct (settle_failed_shape k err (with_awaiting [] v))
          as (its & con & es & st & -> & _).
        intros [= <-]. simpl. split; [done|].
        by intros _ k' ?%elem_of_nil.
    + by rewrite I in L.
  - destruct (unload_listener v); [|done]. simpl.
    unfold EventQueue.beforeunload_listener, bind, get_world, lift.
    destruct (0 <? _)%nat; [|by intros [= <-]].
    destruct (JSON_stringify _); by intros [= <-].
Qed.

Lemma run_calls ls v v' :
  consistent v → run ls v = Some v' →
  (∀ b, b ∈ onFlush_calls v → b ∈ onFlush_calls v') ∧
  ((∀ k, k ∈ awaiting v → eventsToSend k ∈ onFlush_calls v) →
   ∀ k, k ∈ awaiting v' → eventsToSend k ∈ onFlush_calls v').
Proof.
  revert v. induction ls as [|l ls IH]; intros v I R; simpl in R.
  - by injection R as <-.
  - destruct (step l v) as [v1|] eqn:S; [|done].
    destruct (step_calls _ _ _ I S) as [M1 R1].
    destruct (IH v1 (step_consistent _ _ _ I S) R) as [M2 R2].
    split; auto.
Qed.

Lemma reachable_calls v :
  reachable v → ∀ k, k ∈ awaiting v → eventsToSend k ∈ onFlush_calls v.
Proof.
  intros (cfg & host & ls & R).
  destruct (run_calls _ _ _ (new_consistent cfg host) R) as [_ Rec].
  apply Rec. destruct (new_fields cfg host) as (_ & _ & -> & _).
  by intros k ?%elem_of_nil.
Qed.

(** X5. Nothing is lost, duplicated or reordered, as long as no batch
    handed to the sender is too long to be put back in one call.  Along
    any such trace without [clear()], the events of the successfully
    delivered batches, then the batch in flight, then the pending sequence
    are, in this order, exactly the events the queue started with followed
    by the events added, in the order of the adds. *)
Theorem fifo_no_loss_no_duplication (ls : list Label) (w0 w : World) :
  reachable w0 → existsb is_clear ls = false → run ls w0 = Some w →
  (∀ batch, batch ∈ onFlush_calls w →
            Z.of_nat (length batch) ≤ max_arguments) →
  delivered ls w0 ++ in_flight w ++ events w
  = in_flight w0 ++ events w0 ++ added ls.
Proof.
  intros Re. pose proof (reachable_calls _ Re) as Rec.
  apply reachable_consistent in Re as I. clear Re. revert w0 I Rec.
  induction ls as [|l ls IH]; intros w0 I Rec NC R Fit; simpl in R.
  - injection R as <-. simpl. by rewrite app_nil_r.
  - simpl in NC. apply orb_false_iff in NC as [NCl NC].
    destruct (step l w0) as [w1|] eqn:S; [|done].
    destruct (step_calls _ _ _ I S) as [M1 R1].
    pose proof (step_consistent _ _ _ I S) as I1.
    destruct (run_calls _ _ _ I1 R) as [M2 _].
    assert (C : match l with
                | Settle i (Normal _) =>
                    match awaiting w0 !! i with
                    | Some k => eventsToSend k
                    | None => []
                    end
                | _ => []
                end ++ in_flight w1 ++ events w1
                = in_flight w0 ++ events w0 ++ added [l]).
    { apply step_conserves; try done. intros k In. apply Fit, M2, M1. by apply Rec. }
    pose proof (IH w1 I1 (R1 Rec) NC R Fit) as D.
    cbn [delivered]. rewrite S, added_cons.
    rewrite <- app_assoc, D, !app_assoc.
    rewrite <- (app_assoc _ (in_flight w1)), C.
    by rewrite !app_assoc.
Qed.

Lemma synced_ext w w' :
  events w' = events w → localStorage w' = localStorage w →
  synced w → synced w'.
Proof. unfold synced, persisted. by intros -> ->. Qed.

Lemma persist_synced w :
  healthy (localStorage w) → arrays_serialise →
  synced (EventQueue.persistEvents w).2.
Proof.
  intros Hh Hs. rewrite persistEvents_eq, set_eq. simpl.
  destruct (Hs (events w)) as [s Es]. rewrite Es, Hh. simpl.
  right. exists s. split; [done|]. unfold persisted. simpl.
  apply lookup_insert_eq.
Qed.

Lemma flush_synced c w :
  healthy (localStorage w) → arrays_serialise →
  synced w → synced (EventQueue.flush c w).2.
Proof.
  intros Hh Hs Sy. destruct (busy_or_empty w) eqn:G.
  - rewrite flush_noop by done. by apply (synced_ext w).
  - destruct (flush_starts c w G) as (its & con & -> & E).
    pose proof (persist_synced (with_events [] (with_isProcessing true w)) Hh Hs)
      as Sy'.
    rewrite E in Sy'. revert Sy'. by apply synced_ext.
Qed.

Lemma erase_gone prefix (m : gmap string string) key :
  String.prefix prefix key = true → key ∉ Storage_prototype_names →
  erase prefix (own_keys m) m !! key = None.
Proof.
  intros Pk Own. destruct (m !! key) as [v|] eqn:L.
  - apply erase_prefixed; [done|].
    apply own_keys_elem. split; [done|by exists v].
  - by apply erase_absent.
Qed.

Lemma healthy_erasable ls : healthy ls → erasable ls.
Proof. intros Hh m. split; [apply Hh|intros k; apply Hh]. Qed.

Lemma step_synced l w w' :
  healthy (localStorage w) → arrays_serialise →
  synced w → step l w = Some w' → synced w'.
Proof.
  intros Hh Hs Sy. unfold step, dispatch.
  destruct l as [event| | | | |i o|]; simpl.
  - intros [= <-]. rewrite add_eq.
    pose proof (persist_synced (with_events (events w ++ [event]) w) Hh Hs) as Sy'.
    destruct (persistEvents_shape (with_events (events w ++ [event]) w))
      as (its & con & E). rewrite E in *. simpl in *.
    destruct (_ <=? _); [|done]. by apply flush_synced.
  - intros [= <-]. by apply flush_synced.
  - destruct (clear_shape w) as (its & con & -> & E). intros [= <-].
    rewrite clear_ok in E by (by apply healthy_erasable).
    left. split; [done|].
    apply (f_equal persisted) in E. rewrite <- E. unfold persisted. simpl.
    apply erase_gone; [done|].
    by apply (prototype_names_unprefixed EventQueue.storage).
  - unfold EventQueue.destroy, bind, get_world.
    destruct (timer w) as [h|]; [destruct (h =? 0)|]; by intros [= <-].
  - destruct (timer_armed w); [|done]. simpl.
    unfold EventQueue.timer_callback, bind, get_world.
    destruct (0 <? _)%nat; intros [= <-]; [|done]. by apply flush_synced.
  - destruct (awaiting w !! i) as [k|]; [|done]. simpl.
    destruct o as [[]|err].
    + rewrite settle_ok. intros [= <-]. by apply (synced_ext w).
    + set (v := with_awaiting _ w).
      destruct (Z.ltb_spec max_arguments (Z.of_nat (length (eventsToSend k))))
        as [Over|Fit].
      * rewrite settle_overflow by done. intros [= <-]. by apply (synced_ext w).
      * destruct (settle_failed k err v Fit) as (its & con & -> & E).
        intros [= <-].
        pose proof (persist_synced
                      (with_events (eventsToSend k ++ events v)
                         (with_console
                            (console v ++ [("Failed to flush events:", err)]) v))
                      Hh Hs) as Sy'.
        rewrite E in Sy'. revert Sy'. by apply synced_ext.
  - destruct (unload_listener w); [|done]. simpl.
    unfold EventQueue.beforeunload_listener, bind, get_world, lift.
    destruct (0 <? _)%nat; [|by intros [= <-]].
    destruct (JSON_stringify _); intros [= <-]; [|done].
    by apply (synced_ext w).
Qed.

Lemma new_storage cfg host :
  localStorage (EventQueue.new cfg host) = localStorage host.
Proof.
  unfold EventQueue.new, EventQueue.constructor, EventQueue.loadPersistedEvents.
  cbv [bind]. rewrite get_eq.
  destruct host as [? ? ? ? [m f] ? ? ? ? ? ? ?]. simpl.
  destruct (f _ _); [done|].
  destruct (m !! _) as [[|c s]|]; try done.
  destruct (JSON_parse _) as [[]|]; done.
Qed.

Lemma new_with_persisted cfg host s xs :
  persisted host = Some s → s ≠ EmptyString →
  faults (localStorage host) (items (localStorage host))
    (GetItem (EventQueue.storage +:+ "events")) = None →
  JSON_parse s = Normal (JArr xs) →
  events (EventQueue.new cfg host) = xs.
Proof.
  unfold persisted. intros L NE F Pa.
  unfold EventQueue.new, EventQueue.constructor, EventQueue.loadPersistedEvents.
  cbv [bind]. rewrite get_eq. simpl. rewrite F, L.
  destruct s as [|c s]; [done|]. by rewrite Pa.
Qed.

Lemma run_synced ls cfg host w :
  persisted host = None → healthy (localStorage host) → arrays_serialise →
  run ls (EventQueue.new cfg host) = Some w →
  synced w ∧ healthy (localStorage w).
Proof.
  intros N Hh Hs.
  assert (S0 : synced (EventQueue.new cfg host)).
  { left. split; [by apply new_without_persisted|].
    unfold persisted. by rewrite new_storage. }
  assert (Hh0 : healthy (localStorage (EventQueue.new cfg host))).
  { by rewrite new_storage. }
  revert S0 Hh0. generalize (EventQueue.new cfg host). clear N Hh.
  induction ls as [|l ls IH]; intros v Sv Hv R; simpl in R.
  - by injection R as <-.
  - destruct (step l v) as [v1|] eqn:S; [|done].
    apply (IH v1); [by eapply step_synced| |done].
    destruct (step_frame _ _ _ S) as (_ & _ & F & _).
    intros m c. unfold healthy in Hv. by rewrite F.
Qed.

(** X6. The slot mirrors the pending sequence.  On a storage that does
    not throw and was empty at construction, with [JSON.stringify]
    defined on arrays, in every state the queue reaches the stored item
    is the serialised pending sequence (or nothing is stored and nothing
    is pending).  The batch in flight is not part of it. *)
Theorem slot_mirrors_pending (ls : list Label) (cfg : Config) (host w : World) :
  persisted host = None → healthy (localStorage host) → arrays_serialise →
  run ls (EventQueue.new cfg host) = Some w →
  (events w = [] ∧ persisted w = None) ∨
  (∃ s, JSON_stringify (JArr (events w)) = Normal s ∧ persisted w = Some s).
Proof.
  intros N Hh Hs R. by destruct (run_synced ls cfg host w N Hh Hs R) as [Sy _].
Qed.

(** X7. Reload.  Under the same conditions, if the serialised pending
    sequence parses back to itself, a queue constructed over the storage
    of any reachable state starts with exactly the events that were
    pending there -- and so without the batch that was in flight. *)
Theorem reload_restores_pending (ls : list Label) (cfg cfg' : Config)
    (host w : World) :
  persisted host = None → healthy (localStorage host) → arrays_serialise →
  run ls (EventQueue.new cfg host) = Some w →
  (∀ s, JSON_stringify (JArr (events w)) = Normal s →
        s ≠ EmptyString ∧ JSON_parse s = Normal (JArr (events w))) →
  events (EventQueue.new cfg' w) = events w.
Proof.
  intros N Hh Hs R RT.
  destruct (run_synced ls cfg host w N Hh Hs R) as [[[E P]|(s & Es & P)] Hw].
  - rewrite E. by apply new_without_persisted.
  - destruct (RT s Es) as [NE Pa].
    by apply (new_with_persisted cfg' w s).
Qed.

(** X8. The constructor never throws and leaves an idle queue with the
    given configuration, a live timer, the unload listener registered and
    the storage as it found it.  Its pending sequence is the stored array
    when the stored item is a non-empty text that parses to an array;
    there is no other source of initial events, so an unreadable storage,
    a missing or empty item, malformed JSON or a non-array value all give
    an empty queue. *)
Theorem constructor_starts_idle (cfg : Config) (host : World) :
  let w := EventQueue.new cfg host in
  (∃ w', EventQueue.constructor (EventQueue.init cfg host) = (Normal tt, w')) ∧
  config w = cfg ∧ isProcessing w = false ∧ awaiting w = [] ∧
  onFlush_calls w = [] ∧ timer_armed w = true ∧ unload_listener w = true ∧
  localStorage w = localStorage host ∧
  (∀ s xs, persisted host = Some s → s ≠ EmptyString →
           faults (localStorage host) (items (localStorage host))
             (GetItem (EventQueue.storage +:+ "events")) = None →
           JSON_parse s = Normal (JArr xs) → events w = xs) ∧
  (events w ≠ [] →
   ∃ s, persisted host = Some s ∧ JSON_parse s = Normal (JArr (events w))).
Proof.
  intros w. subst w.
  destruct (new_fields cfg host) as (C & P & A & O & _).
  destruct (new_timer cfg host) as (h & T & NZ & In & U).
  split_and!; try done.
  - unfold EventQueue.constructor, EventQueue.loadPersistedEvents. cbv [bind].
    destruct (get_slot_only EventQueue.storage "events" (EventQueue.init cfg host))
      as (v & its & con & ->).
    destruct v; simpl; eauto.
  - unfold timer_armed. rewrite T. by apply bool_decide_eq_true.
  - apply new_storage.
  - intros s xs. apply new_with_persisted.
  - unfold EventQueue.new, EventQueue.constructor, EventQueue.loadPersistedEvents.
    cbv [bind]. rewrite get_eq. unfold persisted. simpl.
    destruct (faults _ _ _); [done|].
    destruct (_ !! _) as [[|c s]|]; try done.
    destruct (JSON_parse _) as [v|] eqn:Pa; [|done].
    destruct v; try done. simpl. intros _. by exists (String c s).
Qed.

(** X24. The [beforeunload] listener only reports.  It is registered for
    the life of the page -- [destroy()] does not remove it -- and when the
    page goes away it hands the serialised pending events to [sendBeacon]
    without taking them out of the queue or of the slot and without
    calling the sender; the batch in flight is not part of the beacon.
    With nothing pending, or when they cannot be serialised, no beacon is
    sent. *)
Theorem unload_beacons_without_dequeuing (w : World) :
  reachable w →
  ∃ w', step BeforeUnload w = Some w' ∧
        memory w' = memory w ∧ localStorage w' = localStorage w ∧
        console w' = console w ∧
        onFlush_calls w' = onFlush_calls w ∧ awaiting w' = awaiting w ∧
        settled w' = settled w ∧
        (events w = [] → beacons w' = beacons w) ∧
        (∀ e, JSON_stringify (JObj [("events", JArr (events w))]) = Throw e →
              beacons w' = beacons w) ∧
        (∀ blob, events w ≠ [] →
                 JSON_stringify (JObj [("events", JArr (events w))]) = Normal blob →
                 beacons w' = beacons w ++ [blob]).
Proof.
  intros (cfg & host & ls & R).
  destruct (new_timer cfg host) as (h & _ & _ & _ & U).
  destruct (run_frame _ _ _ R) as (_ & _ & _ & U' & _).
  unfold step, dispatch. rewrite U', U. simpl.
  unfold EventQueue.beforeunload_listener, bind, get_world, lift.
  destruct (events w) as [|x xs] eqn:E; simpl.
  - exists w. by split_and!.
  - destruct (JSON_stringify _) as [blob|err] eqn:J; simpl.
    + eexists. split; [reflexivity|]. simpl.
      split_and!; try done. by intros blob' _ [= ->].
    + exists w. by split_and!.
Qed.

End QueueExtras.

(** ** Further properties of the durable slot *)

Section StorageExtras.
Context `{JSON}.

Lemma prefix_app p q k :
  String.prefix p q = true → String.prefix p (q +:+ k) = true.
Proof.
  revert q. induction p as [|a p IH]; intros q.
  { intros _. by destruct (q +:+ k). }
  destruct q as [|b q]; simpl; [done|].
  destruct (Ascii.ascii_dec a b); [apply IH|done].
Qed.

(** X9. Write then read.  On a storage that does not throw, for a value
    whose serialisation is a non-empty text that parses back to it, [set]
    returns true and a following [get] returns the value, logging nothing.
    A slot is addressed by the concatenation of prefix and key alone: the
    read may go through another prefix and key with the same
    concatenation. *)
Theorem set_get_round_trip (p1 k1 p2 k2 : string) (v : JsValue) (s : string)
    (w : World) :
  healthy (localStorage w) →
  p1 +:+ k1 = p2 +:+ k2 →
  JSON_stringify v = Normal s → s ≠ EmptyString → JSON_parse s = Normal v →
  ∃ w1 w2, Storage.set p1 k1 v w = (Normal true, w1) ∧
           Storage.get p2 k2 w1 = (Normal v, w2) ∧
           console w2 = console w ∧ memory w2 = memory w.
Proof.
  intros Hh K S NE P. rewrite set_eq, S, Hh.
  eexists _, _. split; [reflexivity|].
  rewrite get_eq. simpl. rewrite Hh, <- K, lookup_insert_eq.
  destruct s as [|c s]; [done|]. rewrite P. by split_and!.
Qed.

(** X10. Writing one slot leaves every other slot as it was: after [set]
    on one prefix and key, [get] on a prefix and key with a different
    concatenation returns what it returned before -- in particular on the
    same prefix with a different key -- whether or not the write
    succeeded. *)
Theorem set_leaves_other_slots (p1 k1 p2 k2 : string) (v : JsValue) (w : World) :
  healthy (localStorage w) →
  (p1 +:+ k1 ≠ p2 +:+ k2 →
   (Storage.get p2 k2 (Storage.set p1 k1 v w).2).1 = (Storage.get p2 k2 w).1) ∧
  (k1 ≠ k2 →
   (Storage.get p1 k2 (Storage.set p1 k1 v w).2).1 = (Storage.get p1 k2 w).1).
Proof.
  intros Hh.
  assert (G : ∀ p k, p1 +:+ k1 ≠ p +:+ k →
              (Storage.get p k (Storage.set p1 k1 v w).2).1 = (Storage.get p k w).1).
  { intros p k NK. rewrite set_eq, !get_eq.
    destruct (JSON_stringify v) as [s|e]; simpl; repeat (rewrite Hh; simpl).
    - rewrite lookup_insert_ne by done.
      destruct (items (localStorage w) !! (p +:+ k)) as [[|c s']|]; try done.
      by destruct (JSON_parse (String c s')).
    - destruct (items (localStorage w) !! (p +:+ k)) as [[|c s']|]; try done.
      by destruct (JSON_parse (String c s')). }
  split; [apply G|].
  intros NK. apply G. intros E. by apply String.app_inj in E.
Qed.

(** X11. After [remove], the key reads as absent: on a storage that does
    not throw, [remove] returns true whether or not the key was there, a
    following [get] returns null, and nothing is logged. *)
Theorem remove_then_get_is_null (prefix key : string) (w : World) :
  healthy (localStorage w) →
  ∃ w1 w2, Storage.remove prefix key w = (Normal true, w1) ∧
           Storage.get prefix key w1 = (Normal JNull, w2) ∧
           console w2 = console w ∧
           items (localStorage w2) = delete (prefix +:+ key) (items (localStorage w)).
Proof.
  intros Hh. rewrite remove_eq, Hh.
  eexists _, _. split; [reflexivity|].
  rewrite get_eq. simpl. rewrite Hh, lookup_delete_eq. by split_and!.
Qed.

(** X12. A missing item and an empty item both read as null, silently:
    when [getItem] does not throw and the stored item is absent or the
    empty string, [get] returns null without calling [JSON.parse] and
    without logging; a non-empty item that does not parse also reads as
    null, but the error is logged. *)
Theorem get_absent_or_unreadable (prefix key : string) (w : World) :
  faults (localStorage w) (items (localStorage w))
    (GetItem (prefix +:+ key)) = None →
  ∃ v w', Storage.get prefix key w = (Normal v, w') ∧
    (items (localStorage w) !! (prefix +:+ key) = None ∨
     items (localStorage w) !! (prefix +:+ key) = Some EmptyString →
     v = JNull ∧ console w' = console w) ∧
    (∀ s e, items (localStorage w) !! (prefix +:+ key) = Some s →
            s ≠ EmptyString → JSON_parse s = Throw e →
            v = JNull ∧ console w' = console w ++ [("Storage get error:", e)]).
Proof.
  intros F. rewrite get_eq, F.
  destruct (_ !! _) as [[|c s]|] eqn:L.
  - eexists _, _. split; [reflexivity|]. split; [done|].
    by intros s e [= <-].
  - destruct (JSON_parse (String c s)) as [v|e] eqn:P.
    + eexists _, _. split; [reflexivity|].
      split; [by intros [|]|]. intros s' e [= <-] _. by rewrite P.
    + eexists _, _. split; [reflexivity|].
      split; [by intros [|]|]. intros s' e' [= <-] _. rewrite P. by intros [= <-].
  - eexists _, _. split; [reflexivity|]. split; [done|]. done.
Qed.

(** X13. [clear] erases by textual prefix, among the keys that
    [Object.keys] lists.  When keys can be listed and removed, [clear]
    returns true and logs nothing; it removes every key that starts with
    the prefix, except a key named like an inherited member of the storage
    object ([toString], [length], ...), which is not listed and stays; no
    other key is touched.  Hence a [Storage] whose prefix is the beginning
    of another one's erases the other's slots too: the facade's storage,
    on [analytics_], wipes the queue's persisted events, kept under
    [analytics_queue_]. *)
Theorem clear_erases_by_textual_prefix (prefix : string) (w : World) :
  erasable (localStorage w) →
  ∃ w', Storage.clear prefix w = (Normal true, w') ∧
        console w' = console w ∧ memory w' = memory w ∧
        (∀ key, String.prefix prefix key = true →
                key ∉ Storage_prototype_names →
                items (localStorage w') !! key = None) ∧
        (∀ key, String.prefix prefix key = false ∨
                key ∈ Storage_prototype_names →
                items (localStorage w') !! key = items (localStorage w) !! key) ∧
        (∀ longer key, String.prefix prefix longer = true →
                       longer +:+ key ∉ Storage_prototype_names →
                       items (localStorage w') !! (longer +:+ key) = None) ∧
        (prefix = "analytics_" → persisted w' = None).
Proof.
  intros Er. rewrite clear_ok by done.
  eexists. split; [reflexivity|]. simpl.
  assert (Gone : ∀ key, String.prefix prefix key = true →
            key ∉ Storage_prototype_names →
            erase prefix (own_keys (items (localStorage w)))
              (items (localStorage w)) !! key = None).
  { intros key Pk Own. destruct (items (localStorage w) !! key) as [v|] eqn:L.
    - apply erase_prefixed; [done|].
      apply own_keys_elem. split; [done|by exists v].
    - by apply erase_absent. }
  split_and!; try done.
  - intros key [Pk|Sh]; [by apply erase_other|].
    apply erase_unlisted. intros In%own_keys_elem. by destruct In.
  - intros longer key Pl. by apply Gone, prefix_app.
  - intros ->. unfold persisted. simpl. apply Gone; [done|].
    by apply (bool_decide_unpack _).
Qed.

End StorageExtras.

(** ** The validators *)

Lemma trimStart_cases s :
  (trimStart s = EmptyString ∧ ¬ visible s) ∨
  (∃ c t, trimStart s = String c t ∧ is_white_space c = false ∧ visible s).
Proof.
  induction s as [|c s IH]; simpl.
  - left. split; [done|]. intros (c & In & _). by apply elem_of_nil in In.
  - destruct (is_white_space c) eqn:W.
    + destruct IH as [[E NV]|(c' & t & E & W' & V)].
      * left. split; [done|]. intros (x & In & Wx).
        apply elem_of_cons in In as [->|In]; [congruence|].
        apply NV. by exists x.
      * right. exists c', t. split_and!; [done|done|].
        destruct V as (x & In & Wx). exists x. split; [|done].
        apply elem_of_cons. by right.
    + right. exists c, s. split_and!; [done|done|].
      exists c. split; [|done]. apply elem_of_cons. by left.
Qed.

Lemma trimEnd_head c t :
  is_white_space c = false → trimEnd (String c t) ≠ EmptyString.
Proof. intros W. simpl. destruct (trimEnd t); by rewrite ?W. Qed.

Lemma trim_empty_iff s : trim s = EmptyString ↔ ¬ visible s.
Proof.
  unfold trim. destruct (trimStart_cases s) as [[E NV]|(c & t & E & W & V)].
  - by rewrite E.
  - rewrite E. split; [|done]. intros T. by apply trimEnd_head in T.
Qed.

Lemma blank_false v :
  blank v = false ↔ ∃ s, v = JStr s ∧ visible s.
Proof.
  unfold blank. destruct v as [| | | |s| |]; simpl; rewrite ?orb_true_r; simpl;
    try (split; [done|by intros (s' & ? & _)]).
  split.
  - intros B. apply orb_false_iff in B as [_ B].
    exists s. split; [done|].
    destruct (String.eqb_spec (trim s) EmptyString) as [|NE]; [done|].
    destruct (trimStart_cases s) as [[E _]|(c & t & _ & _ & V)]; [|done].
    unfold trim in NE. by rewrite E in NE.
  - intros (s' & [= <-] & V).
    assert (NE : trim s ≠ EmptyString) by (by rewrite trim_empty_iff; intros NV).
    destruct (String.eqb_spec (trim s) EmptyString) as [|_]; [done|].
    destruct V as (c & In & W). destruct s as [|a s]; [by apply elem_of_nil in In|].
    done.
Qed.

Lemma present_but_not_false t v :
  present_but_not t v = false ↔ (truthy v = true → typeof v = t).
Proof.
  unfold present_but_not. destruct (truthy v); simpl; [|done].
  destruct (String.eqb_spec (typeof v) t); simpl; split; auto; try done.
  intros E. by specialize (E eq_refl).
Qed.

(** X14. [validateEvent] never throws and touches nothing but the console.
    It accepts exactly the objects whose [name] is a string with a
    character that is not white space and whose [properties], when truthy,
    are an object (an array counts; falsy values such as 0, the empty
    string, false or null pass unexamined).  Acceptance logs nothing; a
    rejection logs at most one message. *)
Theorem validateEvent_accepts_iff (event : JsValue) (w : World) :
  ∃ b w', validateEvent event w = (Normal b, w') ∧
    memory w' = memory w ∧ localStorage w' = localStorage w ∧
    (b = true → w' = w) ∧
    (console w' = console w ∨ ∃ msg, console w' = console w ++ [(msg, EmptyString)]) ∧
    (b = true ↔
     ∃ fields s, event = JObj fields ∧
       get_field "name" fields = JStr s ∧ visible s ∧
       (truthy (get_field "properties" fields) = true →
        typeof (get_field "properties" fields) = "object")).
Proof.
  unfold validateEvent.
  destruct event as [| |b|n|s|xs|fields]; simpl;
    try (eexists _, _; split; [reflexivity|]; split_and!; try done;
         try (by left); split; [done|by intros (? & ? & ? & _)]).
  - destruct b; simpl; eexists _, _; (split; [reflexivity|]); split_and!;
      try done; try (by left); split; try done; by intros (? & ? & ? & _).
  - destruct (negb (n =? 0)); simpl; eexists _, _; (split; [reflexivity|]);
      split_and!; try done; try (by left); split; try done;
      by intros (? & ? & ? & _).
  - destruct (negb (String.eqb s "")); simpl; eexists _, _;
      (split; [reflexivity|]); split_and!; try done; try (by left);
      split; try done; by intros (? & ? & ? & _).
  - eexists _, _. split; [reflexivity|]. split_and!; try done; [by right; eexists|].
    split; [done|by intros (? & ? & ? & _)].
  - destruct (blank (get_field "name" fields)) eqn:B.
    + eexists _, _. split; [reflexivity|]. split_and!; try done; [by right; eexists|].
      split; [done|]. intros (f & s & [= <-] & N & V & _).
      assert (blank (get_field "name" fields) = false); [|congruence].
      apply blank_false. by exists s.
    + apply blank_false in B as (s & N & V).
      destruct (present_but_not "object" (get_field "properties" fields)) eqn:Pr.
      * eexists _, _. split; [reflexivity|].
        split_and!; try done; [by right; eexists|].
        split; [done|]. intros (f & s' & [= <-] & _ & _ & Ok).
        apply present_but_not_false in Ok. congruence.
      * eexists _, _. split; [reflexivity|]. split_and!; try done; [by left|].
        split; [|done]. intros _. exists fields, s. split_and!; try done.
        by apply present_but_not_false.
Qed.

(** X15. [validateUser] never throws and touches nothing but the console.
    It accepts exactly the objects whose [id] is a string with a character
    that is not white space, whose [email], when truthy, is a string, and
    whose [properties], when truthy, are an object; the [name] field is
    not examined at all. *)
Theorem validateUser_accepts_iff (user : JsValue) (w : World) :
  ∃ b w', validateUser user w = (Normal b, w') ∧
    memory w' = memory w ∧ localStorage w' = localStorage w ∧
    (b = true → w' = w) ∧
    (b = true ↔
     ∃ fields s, user = JObj fields ∧
       get_field "id" fields = JStr s ∧ visible s ∧
       (truthy (get_field "email" fields) = true →
        typeof (get_field "email" fields) = "string") ∧
       (truthy (get_field "properties" fields) = true →
        typeof (get_field "properties" fields) = "object")).
Proof.
  unfold validateUser.
  destruct user as [| |b|n|s|xs|fields]; simpl;
    try (eexists _, _; split; [reflexivity|]; split_and!; try done;
         split; [done|by intros (? & ? & ? & _)]).
  - destruct b; simpl; eexists _, _; (split; [reflexivity|]); split_and!;
      try done; split; try done; by intros (? & ? & ? & _).
  - destruct (negb (n =? 0)); simpl; eexists _, _; (split; [reflexivity|]);
      split_and!; try done; split; try done; by intros (? & ? & ? & _).
  - destruct (negb (String.eqb s "")); simpl; eexists _, _;
      (split; [reflexivity|]); split_and!; try done;
      split; try done; by intros (? & ? & ? & _).
  - destruct (blank (get_field "id" fields)) eqn:B.
    + eexists _, _. split; [reflexivity|]. split_and!; try done.
      split; [done|]. intros (f & s & [= <-] & N & V & _).
      assert (blank (get_field "id" fields) = false); [|congruence].
      apply blank_false. by exists s.
    + apply blank_false in B as (s & N & V).
      destruct (present_but_not "string" (get_field "email" fields)) eqn:Em.
      { eexists _, _. split; [reflexivity|]. split_and!; try done.
        split; [done|]. intros (f & s' & [= <-] & _ & _ & Ok & _).
        apply present_but_not_false in Ok. congruence. }
      destruct (present_but_not "object" (get_field "properties" fields)) eqn:Pr.
      { eexists _, _. split; [reflexivity|]. split_and!; try done.
        split; [done|]. intros (f & s' & [= <-] & _ & _ & _ & Ok).
        apply present_but_not_false in Ok. congruence. }
      eexists _, _. split; [reflexivity|]. split_and!; try done.
      split; [|done]. intros _. exists fields, s.
      split_and!; try done; by apply present_but_not_false.
Qed.

Lemma array_index_pretty key n : array_index key = Some n → key = pretty n.
Proof.
  unfold array_index. destruct (String.eqb_spec (pretty (decimal key 0)) key) as [E|]; [|done].
  simpl. destruct (_ <? _)%N; [|done]. by intros [= <-].
Qed.

Lemma array_index_inj k1 k2 n :
  array_index k1 = Some n → array_index k2 = Some n → k1 = k2.
Proof. intros ->%array_index_pretty ->%array_index_pretty. done. Qed.

Lemma replace_field_keys key value fields :
  (replace_field key value fields).*1 = fields.*1.
Proof.
  induction fields as [|[k v] fields IH]; csimpl; [done|].
  destruct (String.eqb k key); csimpl; [done|]. by rewrite IH.
Qed.

Lemma insert_index_perm n key value fields :
  insert_index n key value fields ≡ₚ (key, value) :: fields.
Proof.
  induction fields as [|[k v] fields IH]; simpl; [done|].
  destruct (array_index k) as [m|]; [|done].
  destruct (m <? n)%N; [|done]. rewrite IH. apply Permutation_swap.
Qed.

Lemma set_field_keys key value fields :
  (set_field key value fields).*1
  ≡ₚ if bool_decide (key ∈ fields.*1) then fields.*1 else key :: fields.*1.
Proof.
  unfold set_field. case_bool_decide as In.
  - by rewrite replace_field_keys.
  - destruct (array_index key) as [n|].
    + by rewrite insert_index_perm.
    + rewrite fmap_app. csimpl. by rewrite Permutation_app_comm.
Qed.

Lemma set_field_nodup key value fields :
  NoDup fields.*1 → NoDup (set_field key value fields).*1.
Proof.
  intros ND. rewrite set_field_keys. case_bool_decide as In; [done|].
  by apply NoDup_cons.
Qed.

Lemma replace_field_elem key value fields kv :
  kv ∈ replace_field key value fields → kv = (key, value) ∨ kv ∈ fields.
Proof.
  induction fields as [|[k v] fields IH]; csimpl; [by right|].
  destruct (String.eqb_spec k key) as [->|NE].
  - intros [->|In]%elem_of_cons; [by left|]. right. apply elem_of_cons. by right.
  - intros [->|In]%elem_of_cons; [right; apply elem_of_cons; by left|].
    destruct (IH In) as [->|In']; [by left|]. right. apply elem_of_cons. by right.
Qed.

Lemma set_field_elem key value fields kv :
  kv ∈ set_field key value fields → kv = (key, value) ∨ kv ∈ fields.
Proof.
  unfold set_field. case_bool_decide as In.
  - apply replace_field_elem.
  - destruct (array_index key) as [n|].
    + rewrite insert_index_perm. by intros [->|?]%elem_of_cons; [left|right].
    + intros [?| ->%list_elem_of_singleton]%elem_of_app; [by right|by left].
Qed.

Lemma get_field_absent key (fields : list (string * JsValue)) :
  key ∉ fields.*1 → get_field key fields = JUndefined.
Proof.
  induction fields as [|[k v] fields IH]; csimpl; [done|].
  intros [NE N]%not_elem_of_cons.
  destruct (String.eqb_spec k key) as [->|_]; [done|]. by apply IH.
Qed.

Lemma get_field_app key (l1 l2 : list (string * JsValue)) :
  get_field key (l1 ++ l2)
  = if bool_decide (key ∈ l1.*1) then get_field key l1 else get_field key l2.
Proof.
  induction l1 as [|[k v] l1 IH]; csimpl; [done|].
  destruct (String.eqb_spec k key) as [->|NE].
  - rewrite bool_decide_eq_true_2; [done|]. apply elem_of_cons. by left.
  - rewrite IH. case_bool_decide as In.
    + rewrite bool_decide_eq_true_2; [done|]. apply elem_of_cons. by right.
    + rewrite bool_decide_eq_false_2; [done|].
      intros [E|In']%elem_of_cons; [congruence|done].
Qed.

Lemma get_field_replace key key' value fields :
  key ∈ fields.*1 →
  get_field key' (replace_field key value fields)
  = if String.eqb key key' then value else get_field key' fields.
Proof.
  induction fields as [|[k v] fields IH]; csimpl.
  - by intros ?%elem_of_nil.
  - intros In. destruct (String.eqb_spec k key) as [->|NE]; simpl.
    + by destruct (String.eqb_spec key key').
    + apply elem_of_cons in In as [E|In]; [congruence|].
      rewrite IH by done.
      destruct (String.eqb_spec k key') as [->|NE'];
        destruct (String.eqb_spec key key'); congruence.
Qed.

Lemma get_field_insert n key key' value fields :
  key ∉ fields.*1 →
  get_field key' (insert_index n key value fields)
  = if String.eqb key key' then value else get_field key' fields.
Proof.
  induction fields as [|[k v] fields IH]; csimpl; [done|].
  intros [NE N]%not_elem_of_cons.
  destruct (array_index k) as [m|]; [|done].
  destruct (m <? n)%N; [|done]. simpl. rewrite IH by done.
  destruct (String.eqb_spec k key') as [->|NE'];
    destruct (String.eqb_spec key key'); congruence.
Qed.

Lemma get_field_set key key' value fields :
  get_field key' (set_field key value fields)
  = if String.eqb key key' then value else get_field key' fields.
Proof.
  unfold set_field. case_bool_decide as In.
  - by apply get_field_replace.
  - destruct (array_index key) as [n|].
    + by apply get_field_insert.
    + rewrite get_field_app. simpl.
      destruct (String.eqb_spec key key') as [<-|NE].
      * by rewrite bool_decide_eq_false_2.
      * case_bool_decide as In'; [done|]. symmetry. by apply get_field_absent.
Qed.

Lemma get_field_set_eq key value fields :
  get_field key (set_field key value fields) = value.
Proof. by rewrite get_field_set, String.eqb_refl. Qed.

Lemma get_field_set_ne key key' value fields :
  key ≠ key' →
  get_field key' (set_field key value fields) = get_field key' fields.
Proof. intros NE. rewrite get_field_set. by destruct (String.eqb_spec key key'). Qed.

Lemma enumerated_app_l l1 l2 : enumerated (l1 ++ l2) → enumerated l1.
Proof.
  induction l1 as [|k l1 IH]; simpl; [done|].
  intros [F E]. apply Forall_app in F as [F _]. auto.
Qed.

Lemma enumerated_remove l1 x l2 :
  enumerated (l1 ++ x :: l2) → enumerated (l1 ++ l2).
Proof.
  induction l1 as [|k l1 IH]; simpl; [by intros [_ E]|].
  intros [F E]. apply Forall_app in F as [F1 F2]. apply Forall_cons in F2 as [_ F2].
  split; [by apply Forall_app|auto].
Qed.

Lemma insert_index_last n key value fields :
  array_index key = Some n → key ∉ fields.*1 →
  enumerated (fields.*1 ++ [key]) →
  insert_index n key value fields = fields ++ [(key, value)].
Proof.
  intros K. induction fields as [|[k v] fields IH]; csimpl; [done|].
  intros [NE N]%not_elem_of_cons [F E].
  apply Forall_app in F as [_ F].
  apply (proj1 (Forall_singleton _ _)) in F.
  unfold enumerates_before in F. rewrite K in F.
  destruct (array_index k) as [m|]; [|done].
  destruct (N.ltb_spec m n); [|lia]. by rewrite IH.
Qed.

Lemma set_field_fresh key value fields :
  key ∉ fields.*1 → enumerated (fields.*1 ++ [key]) →
  set_field key value fields = fields ++ [(key, value)].
Proof.
  intros N E. unfold set_field. rewrite bool_decide_eq_false_2 by done.
  destruct (array_index key) as [n|] eqn:K; [|done].
  by apply insert_index_last.
Qed.

Lemma enumerates_before_trans k1 k2 k3 :
  enumerates_before k1 k2 → enumerates_before k2 k3 → enumerates_before k1 k3.
Proof.
  unfold enumerates_before.
  destruct (array_index k1), (array_index k2), (array_index k3); try done. lia.
Qed.

Lemma insert_index_enumerated n key value fields :
  array_index key = Some n → key ∉ fields.*1 →
  enumerated fields.*1 → enumerated (insert_index n key value fields).*1.
Proof.
  intros K. induction fields as [|[k v] fields IH]; csimpl; [done|].
  intros [NE N]%not_elem_of_cons [F E].
  assert (Later : enumerates_before key k →
                  enumerated (key :: k :: fields.*1)).
  { intros B. simpl. split_and!; [|done|done].
    apply Forall_cons. split; [done|].
    eapply Forall_impl; [exact F|]. intros x. by apply enumerates_before_trans. }
  destruct (array_index k) as [m|] eqn:Km.
  - destruct (N.ltb_spec m n) as [Lt|Ge]; csimpl.
    + split; [|by apply IH].
      apply Forall_forall. intros x In.
      assert (In' : x ∈ key :: fields.*1).
      { rewrite <- (fmap_cons fst (key, value)). 
        by rewrite <- (insert_index_perm n key value fields). }
      apply elem_of_cons in In' as [->|In'].
      * unfold enumerates_before. by rewrite Km, K.
      * by apply (proj1 (Forall_forall _ _) F).
    + apply Later. unfold enumerates_before. rewrite K, Km.
      assert (n ≠ m); [|lia]. intros ->. apply NE.
      by apply (array_index_inj _ _ m).
  - apply Later. unfold enumerates_before. by rewrite K, Km.
Qed.

Lemma enumerated_snoc keys key :
  array_index key = None → enumerated keys → enumerated (keys ++ [key]).
Proof.
  intros K. induction keys as [|k keys IH]; simpl; [done|].
  intros [F E]. split; [|auto].
  apply Forall_app. split; [done|]. apply Forall_singleton.
  unfold enumerates_before. rewrite K. by destruct (array_index k).
Qed.

Lemma set_field_enumerated key value fields :
  enumerated fields.*1 → enumerated (set_field key value fields).*1.
Proof.
  intros E. unfold set_field. case_bool_decide as In.
  - by rewrite replace_field_keys.
  - destruct (array_index key) as [n|] eqn:K.
    + by apply insert_index_enumerated.
    + rewrite fmap_app. by apply enumerated_snoc.
Qed.

Lemma filter_all {A} (P : A → Prop) `{∀ x, Decision (P x)} (l : list A) :
  (∀ x, x ∈ l → P x) → filter P l = l.
Proof.
  induction l as [|x l IH]; intros All; [done|].
  rewrite filter_cons_True by (apply All, elem_of_cons; by left).
  f_equal. apply IH. intros y In. apply All, elem_of_cons. by right.
Qed.

(** The loop of [sanitizeProperties] over entries in enumeration order. *)
Lemma sanitize_loop_nodup (acc fields : list (string * JsValue)) :
  NoDup (acc.*1 ++ fields.*1) → enumerated (acc.*1 ++ fields.*1) →
  foldl (fun sanitized '(key, value) =>
           if nullish value then sanitized else assign_field key value sanitized)
    acc fields
  = acc ++ filter (fun kv => kv.1 ≠ "__proto__" ∧ nullish kv.2 = false) fields.
Proof.
  revert acc. induction fields as [|[k v] fields IH]; intros acc ND En; csimpl.
  - by rewrite app_nil_r.
  - csimpl in ND. csimpl in En.
    assert (ND' : NoDup (acc.*1 ++ fields.*1)).
    { apply NoDup_app in ND as (NDa & Dis & NDf).
      apply NoDup_cons in NDf as [Nk NDf].
      apply NoDup_app. split_and!; [done| |done].
      intros x Ix Ix'. apply (Dis x Ix). apply elem_of_cons. by right. }
    pose proof (enumerated_remove _ _ _ En) as En'.
    assert (Skip : ¬ (k ≠ "__proto__" ∧ nullish v = false) →
              foldl (fun sanitized '(key, value) =>
                       if nullish value then sanitized
                       else assign_field key value sanitized) acc fields
              = acc ++ filter (fun kv => kv.1 ≠ "__proto__" ∧ nullish kv.2 = false)
                         ((k, v) :: fields)).
    { intros No. rewrite IH by done. by rewrite filter_cons_False. }
    destruct (nullish v) eqn:Nv; [apply Skip; by intros [_ ?]|].
    unfold assign_field.
    destruct (String.eqb_spec k "__proto__") as [->|NP];
      [apply Skip; by intros [? _]|].
    rewrite set_field_fresh.
    + rewrite IH.
      * rewrite filter_cons_True by done. by rewrite <- app_assoc.
      * rewrite fmap_app. csimpl. by rewrite <- app_assoc.
      * rewrite fmap_app. csimpl. by rewrite <- app_assoc.
    + apply NoDup_app in ND as (_ & Dis & _).
      intros In. apply (Dis k In). apply elem_of_cons. by left.
    + apply (enumerated_app_l _ fields.*1). by rewrite <- app_assoc.
Qed.

Lemma sanitize_loop_clean (acc fields : list (string * JsValue)) :
  NoDup acc.*1 → (∀ kv, kv ∈ acc → nullish kv.2 = false) →
  "__proto__" ∉ acc.*1 → enumerated acc.*1 →
  let r := foldl (fun sanitized '(key, value) =>
                    if nullish value then sanitized
                    else assign_field key value sanitized) acc fields in
  NoDup r.*1 ∧ (∀ kv, kv ∈ r → nullish kv.2 = false) ∧
  ("__proto__" ∉ r.*1) ∧ enumerated r.*1.
Proof.
  revert acc. induction fields as [|[k v] fields IH]; intros acc ND Cl NP En;
    csimpl.
  - done.
  - destruct (nullish v) eqn:Nv; [by apply IH|].
    unfold assign_field.
    destruct (String.eqb_spec k "__proto__") as [->|NK]; [by apply IH|].
    apply IH.
    + by apply set_field_nodup.
    + intros kv [->|In]%set_field_elem; [done|by apply Cl].
    + rewrite set_field_keys. case_bool_decide as In; [done|].
      intros [E|In']%elem_of_cons; [congruence|done].
    + by apply set_field_enumerated.
Qed.

(** X16. On an object, [sanitizeProperties] is a filter.  For fields
    listed as JavaScript enumerates them (array indices first, in
    ascending order, then the other names), it returns the properties
    whose value is neither null nor undefined, with their values, in the
    original order; falsy values such as 0, the empty string and false are
    kept.  A property named [__proto__] is the exception: assigning it
    sets the prototype of the result and creates no property, so it is
    dropped whatever its value. *)
Theorem sanitizeProperties_filters (fields : list (string * JsValue)) :
  NoDup fields.*1 → enumerated fields.*1 →
  sanitizeProperties (JObj fields)
  = JObj (filter (fun kv => kv.1 ≠ "__proto__" ∧ nullish kv.2 = false) fields).
Proof.
  intros ND En. unfold sanitizeProperties. simpl. f_equal.
  by rewrite sanitize_loop_nodup.
Qed.

(** X17. Whatever it is given, [sanitizeProperties] returns an object
    with distinct keys none of whose values is null or undefined; for a
    falsy argument (undefined, null, 0, the empty string, false) it is the
    empty object; and sanitizing its result again changes nothing. *)
Theorem sanitizeProperties_clean_and_idempotent (properties : JsValue) :
  ∃ fields, sanitizeProperties properties = JObj fields ∧
    NoDup fields.*1 ∧
    (∀ key value, (key, value) ∈ fields → value ≠ JNull ∧ value ≠ JUndefined) ∧
    (truthy properties = false → fields = []) ∧
    sanitizeProperties (JObj fields) = JObj fields.
Proof.
  unfold sanitizeProperties at 1.
  destruct (truthy properties) eqn:T; simpl.
  - eexists. split; [reflexivity|].
    destruct (sanitize_loop_clean [] (Object_entries properties))
      as (ND & Cl & NP & En);
      [apply NoDup_nil_2|by intros kv ?%elem_of_nil|by intros ?%elem_of_nil|done|].
    simpl in ND, Cl, NP, En. split_and!; [done| |done|].
    + intros key value In. apply Cl in In. simpl in In.
      by destruct value.
    + unfold sanitizeProperties. simpl. f_equal.
      rewrite sanitize_loop_nodup by (by simpl). simpl.
      apply filter_all. intros [k v] In. split; [|by apply Cl].
      simpl. intros ->. apply NP. apply list_elem_of_fmap. by exists ("__proto__", v).
  - exists []. split_and!; try done.
    + apply NoDup_nil_2.
    + by intros key value ?%elem_of_nil.
Qed.


(** ** The client *)

Lemma spread_loop_nodup (acc fields : list (string * JsValue)) :
  NoDup (acc.*1 ++ fields.*1) → enumerated (acc.*1 ++ fields.*1) →
  foldl (fun acc '(key, value) => set_field key value acc) acc fields
  = acc ++ fields.
Proof.
  revert acc. induction fields as [|[k v] fields IH]; intros acc ND En; csimpl.
  - by rewrite app_nil_r.
  - csimpl in ND. csimpl in En.
    rewrite set_field_fresh.
    + rewrite IH; [by rewrite <- app_assoc| |].
      * rewrite fmap_app. csimpl. by rewrite <- app_assoc.
      * rewrite fmap_app. csimpl. by rewrite <- app_assoc.
    + apply NoDup_app in ND as (_ & Dis & _).
      intros In. apply (Dis k In). apply elem_of_cons. by left.
    + apply (enumerated_app_l _ fields.*1). by rewrite <- app_assoc.
Qed.

Lemma spread_sanitized properties :
  JObj (spread (sanitizeProperties properties) []) = sanitizeProperties properties.
Proof.
  unfold sanitizeProperties. destruct (truthy properties); [|done].
  unfold spread. simpl. f_equal.
  destruct (sanitize_loop_clean [] (Object_entries properties))
    as (ND & _ & _ & En);
    [apply NoDup_nil_2|by intros kv ?%elem_of_nil|by intros ?%elem_of_nil|done|].
  by rewrite spread_loop_nodup.
Qed.

(** [validateEvent] on an event built by [track]: only the name matters. *)
Lemma validateEvent_built name props timestamp w :
  validateEvent
    (JObj [("name", JStr name); ("properties", JObj props);
           ("timestamp", timestamp)]) w
  = if blank (JStr name)
    then (Normal false,
          with_console
            (console w ++
             [("Event name is required and must be a non-empty string",
               EmptyString)]) w)
    else (Normal true, w).
Proof.
  unfold validateEvent, prop.
  change (negb (truthy (JObj _)) || _) with false.
  change (get_field "name" _) with (JStr name).
  change (present_but_not "object" (get_field "properties" _)) with false.
  by destruct (blank (JStr name)).
Qed.

Lemma validateUser_cases u w :
  (validateUser u w = (Normal true, w) ∧ ∃ fields, u = JObj fields) ∨
  (∃ con, validateUser u w = (Normal false, with_console con w)).
Proof.
  unfold validateUser.
  destruct (negb (truthy u) || negb (String.eqb (typeof u) "object")) eqn:O.
  { right. exists (console w). by destruct w. }
  destruct (blank (prop u "id")) eqn:B.
  { right. cbv [bind console_error1 console_error modify ret]. by eexists. }
  destruct (present_but_not "string" (prop u "email")).
  { right. cbv [bind console_error1 console_error modify ret]. by eexists. }
  destruct (present_but_not "object" (prop u "properties")).
  { right. cbv [bind console_error1 console_error modify ret]. by eexists. }
  left. split; [done|].
  destruct u as [| | | | |xs|fields]; try done. by eexists.
Qed.

Lemma get_field_elem key value fields :
  NoDup fields.*1 → (key, value) ∈ fields → get_field key fields = value.
Proof.
  induction fields as [|[k v] fields IH]; csimpl; intros ND In.
  - by apply elem_of_nil in In.
  - apply NoDup_cons in ND as [Nk ND].
    apply elem_of_cons in In as [[= -> ->]|In].
    + by rewrite String.eqb_refl.
    + destruct (String.eqb_spec k key) as [->|_]; [|by apply IH].
      exfalso. apply Nk. apply list_elem_of_fmap. by exists (key, value).
Qed.

(** The loop of a spread. *)
Lemma get_field_spread_loop key acc fields :
  NoDup fields.*1 →
  get_field key
    (foldl (fun acc '(key, value) => set_field key value acc) acc fields)
  = if bool_decide (key ∈ fields.*1) then get_field key fields
    else get_field key acc.
Proof.
  revert acc. induction fields as [|[k v] fields IH]; intros acc ND; [done|].
  csimpl in ND. apply NoDup_cons in ND as [Nk ND]. csimpl.
  rewrite IH by done.
  destruct (String.eqb_spec k key) as [->|NE].
  - rewrite bool_decide_eq_false_2 by done.
    rewrite bool_decide_eq_true_2 by (apply elem_of_cons; by left).
    apply get_field_set_eq.
  - case_bool_decide as In.
    + rewrite bool_decide_eq_true_2; [done|]. apply elem_of_cons. by right.
    + rewrite bool_decide_eq_false_2.
      * by apply get_field_set_ne.
      * intros [E|In']%elem_of_cons; [congruence|done].
Qed.

Lemma spread_loop_keys acc fields :
  NoDup acc.*1 →
  NoDup (foldl (fun acc '(key, value) => set_field key value acc) acc fields).*1.
Proof.
  revert acc. induction fields as [|[k v] fields IH]; intros acc ND; [done|].
  csimpl. apply IH. by apply set_field_nodup.
Qed.

(** The loop of [sanitizeProperties], property by property. *)
Lemma get_field_sanitize_loop key acc fields :
  NoDup fields.*1 →
  get_field key
    (foldl (fun sanitized '(key, value) =>
              if nullish value then sanitized
              else assign_field key value sanitized) acc fields)
  = if bool_decide (key ∈ fields.*1) && negb (nullish (get_field key fields))
       && negb (String.eqb key "__proto__")
    then get_field key fields else get_field key acc.
Proof.
  revert acc. induction fields as [|[k v] fields IH]; intros acc ND; [done|].
  csimpl in ND. apply NoDup_cons in ND as [Nk ND]. csimpl.
  rewrite IH by done.
  destruct (String.eqb_spec k key) as [->|NE].
  - rewrite bool_decide_eq_false_2 by done.
    rewrite bool_decide_eq_true_2 by (apply elem_of_cons; by left).
    simpl. destruct (nullish v); [done|]. unfold assign_field.
    destruct (String.eqb key "__proto__"); [done|]. apply get_field_set_eq.
  - assert (Acc : get_field key
                    (if nullish v then acc else assign_field k v acc)
                  = get_field key acc).
    { destruct (nullish v); [done|]. unfold assign_field.
      destruct (String.eqb k "__proto__"); [done|]. by apply get_field_set_ne. }
    case_bool_decide as In.
    + rewrite bool_decide_eq_true_2 by (apply elem_of_cons; by right).
      simpl. by destruct (_ && _).
    + rewrite bool_decide_eq_false_2; [done|].
      intros [E|In']%elem_of_cons; [congruence|done].
Qed.

(** A property of a sanitized object. *)
Lemma sanitized_field key fields :
  NoDup fields.*1 →
  prop (sanitizeProperties (JObj fields)) key
  = if String.eqb key "__proto__" || nullish (get_field key fields)
    then JUndefined else get_field key fields.
Proof.
  intros ND. unfold sanitizeProperties. simpl.
  rewrite get_field_sanitize_loop by done. simpl.
  case_bool_decide as In.
  - simpl. destruct (nullish (get_field key fields)); simpl;
      [by rewrite orb_true_r|].
    rewrite orb_false_r. by destruct (String.eqb key "__proto__").
  - simpl. rewrite (get_field_absent key fields) by done. simpl.
    by rewrite orb_true_r.
Qed.

Lemma substring_prefix m s :
  String.prefix (String.substring 0 m s) s = true ∧
  String.length (String.substring 0 m s) = (m `min` String.length s)%nat.
Proof.
  revert s. induction m as [|m IH]; intros [|c s]; simpl; try done.
  destruct (IH s) as [P L].
  destruct (Ascii.ascii_dec c c); [|done]. by rewrite L.
Qed.

Section ClientFacts.
Context `{JSON} `{Engine}.

(** The event that [track] builds. *)
Lemma track_cases env eventName properties s :
  ∃ fields,
    let props :=
      set_field "userAgent" (JStr (userAgent env))
        (set_field "referrer" (JStr (referrer env))
          (set_field "url" (JStr (href env))
            (set_field "sessionId" (JStr (sessionId s))
              (set_field "userId" (AnalyticsClient.user_id s) fields)))) in
    let event :=
      JObj [("name", JStr eventName); ("properties", JObj props);
            ("timestamp", JNum (now env))] in
    sanitizeProperties properties = JObj fields ∧
    if blank (JStr eventName) then
      AnalyticsClient.track env eventName properties s
      = (Throw "Invalid event data",
         with_queue
           (with_console
              (console (queue s) ++
               [("Event name is required and must be a non-empty string",
                 EmptyString)]) (queue s)) s)
    else
      AnalyticsClient.track env eventName properties s
      = AnalyticsClient.log [JStr "Event tracked:"; event]
          (with_queue (EventQueue.add event (queue s)).2 s).
Proof.
  exists (spread (sanitizeProperties properties) []).
  cbv zeta. split; [by rewrite spread_sanitized|].
  destruct (blank (JStr eventName)) eqn:B;
    unfold AnalyticsClient.track, sbind at 1, sget;
    unfold sbind at 1, on_queue at 1;
    rewrite validateEvent_built, B.
  - reflexivity.
  - cbv beta iota delta [negb sbind on_queue]. cbn [queue with_queue].
    match goal with |- context [EventQueue.add ?e] => set (event := e) end.
    rewrite add_eq. cbv zeta.
    destruct (persistEvents_shape
                (with_events (events (queue s) ++ [event]) (queue s)))
      as (its & con & ->). cbn [snd].
    destruct (_ <=? _).
    + pose proof (flush_normal FromAdd
                    (with_console con (with_items its
                       (with_events (events (queue s) ++ [event]) (queue s))))) as N.
      destruct (EventQueue.flush _ _) as [r w']. simpl in N. by subst r.
    + reflexivity.
Qed.

Lemma log_shape args s :
  ∃ l, AnalyticsClient.log args s = (Normal tt, with_console_log l s).
Proof.
  unfold AnalyticsClient.log. destruct (debug (sdk_config s)); [by eauto|].
  exists (console_log s). by destruct s.
Qed.

Lemma blank_visible name : blank (JStr name) = false ↔ visible name.
Proof.
  rewrite blank_false. split; [by intros (s & [= <-] & V)|].
  intros V. by exists name.
Qed.

(** X18. [track] validates before it enqueues.  A name without a visible
    character makes it throw [Invalid event data]: nothing is added,
    persisted or sent, and the client's user and session are unchanged.
    Otherwise it returns normally after exactly one [add] of an event with
    that name and the current time, whose properties carry the client's
    session id, page url, referrer, user agent and user id -- these five
    win over properties of the same name given by the caller -- and
    otherwise the caller's properties as [sanitizeProperties] leaves
    them. *)
Theorem track_validates_then_enqueues (env : Env) (eventName : string)
    (properties : JsValue) (s : Sdk) :
  (¬ visible eventName →
   ∃ s', AnalyticsClient.track env eventName properties s
         = (Throw "Invalid event data", s') ∧
         user s' = user s ∧ sessionId s' = sessionId s ∧
         console_log s' = console_log s ∧
         memory (queue s') = memory (queue s) ∧
         localStorage (queue s') = localStorage (queue s) ∧
         onFlush_calls (queue s') = onFlush_calls (queue s) ∧
         awaiting (queue s') = awaiting (queue s)) ∧
  (visible eventName →
   ∃ event s', AnalyticsClient.track env eventName properties s = (Normal tt, s') ∧
     queue s' = (EventQueue.add event (queue s)).2 ∧
     user s' = user s ∧ sessionId s' = sessionId s ∧
     prop event "name" = JStr eventName ∧
     prop event "timestamp" = JNum (now env) ∧
     prop (prop event "properties") "sessionId" = JStr (sessionId s) ∧
     prop (prop event "properties") "url" = JStr (href env) ∧
     prop (prop event "properties") "referrer" = JStr (referrer env) ∧
     prop (prop event "properties") "userAgent" = JStr (userAgent env) ∧
     prop (prop event "properties") "userId" = AnalyticsClient.user_id s ∧
     ∀ key, key ∉ ["userId"; "sessionId"; "url"; "referrer"; "userAgent"] →
            prop (prop event "properties") key
            = prop (sanitizeProperties properties) key).
Proof.
  destruct (track_cases env eventName properties s) as (fields & San & T).
  cbv zeta in T. split.
  - intros NV. destruct (blank (JStr eventName)) eqn:B.
    + rewrite T. eexists. split; [reflexivity|]. by split_and!.
    + by apply blank_visible in B.
  - intros V. apply blank_visible in V. rewrite V in T. rewrite T.
    match goal with |- context [EventQueue.add ?e] => set (event := e) end.
    destruct (log_shape [JStr "Event tracked:"; event]
                (with_queue (EventQueue.add event (queue s)).2 s)) as (l & ->).
    exists event. eexists. split; [reflexivity|].
    split_and!; try done.
    + subst event. unfold prop.
      change (get_field "properties" _) with (JObj
        (set_field "userAgent" (JStr (userAgent env))
          (set_field "referrer" (JStr (referrer env))
            (set_field "url" (JStr (href env))
              (set_field "sessionId" (JStr (sessionId s))
                (set_field "userId" (AnalyticsClient.user_id s) fields)))))).
      cbv beta iota.
      rewrite !(get_field_set_ne _ "sessionId") by done.
      by rewrite get_field_set_eq.
    + subst event. unfold prop.
      change (get_field "properties" _) with (JObj
        (set_field "userAgent" (JStr (userAgent env))
          (set_field "referrer" (JStr (referrer env))
            (set_field "url" (JStr (href env))
              (set_field "sessionId" (JStr (sessionId s))
                (set_field "userId" (AnalyticsClient.user_id s) fields)))))).
      cbv beta iota.
      rewrite !(get_field_set_ne _ "url") by done.
      by rewrite get_field_set_eq.
    + subst event. unfold prop.
      change (get_field "properties" _) with (JObj
        (set_field "userAgent" (JStr (userAgent env))
          (set_field "referrer" (JStr (referrer env))
            (set_field "url" (JStr (href env))
              (set_field "sessionId" (JStr (sessionId s))
                (set_field "userId" (AnalyticsClient.user_id s) fields)))))).
      cbv beta iota.
      rewrite !(get_field_set_ne _ "referrer") by done.
      by rewrite get_field_set_eq.
    + subst event. unfold prop.
      change (get_field "properties" _) with (JObj
        (set_field "userAgent" (JStr (userAgent env))
          (set_field "referrer" (JStr (referrer env))
            (set_field "url" (JStr (href env))
              (set_field "sessionId" (JStr (sessionId s))
                (set_field "userId" (AnalyticsClient.user_id s) fields)))))).
      cbv beta iota.
      by rewrite get_field_set_eq.
    + subst event. unfold prop.
      change (get_field "properties" _) with (JObj
        (set_field "userAgent" (JStr (userAgent env))
          (set_field "referrer" (JStr (referrer env))
            (set_field "url" (JStr (href env))
              (set_field "sessionId" (JStr (sessionId s))
                (set_field "userId" (AnalyticsClient.user_id s) fields)))))).
      cbv beta iota.
      rewrite !(get_field_set_ne _ "userId") by done.
      by rewrite get_field_set_eq.
    + intros key NI. rewrite San. subst event. unfold prop.
      change (get_field "properties" _) with (JObj
        (set_field "userAgent" (JStr (userAgent env))
          (set_field "referrer" (JStr (referrer env))
            (set_field "url" (JStr (href env))
              (set_field "sessionId" (JStr (sessionId s))
                (set_field "userId" (AnalyticsClient.user_id s) fields)))))).
      cbv beta iota.
      apply not_elem_of_cons in NI as [N1 NI].
      apply not_elem_of_cons in NI as [N2 NI].
      apply not_elem_of_cons in NI as [N3 NI].
      apply not_elem_of_cons in NI as [N4 NI].
      apply not_elem_of_cons in NI as [N5 _].
      by rewrite !get_field_set_ne by done.
Qed.

(** [sendBatch], case by case. *)
Lemma sendBatch_shape env events outcome s :
  ∃ r con l reqs,
    AnalyticsClient.sendBatch env events outcome s
    = (r, with_requests reqs
            (with_console_log l (with_queue (with_console con (queue s)) s))) ∧
    (r = Normal tt ↔
     (∃ payload, JSON_stringify (JObj [("events", JArr events);
                                       ("timestamp", JNum (now env))])
                 = Normal payload) ∧
     acknowledged outcome = true) ∧
    (r = Normal tt → con = console (queue s)) ∧
    (∀ e, r = Throw e → con = console (queue s) ++ [("Failed to send events:", e)]) ∧
    (∀ payload response t,
       JSON_stringify (JObj [("events", JArr events); ("timestamp", JNum (now env))])
       = Normal payload →
       outcome = Responded response → ok response = false →
       text response = Normal t →
       r = Throw ("HTTP " +:+ pretty (status response) +:+ ": " +:+ t)).
Proof.
  unfold AnalyticsClient.sendBatch, stry_catch, sbind at 1, sget.
  unfold sbind at 1, AnalyticsClient.lift_completion.
  destruct (JSON_stringify _) as [payload|e] eqn:S.
  2:{ cbv [sbind on_queue console_error modify sthrow]. simpl.
      exists (Throw e), (console (queue s) ++ [("Failed to send events:", e)]),
        (console_log s), (requests s).
      split; [by destruct s|]. split_and!; try done.
      - split; [done|]. by intros [[? ?] _].
      - by intros e' [= <-]. }
  unfold sbind at 1, smodify.
  destruct outcome as [e|response].
  { cbv [sbind on_queue console_error modify sthrow]. simpl.
    eexists (Throw e), _, (console_log s), _.
    split; [reflexivity|]. split_and!; try done.
    - split; [done|]. by intros [_ ?].
    - by intros e' [= <-]. }
  unfold acknowledged.
  destruct (ok response) eqn:Ok; cbn [negb andb].
  - unfold sbind at 1.
    destruct (json response) as [result|e] eqn:J.
    2:{ cbv [sbind on_queue console_error modify sthrow]. simpl.
        eexists (Throw e), _, (console_log s), _.
        split; [reflexivity|]. split_and!; try done.
        - split; [done|]. by intros [_ ?].
        - by intros e' [= <-].
        - intros ? ? ? _ [= <-]. congruence. }
    destruct (success result) eqn:Su; cbn [negb].
    + set (s1 := with_requests _ s).
      destruct (log_shape [JStr "Batch sent successfully:";
                           JNum (Z.of_nat (length events)); JStr "events"] s1)
        as (l & ->).
      exists (Normal tt), (console (queue s)), l, (requests s1).
      split; [subst s1; by destruct s as [? ? ? []]|].
      split_and!; try done.
      * split; [|done]. intros _. split; [by eexists|done].
      * intros ? ? ? _ [= <-]. congruence.
    + cbv [sbind on_queue console_error modify sthrow]. simpl.
      eexists (Throw _), _, (console_log s), _.
      split; [reflexivity|]. split_and!; try done.
      * split; [done|]. by intros [_ ?].
      * by intros e' [= <-].
      * intros ? ? ? _ [= <-]. congruence.
  - unfold sbind at 1.
    destruct (text response) as [t|e] eqn:Tx.
    + cbv [sbind on_queue console_error modify sthrow]. simpl.
      eexists (Throw _), _, (console_log s), _.
      split; [reflexivity|]. split_and!; try done.
      * split; [done|]. by intros [_ ?].
      * by intros e' [= <-].
      * intros ? ? t' _ [= <-] _ T'. rewrite Tx in T'. by injection T' as <-.
    + cbv [sbind on_queue console_error modify sthrow]. simpl.
      eexists (Throw e), _, (console_log s), _.
      split; [reflexivity|]. split_and!; try done.
      * split; [done|]. by intros [_ ?].
      * by intros e' [= <-].
      * intros ? ? t' _ [= <-] _ T'. congruence.
Qed.

(** X19. [sendBatch] keeps the contract the queue relies on.  Its promise
    resolves exactly when the batch could be serialised and the response
    is an acknowledgement (status ok, a body that parses, [success] true);
    in every other case -- network error, non-ok status, unreadable body,
    [success] false, serialisation failure -- it rejects, after logging
    the one error [Failed to send events:].  A non-ok status with readable
    text rejects with [HTTP status: text].  It never touches the queue's
    memory or the storage. *)
Theorem sendBatch_resolves_iff_acknowledged (env : Env) (events : list Event)
    (outcome : FetchOutcome) (s : Sdk) :
  ∃ r s', AnalyticsClient.sendBatch env events outcome s = (r, s') ∧
    user s' = user s ∧ sessionId s' = sessionId s ∧
    memory (queue s') = memory (queue s) ∧
    localStorage (queue s') = localStorage (queue s) ∧
    awaiting (queue s') = awaiting (queue s) ∧
    (r = Normal tt ↔
     (∃ payload, JSON_stringify (JObj [("events", JArr events);
                                       ("timestamp", JNum (now env))])
                 = Normal payload) ∧
     acknowledged outcome = true) ∧
    (r = Normal tt → console (queue s') = console (queue s)) ∧
    (∀ e, r = Throw e →
          console (queue s') = console (queue s) ++ [("Failed to send events:", e)]) ∧
    (∀ payload response t,
       JSON_stringify (JObj [("events", JArr events); ("timestamp", JNum (now env))])
       = Normal payload →
       outcome = Responded response → ok response = false →
       text response = Normal t →
       r = Throw ("HTTP " +:+ pretty (status response) +:+ ": " +:+ t)).
Proof.
  destruct (sendBatch_shape env events outcome s)
    as (r & con & l & reqs & -> & Iff & Cn & Ct & Http).
  eexists _, _. split; [reflexivity|]. simpl. by split_and!.
Qed.

(** X20. End to end: when the sender is [sendBatch], a batch in flight is
    dropped from the queue only on an acknowledgement, and then the promise
    of the [flush] that sent it is fulfilled.  On any other outcome of
    [fetch], a batch that fits in one call is put back at the head of the
    pending sequence, and the promise is fulfilled all the same.  Either
    way the processing flag is cleared. *)
Theorem delivery_requeues_unless_acknowledged (env : Env)
    (outcome : FetchOutcome) (k : Suspended) (s : Sdk) :
  awaiting (queue s) = [k] →
  ∃ s', AnalyticsClient.deliver env 0 outcome s = Some s' ∧
    isProcessing (queue s') = false ∧ awaiting (queue s') = [] ∧
    onFlush_calls (queue s') = onFlush_calls (queue s) ∧
    ((∃ payload, JSON_stringify (JObj [("events", JArr (eventsToSend k));
                                       ("timestamp", JNum (now env))])
                 = Normal payload) →
     acknowledged outcome = true →
     events (queue s') = events (queue s) ∧
     settled (queue s') = settled (queue s) ++ [(caller k, Fulfilled)]) ∧
    (Z.of_nat (length (eventsToSend k)) ≤ max_arguments →
     settled (queue s') = settled (queue s) ++ [(caller k, Fulfilled)] ∧
     (acknowledged outcome = false →
      events (queue s') = eventsToSend k ++ events (queue s))).
Proof.
  intros A. unfold AnalyticsClient.deliver. rewrite A. simpl.
  destruct (sendBatch_shape env (eventsToSend k) outcome s)
    as (r & con & l & reqs & -> & Iff & _). simpl. rewrite A. simpl.
  destruct r as [[]|e].
  - rewrite settle_ok. eexists. split; [reflexivity|]. simpl.
    split_and!; try done.
    intros Fit. split; [done|].
    intros Ack. destruct Iff as [[_ Ack'] _]; [done|congruence].
  - set (w := with_awaiting [] _).
    destruct (settle_failed_shape k e w)
      as (its & con' & es & st & E & Cases & _).
    rewrite E. eexists. split; [reflexivity|]. subst w. simpl.
    split_and!; try done.
    + intros P Ack. destruct Iff as [_ Iff]. by specialize (Iff (conj P Ack)).
    + intros Fit. by destruct Cases as [(-> & -> & _)|(_ & _ & Over)]; [|lia].
Qed.

Lemma loadUser_eq s :
  ∃ l, AnalyticsClient.loadUser s
       = (Normal tt,
          with_console_log l
            (with_user
               (match (Storage.get AnalyticsClient.storage "user" (queue s)).1 with
                | Normal v => if truthy v then v else user s
                | Throw _ => user s
                end)
               (with_queue (Storage.get AnalyticsClient.storage "user" (queue s)).2 s))).
Proof.
  unfold AnalyticsClient.loadUser, sbind at 1, on_queue.
  destruct (get_slot_only AnalyticsClient.storage "user" (queue s))
    as (v & its & con & ->). simpl.
  destruct (truthy v).
  - unfold sbind, smodify.
    destruct (log_shape [JStr "User loaded from storage:"; v]
                (with_user v (with_queue (with_console con (with_items its (queue s))) s)))
      as (l & ->).
    by exists l.
  - exists (console_log s). by destruct s.
Qed.

Lemma persist_other_keys w key :
  key ≠ EventQueue.storage +:+ "events" →
  items (localStorage (EventQueue.persistEvents w).2) !! key
  = items (localStorage w) !! key.
Proof.
  intros NE. rewrite persistEvents_eq, set_eq. simpl.
  destruct (JSON_stringify _); [|done].
  destruct (faults _ _ _); [done|]. simpl. by apply lookup_insert_ne.
Qed.

Lemma flush_other_keys c w key :
  key ≠ EventQueue.storage +:+ "events" →
  items (localStorage (EventQueue.flush c w).2) !! key
  = items (localStorage w) !! key.
Proof.
  intros NE. destruct (busy_or_empty w) eqn:G.
  - by rewrite flush_noop.
  - destruct (flush_starts c w G) as (its & con & -> & E).
    pose proof (persist_other_keys (with_events [] (with_isProcessing true w))
                  key NE) as P.
    by rewrite E in P.
Qed.

Lemma add_other_keys event w key :
  key ≠ EventQueue.storage +:+ "events" →
  items (localStorage (EventQueue.add event w).2) !! key
  = items (localStorage w) !! key.
Proof.
  intros NE. rewrite add_eq. cbv zeta.
  pose proof (persist_other_keys (with_events (events w ++ [event]) w) key NE) as P.
  destruct (_ <=? _); [|done].
  by rewrite flush_other_keys.
Qed.

(** What [track] leaves alone. *)
Lemma track_frame env eventName properties s :
  let s' := (AnalyticsClient.track env eventName properties s).2 in
  user s' = user s ∧ sessionId s' = sessionId s ∧
  sdk_config s' = sdk_config s ∧
  config (queue s') = config (queue s) ∧
  faults (localStorage (queue s')) = faults (localStorage (queue s)) ∧
  ∀ key, key ≠ EventQueue.storage +:+ "events" →
         items (localStorage (queue s')) !! key
         = items (localStorage (queue s)) !! key.
Proof.
  destruct (track_cases env eventName properties s) as (fields & _ & T).
  cbv zeta in T. destruct (blank (JStr eventName)).
  - rewrite T. simpl. by split_and!.
  - rewrite T.
    match goal with |- context [EventQueue.add ?e] => set (event := e) end.
    destruct (log_shape [JStr "Event tracked:"; event]
                (with_queue (EventQueue.add event (queue s)).2 s)) as (l & ->).
    simpl.
    destruct (step_frame (Add event) (queue s) _ (step_add event (queue s)))
      as (_ & C & F & _).
    split_and!; try done. intros key NE. by apply add_other_keys.
Qed.

Lemma track_normal env eventName properties s :
  blank (JStr eventName) = false →
  (AnalyticsClient.track env eventName properties s).1 = Normal tt.
Proof.
  intros B. destruct (track_cases env eventName properties s) as (fields & _ & T).
  cbv zeta in T. rewrite B in T. rewrite T.
  match goal with |- context [AnalyticsClient.log ?a ?x] =>
    by destruct (log_shape a x) as (l & ->)
  end.
Qed.

Lemma constructor_ok env given host c k :
  cfg_apiKey given = Some (String c k) →
  let qcfg := {| batchSize := AnalyticsClient.or_number (cfg_batchSize given) 10;
                 flushInterval :=
                   AnalyticsClient.or_number (cfg_flushInterval given) 5000 |} in
  ∃ s, AnalyticsClient.constructor env given host = (Normal tt, Some s) ∧
       sdk_config s = AnalyticsClient.required given ∧
       sessionId s = AnalyticsClient.generateSessionId env ∧
       config (queue s) = qcfg ∧
       user s = match (Storage.get AnalyticsClient.storage "user"
                         (EventQueue.new qcfg host)).1 with
                | Normal v => if truthy v then v else JUndefined
                | Throw _ => JUndefined
                end.
Proof.
  intros K qcfg. unfold AnalyticsClient.constructor. rewrite K.
  cbv zeta. unfold sbind at 1.
  set (s0 := {| sdk_config := _ |}).
  destruct (loadUser_eq s0) as (l & ->).
  unfold sbind at 1.
  set (s1 := with_console_log l _).
  destruct (log_shape [JStr "SDK initialized with config:";
                       AnalyticsClient.config_object (AnalyticsClient.required given)]
              s1) as (l' & ->).
  set (s2 := with_console_log l' s1).
  assert (C0 : config (queue s2) = qcfg).
  { subst s2 s1 s0. cbn [queue with_console_log with_user with_queue].
    change {| batchSize := requiredBatchSize (AnalyticsClient.required given);
              flushInterval := requiredFlushInterval (AnalyticsClient.required given) |}
      with qcfg.
    destruct (get_slot_only AnalyticsClient.storage "user" (EventQueue.new qcfg host))
      as (v & its & con & ->).
    simpl. by destruct (new_fields qcfg host) as (-> & _). }
  destruct (autoTrack (AnalyticsClient.required given)); [|by eexists].
  unfold AnalyticsClient.setupAutoTracking.
  destruct (readyState_complete env); [|by eexists].
  unfold AnalyticsClient.page.
  match goal with |- context [AnalyticsClient.track ?e ?n ?p ?x] =>
    pose proof (track_normal e n p x eq_refl) as N;
    destruct (track_frame e n p x) as (U & Se & Cf & Cq & _);
    destruct (AnalyticsClient.track e n p x) as [r s3]
  end.
  simpl in *. subst r. exists s3. split; [done|].
  rewrite Cf, Se, Cq, U. by split_and!.
Qed.

(** X21. The constructor insists on an API key and fills in the rest.
    Without a key, or with an empty one, it throws [API key is required]
    and builds nothing.  With a key it never throws, and the queue it
    creates has the given batch size and flush interval, where a missing
    value or 0 becomes 10, respectively 5000: the queue of a client never
    has batch size 0.  A missing or empty endpoint becomes
    [https://api.analytics.example.com/events]; [debug] is off unless
    given as true, and [autoTrack] is on unless given as false. *)
Theorem constructor_requires_key_and_fills_defaults (env : Env)
    (given : SDKConfig) (host : World) :
  (cfg_apiKey given = None ∨ cfg_apiKey given = Some EmptyString →
   AnalyticsClient.constructor env given host
   = (Throw "API key is required", None)) ∧
  (∀ c k, cfg_apiKey given = Some (String c k) →
   ∃ s, AnalyticsClient.constructor env given host = (Normal tt, Some s) ∧
        apiKey (sdk_config s) = String c k ∧
        endpoint (sdk_config s)
        = match cfg_endpoint given with
          | Some (String a e) => String a e
          | _ => "https://api.analytics.example.com/events"
          end ∧
        debug (sdk_config s)
        = match cfg_debug given with Some b => b | None => false end ∧
        autoTrack (sdk_config s)
        = match cfg_autoTrack given with Some b => b | None => true end ∧
        sessionId s = AnalyticsClient.generateSessionId env ∧
        batchSize (config (queue s))
        = match cfg_batchSize given with
          | Some n => if n =? 0 then 10 else n
          | None => 10
          end ∧
        flushInterval (config (queue s))
        = match cfg_flushInterval given with
          | Some n => if n =? 0 then 5000 else n
          | None => 5000
          end ∧
        batchSize (config (queue s)) ≠ 0 ∧
        flushInterval (config (queue s)) ≠ 0).
Proof.
  split.
  - unfold AnalyticsClient.constructor. by intros [-> | ->].
  - intros c k K.
    destruct (constructor_ok env given host c k K) as (s & -> & Cf & Se & Cq & _).
    exists s. split; [done|]. rewrite Cf, Cq. simpl. rewrite K. simpl.
    split_and!; try done.
    + unfold AnalyticsClient.or_number.
      destruct (cfg_batchSize given) as [n|]; [|done].
      by destruct (Z.eqb_spec n 0).
    + unfold AnalyticsClient.or_number.
      destruct (cfg_flushInterval given) as [n|]; [|done].
      by destruct (Z.eqb_spec n 0).
Qed.

Lemma get_user_of_new qcfg host :
  (Storage.get AnalyticsClient.storage "user" (EventQueue.new qcfg host)).1
  = match faults (localStorage host) (items (localStorage host))
            (GetItem "analytics_user") with
    | Some _ => Normal JNull
    | None =>
        match items (localStorage host) !! "analytics_user" with
        | Some (String c t) =>
            match JSON_parse (String c t) with
            | Normal v => Normal v
            | Throw _ => Normal JNull
            end
        | _ => Normal JNull
        end
    end.
Proof.
  rewrite get_eq, new_storage.
  change (AnalyticsClient.storage +:+ "user") with "analytics_user".
  destruct (faults _ _ _); [done|].
  destruct (_ !! _) as [[|c t]|]; try done.
  by destruct (JSON_parse _).
Qed.

(** X22. [identify] validates, remembers, persists and announces.  A user
    that [validateUser] rejects makes it throw [Invalid user data] with
    the client, the queue and the storage as they were.  An accepted user
    becomes the current user, is handed to the slot [analytics_user], and
    one [user_identified] event carrying the user's id is added to the
    queue.  If the storage does not throw and the user's serialisation
    parses back to it, a client constructed later over that storage starts
    with this user. *)
Theorem identify_persists_and_announces (env : Env) (u : JsValue) (s : Sdk) :
  ((validateUser u (queue s)).1 = Normal false →
   ∃ s', AnalyticsClient.identify env u s = (Throw "Invalid user data", s') ∧
         user s' = user s ∧ sessionId s' = sessionId s ∧
         memory (queue s') = memory (queue s) ∧
         localStorage (queue s') = localStorage (queue s) ∧
         onFlush_calls (queue s') = onFlush_calls (queue s)) ∧
  ((validateUser u (queue s)).1 = Normal true →
   ∃ event s', AnalyticsClient.identify env u s = (Normal tt, s') ∧
     AnalyticsClient.getUser s' = u ∧
     prop event "name" = JStr "user_identified" ∧
     prop (prop event "properties") "userId" = prop u "id" ∧
     queue s' = (EventQueue.add event
                   (Storage.set AnalyticsClient.storage "user" u (queue s)).2).2 ∧
     (healthy (localStorage (queue s)) →
      ∀ t, JSON_stringify u = Normal t → t ≠ EmptyString →
           JSON_parse t = Normal u →
      ∀ env' given c k, cfg_apiKey given = Some (String c k) →
      ∃ s2, AnalyticsClient.constructor env' given (queue s') = (Normal tt, Some s2) ∧
            AnalyticsClient.getUser s2 = u)).
Proof.
  destruct (validateUser_cases u (queue s)) as [[V (fields & ->)]|(con & V)];
    rewrite V; simpl; (split; [|]); try done.
  2:{ intros _. unfold AnalyticsClient.identify.
      cbv beta delta [sbind on_queue]. rewrite V. by eexists. }
  intros _.
  - unfold AnalyticsClient.identify. cbv beta delta [sbind on_queue smodify].
    rewrite V. cbv beta iota delta [negb]. cbn [queue with_user with_queue].
    destruct (set_slot_only AnalyticsClient.storage "user" (JObj fields) (queue s))
      as (okb & its & con & St).
    rewrite St. cbv beta iota.
    match goal with |- context [AnalyticsClient.log _ ?x] => set (s1 := x) end.
    destruct (log_shape [JStr "User identified:"; JObj fields] s1) as (l & ->).
    set (s2 := with_console_log l s1).
    match goal with |- context [AnalyticsClient.track _ _ ?p _] =>
      set (props := p)
    end.
    destruct (track_cases env "user_identified" props s2) as (fs & _ & T).
    cbv zeta in T. change (blank (JStr "user_identified")) with false in T.
    cbv iota in T. rewrite T.
    match goal with |- context [EventQueue.add ?e] => set (event := e) end.
    destruct (log_shape [JStr "Event tracked:"; event]
                (with_queue (EventQueue.add event (queue s2)).2 s2)) as (l' & ->).
    exists event. eexists. split; [reflexivity|].
    split_and!; try done.
    + subst event. unfold prop at 1 2.
      change (get_field "properties" _) with (JObj
        (set_field "userAgent" (JStr (userAgent env))
          (set_field "referrer" (JStr (referrer env))
            (set_field "url" (JStr (href env))
              (set_field "sessionId" (JStr (sessionId s2))
                (set_field "userId" (AnalyticsClient.user_id s2) fs)))))).
      cbv beta iota.
      rewrite !(get_field_set_ne _ "userId") by done.
      by rewrite get_field_set_eq.
    + intros Hh t S NE P env' given c k K.
      cbn [queue with_console_log with_queue].
      destruct (constructor_ok env' given
                  (EventQueue.add event (queue s2)).2 c k K)
        as (s3 & -> & _ & _ & _ & U).
      exists s3. split; [done|]. unfold AnalyticsClient.getUser. rewrite U.
      rewrite get_user_of_new.
      destruct (step_frame (Add event) (queue s2) _ (step_add event (queue s2)))
        as (_ & _ & F & _).
      assert (Q : queue s2 = (Storage.set AnalyticsClient.storage "user"
                                (JObj fields) (queue s)).2).
      { subst s2 s1. by rewrite St. }
      rewrite F, add_other_keys by done. rewrite Q, set_eq, S, Hh. simpl.
      rewrite Hh.
      change (AnalyticsClient.storage +:+ "user") with "analytics_user".
      rewrite lookup_insert_eq. destruct t as [|a t]; [done|]. by rewrite P.
Qed.



(** What [track] does with a name that has a visible character. *)
Lemma track_built env eventName properties s :
  blank (JStr eventName) = false →
  ∃ event s',
    AnalyticsClient.track env eventName properties s = (Normal tt, s') ∧
    queue s' = (EventQueue.add event (queue s)).2 ∧
    user s' = user s ∧ sessionId s' = sessionId s ∧
    sdk_config s' = sdk_config s ∧
    prop event "name" = JStr eventName ∧
    prop (prop event "properties") "userId" = AnalyticsClient.user_id s ∧
    ∀ key, key ∉ ["userId"; "sessionId"; "url"; "referrer"; "userAgent"] →
           prop (prop event "properties") key
           = prop (sanitizeProperties properties) key.
Proof.
  intros B.
  destruct (track_cases env eventName properties s) as (fields & San & T).
  cbv zeta in T. rewrite B in T. rewrite T.
  match goal with |- context [EventQueue.add ?e] => set (event := e) end.
  destruct (log_shape [JStr "Event tracked:"; event]
              (with_queue (EventQueue.add event (queue s)).2 s)) as (l & ->).
  exists event. eexists. split; [reflexivity|].
  split_and!; try done.
  - subst event. unfold prop.
    change (get_field "properties" _) with (JObj
      (set_field "userAgent" (JStr (userAgent env))
        (set_field "referrer" (JStr (referrer env))
          (set_field "url" (JStr (href env))
            (set_field "sessionId" (JStr (sessionId s))
              (set_field "userId" (AnalyticsClient.user_id s) fields)))))).
    cbv beta iota.
    rewrite !(get_field_set_ne _ "userId") by done.
    by rewrite get_field_set_eq.
  - intros key NI. rewrite San. subst event. unfold prop.
    change (get_field "properties" _) with (JObj
      (set_field "userAgent" (JStr (userAgent env))
        (set_field "referrer" (JStr (referrer env))
          (set_field "url" (JStr (href env))
            (set_field "sessionId" (JStr (sessionId s))
              (set_field "userId" (AnalyticsClient.user_id s) fields)))))).
    cbv beta iota.
    apply not_elem_of_cons in NI as [N1 NI].
    apply not_elem_of_cons in NI as [N2 NI].
    apply not_elem_of_cons in NI as [N3 NI].
    apply not_elem_of_cons in NI as [N4 NI].
    apply not_elem_of_cons in NI as [N5 _].
    by rewrite !get_field_set_ne by done.
Qed.

(** X25. [page] never throws and adds exactly one [page_view] event.  Its
    [pageName] is the name given, or the document title when the name is
    missing or empty -- unless the caller's properties have a [pageName]
    of their own, which then wins; if that one is null or undefined the
    event has no [pageName] at all.  The caller's other properties go
    through as [track] would take them. *)
Theorem page_names_the_page (env : Env) (name : option string)
    (properties : JsValue) (s : Sdk) :
  ∃ event s',
    AnalyticsClient.page env name properties s = (Normal tt, s') ∧
    queue s' = (EventQueue.add event (queue s)).2 ∧
    prop event "name" = JStr "page_view" ∧
    (nullish properties = true →
     prop (prop event "properties") "pageName"
     = JStr (match name with
             | Some (String c n) => String c n
             | _ => title env
             end)) ∧
    (∀ fields, properties = JObj fields → NoDup fields.*1 →
       ("pageName" ∉ fields.*1 →
        prop (prop event "properties") "pageName"
        = JStr (match name with
                | Some (String c n) => String c n
                | _ => title env
                end)) ∧
       (∀ v, ("pageName", v) ∈ fields →
             prop (prop event "properties") "pageName"
             = if nullish v then JUndefined else v) ∧
       (∀ key, key ∉ ["pageName"; "userId"; "sessionId"; "url"; "referrer";
                      "userAgent"] →
               prop (prop event "properties") key
               = prop (sanitizeProperties properties) key)).
Proof.
  unfold AnalyticsClient.page.
  set (shown := AnalyticsClient.or_string name (title env)).
  change (match name with Some (String c n) => String c n | _ => title env end)
    with shown.
  destruct (track_built env "page_view"
              (JObj (spread properties [("pageName", JStr shown)])) s eq_refl)
    as (event & s' & T & Q & _ & _ & _ & N & _ & Other).
  exists event, s'. split_and!; try done.
  - intros Nu. rewrite Other.
    2:{ apply (bool_decide_unpack _). by vm_compute. }
    by destruct properties.
  - intros fields -> ND.
    assert (NDs : NoDup (spread (JObj fields) [("pageName", JStr shown)]).*1).
    { apply spread_loop_keys. apply NoDup_singleton. }
    split_and!.
    + intros NI. rewrite Other.
      2:{ apply (bool_decide_unpack _). by vm_compute. }
      rewrite sanitized_field by done.
      unfold spread. simpl. rewrite get_field_spread_loop by done.
      by rewrite bool_decide_eq_false_2.
    + intros v In. rewrite Other.
      2:{ apply (bool_decide_unpack _). by vm_compute. }
      rewrite sanitized_field by done.
      unfold spread. simpl. rewrite get_field_spread_loop by done.
      rewrite bool_decide_eq_true_2.
      2:{ apply list_elem_of_fmap. by exists ("pageName", v). }
      by rewrite (get_field_elem _ v).
    + intros key NI. apply not_elem_of_cons in NI as [NP NI].
      rewrite Other by done.
      rewrite !sanitized_field by done.
      unfold spread. simpl. rewrite get_field_spread_loop by done.
      case_bool_decide as In; [done|].
      rewrite (get_field_absent key fields) by done.
      cbn [get_field].
      destruct (String.eqb_spec "pageName" key) as [E|_]; [congruence|done].
Qed.

(** X26. The click listener tracks links and buttons only.  A click on
    any other element changes nothing.  A click on an [A] or a [BUTTON]
    adds exactly one [click] event with the tag as [elementType], the
    target's [href] when it has one, and as [text] the first 100
    characters of the target's inner text, never more. *)
Theorem click_tracks_links_and_buttons (env : Env) (tagName : string)
    (innerText : option string) (target_href : JsValue) (s : Sdk) :
  (tagName ≠ "A" → tagName ≠ "BUTTON" →
   AnalyticsClient.on_click env tagName innerText target_href s = (Normal tt, s)) ∧
  (tagName = "A" ∨ tagName = "BUTTON" →
   ∃ event s',
     AnalyticsClient.on_click env tagName innerText target_href s
     = (Normal tt, s') ∧
     queue s' = (EventQueue.add event (queue s)).2 ∧
     prop event "name" = JStr "click" ∧
     prop (prop event "properties") "elementType" = JStr tagName ∧
     prop (prop event "properties") "href"
     = (if nullish target_href then JUndefined else target_href) ∧
     (innerText = None → prop (prop event "properties") "text" = JUndefined) ∧
     (∀ t, innerText = Some t →
           ∃ t', prop (prop event "properties") "text" = JStr t' ∧
                 String.prefix t' t = true ∧
                 String.length t' = (100 `min` String.length t)%nat)).
Proof.
  unfold AnalyticsClient.on_click. split.
  - intros NA NB.
    destruct (String.eqb_spec tagName "A"); [done|].
    by destruct (String.eqb_spec tagName "BUTTON").
  - intros Tag.
    assert (String.eqb tagName "A" || String.eqb tagName "BUTTON" = true) as ->.
    { destruct Tag as [-> | ->]; reflexivity. }
    match goal with |- context [AnalyticsClient.track _ _ ?p _] =>
      set (given := p)
    end.
    destruct (track_built env "click" given s eq_refl)
      as (event & s' & T & Q & _ & _ & _ & N & _ & Other).
    assert (ND : NoDup ["elementType"; "text"; "href"]).
    { apply (bool_decide_unpack _). by vm_compute. }
    exists event, s'. split_and!; try done.
    + rewrite Other by (apply (bool_decide_unpack _); by vm_compute).
      subst given. by rewrite sanitized_field.
    + rewrite Other by (apply (bool_decide_unpack _); by vm_compute).
      subst given. by rewrite sanitized_field.
    + intros ->.
      rewrite Other by (apply (bool_decide_unpack _); by vm_compute).
      subst given. by rewrite sanitized_field.
    + intros t ->. exists (String.substring 0 100 t).
      destruct (substring_prefix 100 t) as [P L].
      split_and!; try done.
      rewrite Other by (apply (bool_decide_unpack _); by vm_compute).
      subst given. by rewrite sanitized_field.
Qed.

(** X27. Automatic tracking at construction.  With [autoTrack] switched
    off, or while the document is still loading, the constructor adds no
    event and calls no sender: the queue holds what the storage held.
    Otherwise -- [autoTrack] is on unless it is given as false -- the
    constructor itself tracks the first page view, named after the
    document title; as the stored user is loaded first, the event carries
    that user's id. *)
Theorem constructor_auto_tracks_first_page (env : Env) (given : SDKConfig)
    (host : World) (c : Ascii.ascii) (k : string) :
  cfg_apiKey given = Some (String c k) →
  ∃ s w0,
    AnalyticsClient.constructor env given host = (Normal tt, Some s) ∧
    w0 = EventQueue.new
           {| batchSize := AnalyticsClient.or_number (cfg_batchSize given) 10;
              flushInterval :=
                AnalyticsClient.or_number (cfg_flushInterval given) 5000 |} host ∧
    (cfg_autoTrack given = Some false ∨ readyState_complete env = false →
     memory (queue s) = memory w0 ∧ onFlush_calls (queue s) = [] ∧
     awaiting (queue s) = []) ∧
    (cfg_autoTrack given ≠ Some false → readyState_complete env = true →
     ∃ event,
       queue s = (EventQueue.add event
                    (Storage.get AnalyticsClient.storage "user" w0).2).2 ∧
       prop event "name" = JStr "page_view" ∧
       prop (prop event "properties") "pageName" = JStr (title env) ∧
       prop (prop event "properties") "userId" = AnalyticsClient.user_id s).
Proof.
  intros K. unfold AnalyticsClient.constructor. rewrite K.
  cbv zeta. unfold sbind at 1.
  set (s0 := {| sdk_config := _ |}).
  destruct (loadUser_eq s0) as (l & ->).
  unfold sbind at 1.
  set (s1 := with_console_log l _).
  destruct (log_shape [JStr "SDK initialized with config:";
                       AnalyticsClient.config_object (AnalyticsClient.required given)]
              s1) as (l' & ->).
  set (s2 := with_console_log l' s1).
  set (qcfg := {| batchSize := AnalyticsClient.or_number (cfg_batchSize given) 10;
                  flushInterval :=
                    AnalyticsClient.or_number (cfg_flushInterval given) 5000 |}).
  assert (Q2 : queue s2
               = (Storage.get AnalyticsClient.storage "user"
                    (EventQueue.new qcfg host)).2) by done.
  assert (Quiet : memory (queue s2) = memory (EventQueue.new qcfg host) ∧
                  onFlush_calls (queue s2) = [] ∧ awaiting (queue s2) = []).
  { rewrite Q2.
    destruct (get_slot_only AnalyticsClient.storage "user" (EventQueue.new qcfg host))
      as (v & its & con & ->).
    simpl. by destruct (new_fields qcfg host) as (_ & _ & -> & -> & _). }
  change (autoTrack (AnalyticsClient.required given))
    with (default true (cfg_autoTrack given)).
  destruct (cfg_autoTrack given) as [[|]|] eqn:A; simpl;
    unfold AnalyticsClient.setupAutoTracking;
    destruct (readyState_complete env) eqn:RS;
    try (exists s2, (EventQueue.new qcfg host);
         split; [done|]; split; [done|]; split; [done|];
         by (intros NF; try done)).
  all: destruct (track_built env "page_view"
                   (JObj (spread JUndefined
                            [("pageName",
                              JStr (AnalyticsClient.or_string None (title env)))]))
                   s2 eq_refl)
         as (event & s3 & T & Q & U & _ & _ & N & Uid & Other).
  all: unfold AnalyticsClient.page; rewrite T.
  all: exists s3, (EventQueue.new qcfg host).
  all: split; [done|]; split; [done|]; split; [by intros [|]|].
  all: intros _ _; exists event; rewrite Q, Q2; split_and!; try done.
  all: try (rewrite Other by (apply (bool_decide_unpack _); by vm_compute); done).
  all: rewrite Uid; unfold AnalyticsClient.user_id; by rewrite U.
Qed.

Lemma silent_ret {A} (a : A) : silent (sret a).
Proof. by intros s _. Qed.

Lemma silent_throw {A} e : silent (@sthrow A e).
Proof. by intros s _. Qed.

Lemma silent_get : silent sget.
Proof. by intros s _. Qed.

Lemma silent_lift {A} (c : Completion A) :
  silent (AnalyticsClient.lift_completion c).
Proof. by intros s _. Qed.

Lemma silent_on_queue {A} (m : M A) : silent (on_queue m).
Proof. intros s _. unfold on_queue. by destruct (m (queue s)). Qed.

Lemma silent_modify f :
  (∀ s, console_log (f s) = console_log s ∧ sdk_config (f s) = sdk_config s) →
  silent (smodify f).
Proof. intros F s _. apply F. Qed.

Lemma silent_log args : silent (AnalyticsClient.log args).
Proof. intros s D. unfold AnalyticsClient.log. by rewrite D. Qed.

Lemma silent_bind {A B} (m : SM A) (k : A → SM B) :
  silent m → (∀ a, silent (k a)) → silent (sbind m k).
Proof.
  intros Sm Sk s D. unfold sbind.
  destruct (Sm s D) as [L C]. destruct (m s) as [[a|e] s1]; simpl in *.
  - destruct (Sk a s1) as [L' C']; [by rewrite C|]. by rewrite L', C'.
  - done.
Qed.

Lemma silent_try_catch {A} (m : SM A) (h : Error → SM A) :
  silent m → (∀ e, silent (h e)) → silent (stry_catch m h).
Proof.
  intros Sm Sh s D. unfold stry_catch.
  destruct (Sm s D) as [L C]. destruct (m s) as [[a|e] s1]; simpl in *.
  - done.
  - destruct (Sh e s1) as [L' C']; [by rewrite C|]. by rewrite L', C'.
Qed.

Ltac silence :=
  repeat first
    [ apply silent_ret | apply silent_throw | apply silent_get
    | apply silent_lift | apply silent_on_queue | apply silent_log
    | apply silent_modify; by intros []
    | apply silent_bind; [|intros ?]
    | apply silent_try_catch; [|intros ?]
    | match goal with
      | |- silent (if ?b then _ else _) => destruct b
      | |- silent (match ?x with _ => _ end) => destruct x
      end ].

Lemma silent_track env eventName properties :
  silent (AnalyticsClient.track env eventName properties).
Proof. unfold AnalyticsClient.track. silence. Qed.

(** X28. With [debug] off -- the default -- the client prints nothing
    through [console.log], whatever is called and however it ends, and no
    method changes the configuration; a client constructed without
    [debug: true] starts with nothing printed. *)
Theorem silent_unless_debug (env : Env) :
  (∀ eventName properties, silent (AnalyticsClient.track env eventName properties)) ∧
  (∀ u, silent (AnalyticsClient.identify env u)) ∧
  (∀ name properties, silent (AnalyticsClient.page env name properties)) ∧
  silent AnalyticsClient.flush ∧
  silent (AnalyticsClient.reset env) ∧
  silent AnalyticsClient.destroy ∧
  (∀ events outcome, silent (AnalyticsClient.sendBatch env events outcome)) ∧
  silent (AnalyticsClient.on_load env) ∧
  (∀ tagName innerText target_href,
     silent (AnalyticsClient.on_click env tagName innerText target_href)) ∧
  (∀ given host r s,
     cfg_debug given ≠ Some true →
     AnalyticsClient.constructor env given host = (r, Some s) →
     console_log s = [] ∧ debug (sdk_config s) = false).
Proof.
  split_and!.
  - intros. apply silent_track.
  - intros u. unfold AnalyticsClient.identify. silence.
  - intros. apply silent_track.
  - unfold AnalyticsClient.flush. silence.
  - unfold AnalyticsClient.reset. silence.
  - unfold AnalyticsClient.destroy. silence.
  - intros. unfold AnalyticsClient.sendBatch. silence.
  - apply silent_track.
  - intros. unfold AnalyticsClient.on_click. silence.
  - intros given host r s D. unfold AnalyticsClient.constructor.
    destruct (cfg_apiKey given) as [[|c k]|]; [done| |done].
    cbv zeta.
    match goal with |- context [sbind ?m ?f ?x] =>
      assert (Si : silent (sbind m f));
        [|destruct (Si x) as [L C]; [|destruct (sbind m f x) as [r' s']]]
    end.
    + silence. unfold AnalyticsClient.setupAutoTracking. silence.
    + simpl. by destruct (cfg_debug given) as [[|]|].
    + intros [= _ <-]. simpl in *. rewrite L, C. split; [done|].
      simpl. by destruct (cfg_debug given) as [[|]|].
Qed.

End ClientFacts.

(** ** Closed instances on the toy host *)

#[local] Existing Instance demo_json.
#[local] Existing Instance demo_engine.

(** The scenarios of the test suite. *)
Example scenario_batch_of_two :
  (λ w, (onFlush_calls w, EventQueue.size w))
    <$> @run demo_json demo_engine [Add e1; Add e2] (demo_queue 2)
  = Some ([[e1; e2]], 0%nat).
Proof. vm_compute. reflexivity. Qed.

Example scenario_sender_rejects :
  (λ w, (EventQueue.size w, events w, isProcessing w))
    <$> @run demo_json demo_engine [Add e1; Settle 0 (Throw "Network error")] (demo_queue 1)
  = Some (1%nat, [e1], false).
Proof. vm_compute. reflexivity. Qed.

Example scenario_manual_flush :
  (λ w, (onFlush_calls w, EventQueue.size w, settled w))
    <$> @run demo_json demo_engine [Add e1; Flush; Settle 0 (Normal tt)] (demo_queue 10)
  = Some ([[e1]], 0%nat, [(Explicit, Fulfilled)]).
Proof. vm_compute. reflexivity. Qed.

Example scenario_empty_flush :
  (λ w, (onFlush_calls w, settled w)) <$> @run demo_json demo_engine [Flush] (demo_queue 10)
  = Some ([], [(Explicit, Fulfilled)]).
Proof. vm_compute. reflexivity. Qed.

(** At unload the pending sequence goes out as one beacon and stays
    pending. *)
Example scenario_unload :
  (λ w, (List.length (beacons w), events w, onFlush_calls w))
    <$> @run demo_json demo_engine [Add e1; BeforeUnload] (demo_queue 10)
  = Some (1%nat, [e1], []).
Proof. vm_compute. reflexivity. Qed.

(** After [destroy] the timer no longer ticks. *)
Example scenario_destroy :
  @run demo_json demo_engine [Add e1; Destroy; Tick] (demo_queue 10) = None.
Proof. vm_compute. reflexivity. Qed.

(** With a full storage the write is dropped and logged; the queue in
    memory goes on. *)
Example scenario_quota_exceeded :
  let w := (@EventQueue.add demo_json e1
              (@EventQueue.new demo_json (demo_cfg 10)
                 (demo_host ∅ quota_exceeded))).2 in
  (events w, persisted w, console w)
  = ([e1], None, [("Storage set error:", "QuotaExceededError")]).
Proof. vm_compute. reflexivity. Qed.

(** A failed batch that is too long for one call is lost: 200000 events
    loaded from the storage go out with the first tick; the application
    calls [clear()]; the sender fails; the requeue throws, so nothing is
    pending or stored and the promise of that [flush] is rejected. *)
Example scenario_requeue_overflow :
  Z.of_nat (EventQueue.size bulk_queue) = 200000 ∧
  (λ w, (EventQueue.size w, isProcessing w, settled w, persisted w))
    <$> @run bulk_json demo_engine
          [Tick; Clear; Settle 0 (Throw "Network error")] bulk_queue
  = Some (0%nat, false,
          [(FromTimer, Rejected "RangeError: Maximum call stack size exceeded")],
          None).
Proof. split; vm_compute; reflexivity. Qed.

(** [Object.keys(localStorage)] does not list a key that an inherited
    member shadows, so [clear] leaves it. *)
Example scenario_shadowed_key_survives_clear :
  items (localStorage
           (Storage.clear "to"
              (demo_host {["toString" := "a"; "topic" := "b"; "other" := "c"]}
                 no_faults)).2)
  = {["toString" := "a"; "other" := "c"]}.
Proof. vm_compute. reflexivity. Qed.

(** Array indices are the canonical numerals below 2^32 - 1. *)
Example array_index_examples :
  array_index <$> ["0"; "7"; "10"; "007"; "4294967294"; "4294967295"; "-1";
                   "1.5"; "a"; ""]
  = [Some 0; Some 7; Some 10; None; Some 4294967294; None; None; None; None;
     None]%N.
Proof. vm_compute. reflexivity. Qed.

(** Integer-like keys are enumerated first, whenever they are created. *)
Example set_field_examples :
  (set_field "2" JNull
     (set_field "b" JNull (set_field "10" JNull (set_field "a" JNull [])))).*1
  = ["2"; "10"; "a"; "b"].
Proof. vm_compute. reflexivity. Qed.

Lemma flush_noop_when_empty_or_busy_witness :
  ∃ w', @EventQueue.flush demo_json FromTimer demo_in_flight = (Normal tt, w') ∧
        settled w' = settled demo_in_flight ++ [(FromTimer, Fulfilled)] ∧
        awaiting w' = awaiting demo_in_flight ∧
        onFlush_calls w' = onFlush_calls demo_in_flight ∧
        events w' = events demo_in_flight ∧
        isProcessing w' = isProcessing demo_in_flight ∧
        localStorage w' = localStorage demo_in_flight ∧
        console w' = console demo_in_flight.
Proof.
  apply (@flush_noop_when_empty_or_busy demo_json FromTimer demo_in_flight).
  right. vm_compute. reflexivity.
Defined.

Lemma add_appends_persists_triggers_witness :
  persisted
    (Storage.set EventQueue.storage "events" (JArr (events (demo_queue 10) ++ [e1]))
       (with_events (events (demo_queue 10) ++ [e1]) (demo_queue 10))).2
  = Some "[e1]".
Proof.
  apply (@add_appends_persists_triggers demo_json e1 (demo_queue 10)).
  - vm_compute. reflexivity.
  - vm_compute. reflexivity.
Defined.

Lemma batch_size_triggers_one_send_witness :
  ∃ w', @run demo_json demo_engine (map Add [e1; e2]) (demo_queue 2) = Some w' ∧
        onFlush_calls w' = onFlush_calls (demo_queue 2) ++ [events (demo_queue 2) ++ [e1; e2]] ∧
        EventQueue.size w' = 0%nat ∧
        isProcessing w' = true ∧
        awaiting w'
        = [{| caller := FromAdd; eventsToSend := events (demo_queue 2) ++ [e1; e2] |}] ∧
        settled w' = settled (demo_queue 2).
Proof.
  apply (@batch_size_triggers_one_send demo_json demo_engine [e1; e2] (demo_queue 2)).
  - vm_compute. reflexivity.
  - vm_compute. reflexivity.
  - discriminate.
  - vm_compute. reflexivity.
Defined.

Lemma at_most_one_in_flight_witness :
  (length (awaiting demo_in_flight) ≤ 1)%nat ∧
  (awaiting demo_in_flight ≠ [] →
   ∀ c, ∃ w', @EventQueue.flush demo_json c demo_in_flight = (Normal tt, w') ∧
              onFlush_calls w' = onFlush_calls demo_in_flight ∧
              awaiting w' = awaiting demo_in_flight ∧
              settled w' = settled demo_in_flight ++ [(c, Fulfilled)] ∧
              events w' = events demo_in_flight) ∧
  (awaiting demo_in_flight = [] → events demo_in_flight ≠ [] →
   ∀ c1 c2, ∃ w1 w2,
     @EventQueue.flush demo_json c1 demo_in_flight = (Normal tt, w1) ∧
     @EventQueue.flush demo_json c2 w1 = (Normal tt, w2) ∧
     onFlush_calls w2 = onFlush_calls demo_in_flight ++ [events demo_in_flight] ∧
     awaiting w2 = [{| caller := c1; eventsToSend := events demo_in_flight |}] ∧
     settled w2 = settled demo_in_flight ++ [(c2, Fulfilled)]).
Proof.
  apply (@at_most_one_in_flight demo_json demo_engine demo_in_flight).
  exists (demo_cfg 1), (demo_host ∅ no_faults), [Add e1].
  vm_compute. reflexivity.
Defined.

Lemma failed_flush_requeues_witness :
  ∃ w3, @step demo_json demo_engine (Settle 0 (Throw "Network error"))
          (@EventQueue.add demo_json e2 (@EventQueue.flush demo_json Explicit demo_pending).2).2
        = Some w3 ∧
        events w3 = [e1; e2] ∧ EventQueue.size w3 = 2%nat.
Proof.
  destruct (@failed_flush_requeues demo_json demo_engine Explicit FromTimer [Add e2]
              "Network error" demo_pending
              (@EventQueue.add demo_json e2
                 (@EventQueue.flush demo_json Explicit demo_pending).2).2)
    as (w3 & S & E & Z & _).
  - exists (demo_cfg 10), (demo_host ∅ no_faults), [Add e1].
    vm_compute. reflexivity.
  - vm_compute. reflexivity.
  - discriminate.
  - vm_compute. discriminate.
  - reflexivity.
  - vm_compute. reflexivity.
  - exists w3. split; [exact S|]. split; [exact E|exact Z].
Defined.

Lemma clear_empties_memory_and_slot_witness :
  erasable (localStorage demo_pending) ∧
  ∃ w', EventQueue.clear demo_pending = (Normal tt, w') ∧
        events w' = [] ∧
        persisted w' = None ∧
        EventQueue.size (@EventQueue.new demo_json (demo_cfg 10) w') = 0%nat.
Proof.
  assert (Er : erasable (localStorage demo_pending)).
  { intros m. split; [reflexivity|intros k; reflexivity]. }
  split; [exact Er|].
  destruct (@clear_empties_memory_and_slot demo_json (demo_cfg 10) demo_pending)
    as (w' & C & E & _ & _ & _ & _ & S).
  destruct (S Er) as (Gone & _ & N).
  exists w'. split; [exact C|]. split; [exact E|].
  split; [apply Gone; vm_compute; reflexivity|exact N].
Defined.

Lemma in_flight_add_is_deferred_witness :
  ∃ w1, @step demo_json demo_engine (Add e2) demo_in_flight = Some w1 ∧
        onFlush_calls w1 = onFlush_calls demo_in_flight ∧
        events w1 = events demo_in_flight ++ [e2].
Proof.
  destruct (@in_flight_add_is_deferred demo_json demo_engine e2 demo_in_flight)
    as (w1 & S & C & _ & _ & E & _).
  - exists (demo_cfg 1), (demo_host ∅ no_faults), [Add e1].
    vm_compute. reflexivity.
  - vm_compute. reflexivity.
  - vm_compute. discriminate.
  - exists w1. split; [exact S|]. split; [exact C|exact E].
Defined.

Lemma clear_does_not_cancel_failed_flush_witness :
  ∃ k wc w',
    awaiting demo_in_flight = [k] ∧
    @step demo_json demo_engine Clear demo_in_flight = Some wc ∧
    @step demo_json demo_engine (Settle 0 (Throw "Network error")) wc = Some w' ∧
    events w' = eventsToSend k ∧ EventQueue.size w' ≠ 0%nat.
Proof.
  destruct (@clear_does_not_cancel_failed_flush demo_json demo_engine
              "Network error" demo_in_flight)
    as (k & wc & w' & A & _ & C & _ & S & _ & _ & Fits & _).
  - exists (demo_cfg 1), (demo_host ∅ no_faults), [Add e1].
    vm_compute. reflexivity.
  - vm_compute. reflexivity.
  - destruct Fits as (E & _ & N & _).
    + vm_compute in A. injection A as <-. vm_compute. discriminate.
    + exists k, wc, w'. repeat split; assumption.
Defined.

Lemma sender_failure_is_logged_not_thrown_witness :
  ∃ w', @EventQueue.settle demo_json demo_engine
          {| caller := Explicit; eventsToSend := [e1] |} (Throw "Network error")
          (with_awaiting [] demo_in_flight) = (Normal tt, w') ∧
        settled w' = settled demo_in_flight ++ [(Explicit, Fulfilled)] ∧
        events w' = [e1].
Proof.
  destruct (@sender_failure_is_logged_not_thrown demo_json demo_engine
              {| caller := Explicit; eventsToSend := [e1] |} "Network error"
              (with_awaiting [] demo_in_flight))
    as (w' & S & _ & _ & _ & Fits).
  destruct Fits as [St Ev]; [vm_compute; discriminate|].
  exists w'. split; [exact S|]. split; [exact St|exact Ev].
Defined.

(** C6, the claim as stated fails: an explicit [flush()] whose sender
    rejects gets a fulfilled promise, not a rejected one. *)
Lemma explicit_flush_failure_is_fulfilled :
  ∃ w, @run demo_json demo_engine [Add e1; Flush; Settle 0 (Throw "Network error")]
         (demo_queue 10) = Some w ∧
       settled w = [(Explicit, Fulfilled)] ∧
       (¬ ∃ e, (Explicit, Rejected e) ∈ settled w) ∧
       console w = [("Failed to flush events:", "Network error")] ∧
       events w = [e1].
Proof.
  eexists. split; [vm_compute; reflexivity|].
  split; [reflexivity|]. split; [|split; reflexivity].
  intros (e & In). apply list_elem_of_singleton in In. discriminate In.
Qed.

(** C1, the claim as stated fails: events added during the attempt and
    removed by [clear()] before the sender fails are not behind the
    requeued batch, and [size()] is less than the batch size plus the
    number of adds. *)
Lemma cleared_adds_are_not_requeued :
  ∃ w, @run demo_json demo_engine
         [Add e1; Add e2; Clear; Add e3; Settle 0 (Throw "Network error")]
         (demo_queue 1) = Some w ∧
       onFlush_calls w = [[e1]] ∧
       events w = [e1; e3] ∧
       EventQueue.size w = 2%nat ∧
       EventQueue.size w
       ≠ (length [e1] + length (added [Add e2; Clear; Add e3]))%nat.
Proof.
  eexists. split; [vm_compute; reflexivity|].
  split; [reflexivity|]. split; [reflexivity|]. split; [reflexivity|].
  discriminate.
Qed.

(** C9, the claim as stated fails: the event added in flight is handed to
    the sender by the flush that a later [add] triggers, in a trace with
    no timer tick and no explicit flush. *)
Lemma deferred_event_sent_by_later_add :
  ∃ w1 w,
    @run demo_json demo_engine [Add e1; Add e2] (demo_queue 1) = Some w1 ∧
    isProcessing w1 = true ∧ onFlush_calls w1 = [[e1]] ∧ events w1 = [e2] ∧
    @run demo_json demo_engine [Settle 0 (Normal tt); Add e3] w1 = Some w ∧
    onFlush_calls w = [[e1]; [e2; e3]] ∧
    awaiting w = [{| caller := FromAdd; eventsToSend := [e2; e3] |}] ∧
    FromAdd ≠ FromTimer ∧ FromAdd ≠ Explicit.
Proof.
  eexists _, _. split; [vm_compute; reflexivity|].
  split; [reflexivity|]. split; [reflexivity|]. split; [reflexivity|].
  split; [vm_compute; reflexivity|].
  split; [reflexivity|]. split; [reflexivity|]. split; discriminate.
Qed.

(** ** Closed instances of the further properties *)

Lemma adds_below_batch_size_witness :
  ∃ w', @run demo_json demo_engine (map Add [e1; e2]) (demo_queue 10) = Some w' ∧
        events w' = [e1; e2] ∧ EventQueue.size w' = 2%nat ∧
        onFlush_calls w' = [].
Proof.
  destruct (@adds_below_batch_size demo_json demo_engine [e1; e2] (demo_queue 10))
    as (w' & R & E & S & C & _).
  - vm_compute. reflexivity.
  - exists w'. split; [exact R|]. split; [exact E|]. split; [exact S|exact C].
Defined.

Lemma successful_flush_discards_batch_witness :
  ∃ w3, @step demo_json demo_engine (Settle 0 (Normal tt))
          (@EventQueue.add demo_json e2
             (@EventQueue.flush demo_json Explicit demo_pending).2).2 = Some w3 ∧
        events w3 = [e2] ∧ isProcessing w3 = false ∧
        onFlush_calls w3 = [[e1]].
Proof.
  destruct (@successful_flush_discards_batch demo_json demo_engine Explicit [Add e2]
              demo_pending
              (@EventQueue.add demo_json e2
                 (@EventQueue.flush demo_json Explicit demo_pending).2).2)
    as (w3 & S & E & P & _ & C & _).
  - exists (demo_cfg 10), (demo_host ∅ no_faults), [Add e1].
    vm_compute. reflexivity.
  - vm_compute. reflexivity.
  - discriminate.
  - vm_compute. reflexivity.
  - vm_compute. reflexivity.
  - exists w3. split; [exact S|]. split; [exact E|]. split; [exact P|exact C].
Defined.

Lemma destroy_stops_timer_for_good_witness :
  ∃ wd, @step demo_json demo_engine Destroy demo_pending = Some wd ∧
        events wd = [e1] ∧ timer_armed wd = false ∧
        @run demo_json demo_engine [Add e2; Tick] wd = None.
Proof.
  destruct (@destroy_stops_timer_for_good demo_json demo_engine demo_pending)
    as (wd & S & M & _ & _ & _ & _ & A & Off).
  - exists (demo_cfg 10), (demo_host ∅ no_faults), [Add e1].
    vm_compute. reflexivity.
  - exists wd. split; [exact S|].
    split; [by injection M as _ -> _ _|]. split; [exact A|].
    destruct (@run demo_json demo_engine [Add e2; Tick] wd) as [w'|] eqn:R; [|reflexivity].
    destruct (Off _ _ R) as [NT _]. exfalso. apply NT.
    apply elem_of_cons. right. apply elem_of_cons. by left.
Defined.

Lemma tick_flushes_pending_witness :
  ∃ w', @step demo_json demo_engine Tick demo_pending = Some w' ∧
        onFlush_calls w' = [[e1]] ∧ events w' = [].
Proof.
  destruct (@tick_flushes_pending demo_json demo_engine demo_pending)
    as (w' & S & _ & F).
  - vm_compute. reflexivity.
  - vm_compute. reflexivity.
  - vm_compute. reflexivity.
  - destruct F as (C & E & _); [discriminate|].
    exists w'. split; [exact S|]. split; [exact C|exact E].
Defined.

Lemma fifo_no_loss_no_duplication_witness :
  ∃ w, @run demo_json demo_engine
         [Add e1; Add e2; Settle 0 (Throw "Network error"); Add e3;
          Settle 0 (Normal tt)] (demo_queue 1) = Some w ∧
       @delivered demo_json demo_engine
         [Add e1; Add e2; Settle 0 (Throw "Network error"); Add e3;
          Settle 0 (Normal tt)] (demo_queue 1)
       ++ in_flight w ++ events w
       = in_flight (demo_queue 1) ++ events (demo_queue 1) ++ [e1; e2; e3].
Proof.
  eexists. split; [vm_compute; reflexivity|].
  apply (@fifo_no_loss_no_duplication demo_json demo_engine
           [Add e1; Add e2; Settle 0 (Throw "Network error"); Add e3;
            Settle 0 (Normal tt)] (demo_queue 1)).
  - exists (demo_cfg 1), (demo_host ∅ no_faults), []. reflexivity.
  - reflexivity.
  - vm_compute. reflexivity.
  - intros batch In. simpl in In.
    repeat (apply elem_of_cons in In as [->|In]; [vm_compute; discriminate|]).
    by apply elem_of_nil in In.
Defined.

Lemma name_arrays_serialise : @arrays_serialise name_json.
Proof. intros es. eexists. reflexivity. Defined.

Lemma slot_mirrors_pending_witness :
  ∃ w, @run name_json demo_engine [Add n1; Add n2; Add n3] (name_queue 1) = Some w ∧
       events w = [n2; n3] ∧ persisted w = Some "[n2;n3;".
Proof.
  eexists. split; [vm_compute; reflexivity|].
  split; [reflexivity|].
  match goal with |- persisted ?w = _ =>
    destruct (@slot_mirrors_pending name_json demo_engine [Add n1; Add n2; Add n3]
                (demo_cfg 1) (demo_host ∅ no_faults) w)
      as [[E _]|(s & S & P)]
  end.
  - vm_compute. reflexivity.
  - intros m c. reflexivity.
  - exact name_arrays_serialise.
  - vm_compute. reflexivity.
  - discriminate E.
  - rewrite P. f_equal. vm_compute in S. by injection S as <-.
Defined.

Lemma reload_restores_pending_witness :
  ∃ w, @run name_json demo_engine [Add n1; Add n2; Add n3] (name_queue 1) = Some w ∧
       in_flight w = [n1] ∧
       events (@EventQueue.new name_json (demo_cfg 5) w) = [n2; n3].
Proof.
  eexists. split; [vm_compute; reflexivity|].
  split; [reflexivity|].
  apply (@reload_restores_pending name_json demo_engine [Add n1; Add n2; Add n3]
           (demo_cfg 1) (demo_cfg 5) (demo_host ∅ no_faults)).
  - reflexivity.
  - intros m c. reflexivity.
  - exact name_arrays_serialise.
  - vm_compute. reflexivity.
  - intros s S. vm_compute in S. injection S as <-.
    split; [discriminate|vm_compute; reflexivity].
Defined.

Lemma constructor_starts_idle_witness :
  events (@EventQueue.new name_json (demo_cfg 5)
            (demo_host {["analytics_queue_events" := "[n1;n2;"]} no_faults))
  = [n1; n2].
Proof.
  destruct (@constructor_starts_idle name_json (demo_cfg 5)
              (demo_host {["analytics_queue_events" := "[n1;n2;"]} no_faults))
    as (_ & _ & _ & _ & _ & _ & _ & _ & L & _).
  apply (L "[n1;n2;" [n1; n2]).
  - vm_compute. reflexivity.
  - discriminate.
  - reflexivity.
  - vm_compute. reflexivity.
Defined.

Lemma set_get_round_trip_witness :
  ∃ w1 w2,
    @Storage.set name_json "analytics_" "queue_events" (JArr [n1]) demo_pending
    = (Normal true, w1) ∧
    @Storage.get name_json "analytics_queue_" "events" w1 = (Normal (JArr [n1]), w2).
Proof.
  destruct (@set_get_round_trip name_json "analytics_" "queue_events"
              "analytics_queue_" "events" (JArr [n1]) "[n1;" demo_pending)
    as (w1 & w2 & S & G & _).
  - intros m c. reflexivity.
  - reflexivity.
  - reflexivity.
  - discriminate.
  - vm_compute. reflexivity.
  - exists w1, w2. split; [exact S|exact G].
Defined.

Lemma set_leaves_other_slots_witness :
  (@Storage.get demo_json "analytics_queue_" "events"
     (@Storage.set demo_json "analytics_" "user" JNull demo_pending).2).1
  = (@Storage.get demo_json "analytics_queue_" "events" demo_pending).1.
Proof.
  apply (@set_leaves_other_slots demo_json "analytics_" "user"
           "analytics_queue_" "events" JNull demo_pending).
  - intros m c. reflexivity.
  - discriminate.
Defined.

Lemma remove_then_get_is_null_witness :
  ∃ w1 w2,
    Storage.remove "analytics_queue_" "events" demo_pending = (Normal true, w1) ∧
    @Storage.get demo_json "analytics_queue_" "events" w1 = (Normal JNull, w2).
Proof.
  destruct (@remove_then_get_is_null demo_json "analytics_queue_" "events"
              demo_pending) as (w1 & w2 & R & G & _).
  - intros m c. reflexivity.
  - exists w1, w2. split; [exact R|exact G].
Defined.

Lemma get_absent_or_unreadable_witness :
  ∃ v w', @Storage.get demo_json "analytics_" "user" demo_pending = (Normal v, w') ∧
          v = JNull ∧ console w' = console demo_pending.
Proof.
  destruct (@get_absent_or_unreadable demo_json "analytics_" "user" demo_pending)
    as (v & w' & G & A & _).
  - reflexivity.
  - destruct A as [V C]; [left; vm_compute; reflexivity|].
    exists v, w'. split; [exact G|]. split; [exact V|exact C].
Defined.

Lemma clear_erases_by_textual_prefix_witness :
  persisted demo_pending = Some "[e1]" ∧
  ∃ w', Storage.clear "analytics_" demo_pending = (Normal true, w') ∧
        persisted w' = None.
Proof.
  split; [vm_compute; reflexivity|].
  destruct (clear_erases_by_textual_prefix "analytics_" demo_pending)
    as (w' & C & _ & _ & _ & _ & _ & P).
  - intros m. split; [reflexivity|intros k; reflexivity].
  - exists w'. split; [exact C|]. apply P. reflexivity.
Defined.

Lemma validateEvent_accepts_iff_witness :
  ∃ w', validateEvent (JObj [("name", JStr "test_event")]) demo_pending
        = (Normal true, w').
Proof.
  destruct (validateEvent_accepts_iff (JObj [("name", JStr "test_event")])
              demo_pending) as (b & w' & V & _ & _ & _ & _ & Iff).
  exists w'. rewrite V. f_equal. f_equal. apply Iff.
  exists [("name", JStr "test_event")], "test_event".
  split; [reflexivity|]. split; [reflexivity|]. split.
  - eexists. split; [simpl; apply elem_of_cons; left; reflexivity|].
    vm_compute. reflexivity.
  - intros T. vm_compute in T. discriminate T.
Defined.

Lemma validateUser_accepts_iff_witness :
  ∃ w', validateUser demo_user demo_pending = (Normal true, w').
Proof.
  destruct (validateUser_accepts_iff demo_user demo_pending)
    as (b & w' & V & _ & _ & _ & Iff).
  exists w'. rewrite V. f_equal. f_equal. apply Iff.
  exists [("id", JStr "user-123")], "user-123".
  split; [reflexivity|]. split; [reflexivity|]. split; [|split].
  - eexists. split; [simpl; apply elem_of_cons; left; reflexivity|].
    vm_compute. reflexivity.
  - intros T. vm_compute in T. discriminate T.
  - intros T. vm_compute in T. discriminate T.
Defined.

Lemma sanitizeProperties_filters_witness :
  sanitizeProperties
    (JObj [("7", JNum 1); ("key1", JStr "value1"); ("key2", JUndefined);
           ("__proto__", JNum 5); ("zero", JNum 0); ("gone", JNull);
           ("empty", JStr "")])
  = JObj [("7", JNum 1); ("key1", JStr "value1"); ("zero", JNum 0);
          ("empty", JStr "")].
Proof.
  rewrite (sanitizeProperties_filters
             [("7", JNum 1); ("key1", JStr "value1"); ("key2", JUndefined);
              ("__proto__", JNum 5); ("zero", JNum 0); ("gone", JNull);
              ("empty", JStr "")]).
  - vm_compute. reflexivity.
  - apply (bool_decide_unpack _). vm_compute. exact I.
  - csimpl. repeat split; repeat (apply Forall_cons; split);
      try apply Forall_nil; vm_compute; exact I.
Defined.

Lemma sanitizeProperties_clean_and_idempotent_witness :
  ∃ fields, sanitizeProperties JNull = JObj fields ∧ fields = [].
Proof.
  destruct (sanitizeProperties_clean_and_idempotent JNull)
    as (fields & S & _ & _ & F & _).
  exists fields. split; [exact S|]. apply F. reflexivity.
Defined.

Lemma track_validates_then_enqueues_witness :
  ∃ event s',
    @AnalyticsClient.track id_json demo_env "signup"
      (JObj [("plan", JStr "pro"); ("sessionId", JStr "forged")]) (demo_sdk 10)
    = (Normal tt, s') ∧
    queue s' = (@EventQueue.add id_json event (queue (demo_sdk 10))).2 ∧
    prop (prop event "properties") "sessionId" = JStr "1700000000000_4fzyo82" ∧
    prop (prop event "properties") "plan" = JStr "pro".
Proof.
  destruct (@track_validates_then_enqueues id_json demo_env "signup"
              (JObj [("plan", JStr "pro"); ("sessionId", JStr "forged")])
              (demo_sdk 10)) as [_ T].
  destruct T as (event & s' & Tr & Q & _ & _ & _ & _ & Se & _ & _ & _ & _ & Other).
  - eexists. split; [simpl; apply elem_of_cons; left; reflexivity|].
    vm_compute. reflexivity.
  - exists event, s'. split; [exact Tr|]. split; [exact Q|].
    split; [exact Se|]. rewrite Other; [reflexivity|].
    apply (bool_decide_unpack _). vm_compute. exact I.
Defined.

Lemma sendBatch_resolves_iff_acknowledged_witness :
  ∃ s', @AnalyticsClient.sendBatch id_json demo_env [n1] bad_request (demo_sdk 1)
        = (Throw "HTTP 400: Bad Request", s').
Proof.
  destruct (@sendBatch_resolves_iff_acknowledged id_json demo_env [n1]
              bad_request (demo_sdk 1))
    as (r & s' & S & _ & _ & _ & _ & _ & _ & _ & _ & Http).
  exists s'. rewrite S. f_equal.
  rewrite (Http "{" _ "Bad Request" eq_refl eq_refl eq_refl eq_refl).
  vm_compute. reflexivity.
Defined.

Lemma delivery_requeues_unless_acknowledged_witness :
  ∃ k s', awaiting (queue demo_sdk_in_flight) = [k] ∧
    @AnalyticsClient.deliver id_json demo_engine demo_env 0 bad_request demo_sdk_in_flight
    = Some s' ∧
    isProcessing (queue s') = false ∧
    events (queue s') = eventsToSend k ++ events (queue demo_sdk_in_flight).
Proof.
  destruct (awaiting (queue demo_sdk_in_flight)) as [|k [|]] eqn:A;
    [discriminate A| |discriminate A].
  exists k.
  destruct (@delivery_requeues_unless_acknowledged id_json demo_engine demo_env bad_request
              k demo_sdk_in_flight) as (s' & D & P & _ & _ & _ & R).
  - exact A.
  - exists s'. split; [reflexivity|]. split; [exact D|]. split; [exact P|].
    apply R; [|reflexivity].
    vm_compute in A. injection A as <-. vm_compute. discriminate.
Defined.

Lemma constructor_requires_key_and_fills_defaults_witness :
  ∃ s, @AnalyticsClient.constructor demo_json demo_env
         {| cfg_apiKey := Some "test-key"; cfg_endpoint := Some "";
            cfg_debug := None; cfg_batchSize := Some 0;
            cfg_flushInterval := None; cfg_autoTrack := None |}
         (demo_host ∅ no_faults) = (Normal tt, Some s) ∧
       endpoint (sdk_config s) = "https://api.analytics.example.com/events" ∧
       batchSize (config (queue s)) = 10 ∧
       flushInterval (config (queue s)) = 5000.
Proof.
  destruct (@constructor_requires_key_and_fills_defaults demo_json demo_engine
              demo_env
              {| cfg_apiKey := Some "test-key"; cfg_endpoint := Some "";
                 cfg_debug := None; cfg_batchSize := Some 0;
                 cfg_flushInterval := None; cfg_autoTrack := None |}
              (demo_host ∅ no_faults)) as [_ Ok].
  edestruct Ok as (s & C & _ & E & _ & _ & _ & B & F & _); [reflexivity|].
  exists s. split; [exact C|]. split; [exact E|]. split; [exact B|exact F].
Defined.

Lemma identify_persists_and_announces_witness :
  ∃ s' s2,
    @AnalyticsClient.identify id_json demo_env demo_user (demo_sdk 10)
    = (Normal tt, s') ∧
    @AnalyticsClient.constructor id_json demo_env (demo_sdk_config 10) (queue s')
    = (Normal tt, Some s2) ∧
    AnalyticsClient.getUser s2 = demo_user.
Proof.
  destruct (@identify_persists_and_announces id_json demo_engine demo_env demo_user
              (demo_sdk 10)) as [_ Ok].
  destruct Ok as (event & s' & I & _ & _ & _ & _ & Reload).
  - vm_compute. reflexivity.
  - assert (Hh : healthy (localStorage (queue (demo_sdk 10))))
      by (intros m c; reflexivity).
    assert (Ne : "{user-123" ≠ EmptyString) by discriminate.
    destruct (Reload Hh "{user-123" eq_refl Ne eq_refl demo_env
                (demo_sdk_config 10) _ _ eq_refl) as (s2 & C & U).
    exists s', s2. split; [exact I|]. split; [exact C|exact U].
Defined.


Lemma unload_beacons_without_dequeuing_witness :
  ∃ w', @step name_json demo_engine BeforeUnload
          (@EventQueue.add name_json n1 (name_queue 10)).2 = Some w' ∧
        events w' = [n1] ∧ onFlush_calls w' = [] ∧ length (beacons w') = 1%nat.
Proof.
  destruct (@unload_beacons_without_dequeuing name_json demo_engine
              (@EventQueue.add name_json n1 (name_queue 10)).2)
    as (w' & S & M & _ & _ & F & _ & _ & _ & _ & B).
  - exists (demo_cfg 10), (demo_host ∅ no_faults), [Add n1].
    vm_compute. reflexivity.
  - exists w'. split; [exact S|].
    split; [by injection M as _ -> _ _|]. split; [exact F|].
    destruct (@JSON_stringify name_json (JObj [("events", JArr [n1])]))
      as [blob|e] eqn:J; [|discriminate J].
    rewrite (B blob); [reflexivity|discriminate|exact J].
Defined.

Lemma page_names_the_page_witness :
  ∃ event s',
    @AnalyticsClient.page id_json demo_env (Some "")
      (JObj [("pageName", JNull); ("section", JStr "checkout")]) (demo_sdk 10)
    = (Normal tt, s') ∧
    queue s' = (@EventQueue.add id_json event (queue (demo_sdk 10))).2 ∧
    prop (prop event "properties") "pageName" = JUndefined ∧
    prop (prop event "properties") "section" = JStr "checkout".
Proof.
  destruct (@page_names_the_page id_json demo_env (Some "")
              (JObj [("pageName", JNull); ("section", JStr "checkout")])
              (demo_sdk 10)) as (event & s' & P & Q & _ & _ & Given).
  destruct (Given _ eq_refl) as (_ & Own & Other).
  - apply (bool_decide_unpack _). vm_compute. exact I.
  - exists event, s'. split; [exact P|]. split; [exact Q|]. split.
    + apply (Own JNull). apply elem_of_cons. left. reflexivity.
    + rewrite Other; [reflexivity|].
      apply (bool_decide_unpack _). vm_compute. exact I.
Defined.

Lemma click_tracks_links_and_buttons_witness :
  @AnalyticsClient.on_click id_json demo_env "DIV" (Some "hello") JUndefined
    (demo_sdk 10) = (Normal tt, demo_sdk 10) ∧
  ∃ event s',
    @AnalyticsClient.on_click id_json demo_env "BUTTON" (Some "Buy now")
      JUndefined (demo_sdk 10) = (Normal tt, s') ∧
    prop (prop event "properties") "elementType" = JStr "BUTTON" ∧
    prop (prop event "properties") "href" = JUndefined.
Proof.
  split.
  - apply (@click_tracks_links_and_buttons id_json); discriminate.
  - destruct (@click_tracks_links_and_buttons id_json demo_env "BUTTON"
                (Some "Buy now") JUndefined (demo_sdk 10)) as [_ Ok].
    destruct Ok as (event & s' & C & _ & _ & T & Hr & _); [right; reflexivity|].
    exists event, s'. split; [exact C|]. split; [exact T|exact Hr].
Defined.

Lemma constructor_auto_tracks_first_page_witness :
  ∃ s event,
    @AnalyticsClient.constructor id_json
      {| href := "https://shop.example/cart"; referrer := EmptyString;
         userAgent := "Mozilla/5.0"; title := "Cart";
         readyState_complete := true; now := 1700000000000;
         random36 := "0.4fzyo82mvyr" |}
      {| cfg_apiKey := Some "test-key"; cfg_endpoint := None; cfg_debug := None;
         cfg_batchSize := None; cfg_flushInterval := None;
         cfg_autoTrack := None |}
      (demo_host {["analytics_user" := "{user-123"]} no_faults)
    = (Normal tt, Some s) ∧
    events (queue s) = [event] ∧
    prop event "name" = JStr "page_view" ∧
    prop (prop event "properties") "pageName" = JStr "Cart" ∧
    prop (prop event "properties") "userId" = JStr "user-123".
Proof.
  edestruct (@constructor_auto_tracks_first_page id_json
              {| href := "https://shop.example/cart"; referrer := EmptyString;
                 userAgent := "Mozilla/5.0"; title := "Cart";
                 readyState_complete := true; now := 1700000000000;
                 random36 := "0.4fzyo82mvyr" |}
              {| cfg_apiKey := Some "test-key"; cfg_endpoint := None;
                 cfg_debug := None; cfg_batchSize := None;
                 cfg_flushInterval := None; cfg_autoTrack := None |}
              (demo_host {["analytics_user" := "{user-123"]} no_faults))
    as (s & w0 & C & W & _ & On); [reflexivity|].
  destruct On as (event & Q & N & P & U); [discriminate|reflexivity|].
  exists s, event. split; [exact C|]. split; [|split; [exact N|split; [exact P|]]].
  - rewrite Q, W. vm_compute. reflexivity.
  - rewrite U. injection C as <-. vm_compute. reflexivity.
Defined.

Lemma silent_unless_debug_witness :
  console_log
    (@AnalyticsClient.track id_json demo_env "signup" JUndefined (demo_sdk 10)).2
  = [] ∧
  console_log
    (@AnalyticsClient.sendBatch id_json demo_env [n1] bad_request (demo_sdk 10)).2
  = [].
Proof.
  destruct (@silent_unless_debug id_json demo_env)
    as (Tr & _ & _ & _ & _ & _ & Se & _).
  split.
  - destruct (Tr "signup" JUndefined (demo_sdk 10)) as [L _]; [reflexivity|].
    rewrite L. reflexivity.
  - destruct (Se [n1] bad_request (demo_sdk 10)) as [L _]; [reflexivity|].
    rewrite L. reflexivity.
Defined.
